(** * ANCHOR client-side crypto: DID derivation, signatures, envelope encryption

    A shallow embedding of [frontend/src/lib/crypto/did.ts],
    [frontend/src/lib/crypto/encrypt.ts] and of the signature step of
    [frontend/src/app/dashboard/recovery/page.tsx]; then of the key
    derivation module [keys.ts], the Zustand stores of
    [frontend/src/lib/store.ts], the error of [frontend/src/lib/api/client.ts]
    and the key handling of the account creation and login pages.

    Conventions.
    - A [Uint8Array] is a [list byte].
    - A JavaScript string is a [string] whose characters are the code units
      [0..255]; every string the modelled code builds or inspects (base58,
      base64, the [did:key:z] prefix, the payload fields) lies in that range.
    - A [BigInt] is a [Z]; [/] and [%] on BigInt are [Z.quot] and [Z.rem].
    - A call that may throw returns a [result]: [Ok v] or [Throw e].
    - An [async] function is modelled by what it resolves to or rejects
      with. *)

From Stdlib Require Import ZArith Lia Ascii String.
From Stdlib.Strings Require Import Byte.
From stdpp Require Import base list strings finite.

Abbreviation bytes := (list byte).

(** ** Exceptions and results *)

(** The exception classes the code throws or lets escape. *)
Inductive exn : Type :=
  | Error (message : string)
  | TypeError (message : string)
  | DecryptionError (message : string).

(** [error.message] *)
Definition exn_message (e : exn) : string :=
  match e with
  | Error m | TypeError m | DecryptionError m => m
  end.

Inductive result (A : Type) : Type :=
  | Ok (a : A)
  | Throw (e : exn).
Arguments Ok {A} a.
Arguments Throw {A} e.

Global Instance result_ret : MRet result := fun _ a => Ok a.
Global Instance result_bind : MBind result := fun _ _ f m =>
  match m with
  | Ok a => f a
  | Throw e => Throw e
  end.

(** [try { body } catch (error) { handler }] *)
Definition try_catch {A} (body : result A) (handler : exn -> result A) : result A :=
  match body with
  | Ok a => Ok a
  | Throw e => handler e
  end.

(** ** Bytes and strings *)

Definition byte_val (b : byte) : Z := Z.of_N (Byte.to_N b).

(** Storing a number into a [Uint8Array] slot keeps it modulo 256. *)
Definition byte_of_Z (z : Z) : byte :=
  match Byte.of_N (Z.to_N (z mod 256)) with
  | Some b => b
  | None => x00
  end.

(** [s.indexOf(c)] for a one-character [c]: the first position, or [-1]. *)
Fixpoint indexOf_from (c : ascii) (s : string) (i : Z) : Z :=
  match s with
  | EmptyString => (-1)%Z
  | String a s' => if Ascii.eqb a c then i else indexOf_from c s' (i + 1)%Z
  end.
Definition indexOf (s : string) (c : ascii) : Z := indexOf_from c s 0.

(** [s[i]] for an index the code keeps in range. *)
Definition char_at (s : string) (i : Z) : ascii :=
  match String.get (Z.to_nat i) s with
  | Some c => c
  | None => "000"%char
  end.

(** [s.startsWith(p)] *)
Definition startsWith (s p : string) : bool := String.prefix p s.

(** [s.slice(n)] for [0 <= n] *)
Definition string_slice (n : nat) (s : string) : string :=
  String.substring n (String.length s - n) s.

(** [s.split(sep)] for a one-character separator: the pieces between the
    occurrences of [sep], in order; never an empty array. *)
Fixpoint string_split (sep : ascii) (s : string) : list string :=
  match s with
  | EmptyString => [EmptyString]
  | String a s' =>
      if Ascii.eqb a sep then EmptyString :: string_split sep s'
      else
        match string_split sep s' with
        | piece :: pieces => String a piece :: pieces
        | [] => [String a EmptyString]
        end
  end.

(** [arr.pop()] as it is used in a template string: the last element, and
    [undefined] (printed as such) for an empty array. *)
Definition Array_pop (arr : list string) : string := List.last arr "undefined".

(** [s.includes(sub)] *)
Fixpoint includes (s sub : string) : bool :=
  String.prefix sub s ||
  match s with
  | EmptyString => false
  | String _ s' => includes s' sub
  end.

(** ** did.ts: base58btc *)

Module Base58.
Local Open Scope Z_scope.

Definition BASE58_ALPHABET : string :=
  "123456789ABCDEFGHJKLMNPQRSTUVWXYZabcdefghijkmnopqrstuvwxyz".

(** [for (const byte of data) num = num * 256n + BigInt(byte)] *)
Definition bigint_of_bytes (data : bytes) : Z :=
  fold_left (fun num b => num * 256 + byte_val b) data 0.

(** The [while (num > 0n)] loop of [base58Encode]: each turn pushes the
    character of [num % 58n] and divides [num] by 58.  [fuel] bounds the
    number of turns; [encode_fuel] is always enough (see [encode_loop_fuel]). *)
Fixpoint encode_loop (fuel : nat) (num : Z) (result : list ascii) : list ascii :=
  match fuel with
  | O => result
  | S fuel' =>
      if 0 <? num then
        let remainder := Z.rem num 58 in
        encode_loop fuel' (Z.quot num 58) (result ++ [char_at BASE58_ALPHABET remainder])
      else result
  end.

Definition encode_fuel (num : Z) : nat := S (Z.to_nat (Z.log2 num)).

(** The "handle leading zeros" loop of [base58Encode]: one alphabet-zero
    character per leading zero byte, stopping at the first other byte. *)
Fixpoint push_leading_zeros (data : bytes) (result : list ascii) : list ascii :=
  match data with
  | b :: data' =>
      if byte_val b =? 0
      then push_leading_zeros data' (result ++ [char_at BASE58_ALPHABET 0])
      else result
  | [] => result
  end.

Definition base58Encode (data : bytes) : string :=
  let num := bigint_of_bytes data in
  if num =? 0 then String (char_at BASE58_ALPHABET 0) EmptyString
  else
    let result := encode_loop (encode_fuel num) num [] in
    let result := push_leading_zeros data result in
    string_of_list_ascii (rev result).

(** The first loop of [base58Decode]: accumulate the value, throwing at the
    first character that is not in the alphabet. *)
Fixpoint decode_loop (encoded : list ascii) (num : Z) : result Z :=
  match encoded with
  | [] => Ok num
  | char :: rest =>
      let index := indexOf BASE58_ALPHABET char in
      if index =? -1
      then Throw (Error ("Invalid base58 character: " +:+ String char EmptyString))
      else decode_loop rest (num * 58 + index)
  end.

(** The second loop of [base58Decode]: count the leading alphabet-zero
    characters. *)
Fixpoint count_leading_ones (encoded : list ascii) : nat :=
  match encoded with
  | char :: rest =>
      if Ascii.eqb char (char_at BASE58_ALPHABET 0)
      then S (count_leading_ones rest)
      else O
  | [] => O
  end.

(** [num.toString(16)] for a BigInt [num >= 0]: the hexadecimal digits, most
    significant first, produced by repeated division (as many turns as
    [num] has digits; [encode_fuel] bounds them). *)
Definition HEX_DIGITS : string := "0123456789abcdef".

Fixpoint hex_loop (fuel : nat) (num : Z) (digits : list ascii) : list ascii :=
  match fuel with
  | O => digits
  | S fuel' =>
      if 0 <? num
      then hex_loop fuel' (Z.quot num 16) (char_at HEX_DIGITS (Z.rem num 16) :: digits)
      else digits
  end.

Definition bigint_toString16 (num : Z) : string :=
  if num =? 0 then "0"
  else string_of_list_ascii (hex_loop (encode_fuel num) num []).

(** [Math.ceil(n / 2)] for a length [n] *)
Definition ceil_half (n : nat) : nat := Nat.div (n + 1) 2.

(** The last loop of [base58Decode]:
    [bytes[leadingZeros + byteLength - 1 - i] = Number((num >> BigInt(i * 8)) & 0xffn)]
    for [i = 0 .. byteLength - 1]. *)
Definition fill_bytes (num : Z) (leadingZeros byteLength : nat) (buf : bytes) : bytes :=
  fold_left
    (fun buf i =>
       <[(leadingZeros + byteLength - 1 - i)%nat :=
           byte_of_Z (Z.land (Z.shiftr num (Z.of_nat i * 8)) 255)]> buf)
    (seq 0 byteLength) buf.

Definition base58Decode (encoded : string) : result bytes :=
  if String.eqb encoded "" then Ok []
  else
    let chars := list_ascii_of_string encoded in
    num ← decode_loop chars 0;
    let leadingZeros := count_leading_ones chars in
    if num =? 0 then Ok (replicate leadingZeros x00)
    else
      let hex := bigint_toString16 num in
      let byteLength := ceil_half (String.length hex) in
      Ok (fill_bytes num leadingZeros byteLength
            (replicate (leadingZeros + byteLength)%nat x00)).

End Base58.

(** ** tweetnacl-util and the platform string helpers

    [encodeBase64] / [decodeBase64] of tweetnacl-util are the standard
    (RFC 4648) base64 with padding; [decodeBase64] first validates its
    argument and throws [TypeError('invalid encoding')] when it is not
    well-formed base64. *)

Module NaclUtil.
Local Open Scope Z_scope.

Definition BASE64_ALPHABET : string :=
  "ABCDEFGHIJKLMNOPQRSTUVWXYZabcdefghijklmnopqrstuvwxyz0123456789+/".

Definition b64_char (i : Z) : ascii := char_at BASE64_ALPHABET i.
Definition b64_index (c : ascii) : Z := indexOf BASE64_ALPHABET c.
Definition is_b64 (c : ascii) : bool := negb (b64_index c =? -1).
Definition is_pad (c : ascii) : bool := Ascii.eqb c "="%char.

Fixpoint encode_groups (data : bytes) : list ascii :=
  match data with
  | [] => []
  | [a] =>
      let a := byte_val a in
      [b64_char (a / 4); b64_char (a mod 4 * 16); "="%char; "="%char]
  | [a; b] =>
      let a := byte_val a in
      let b := byte_val b in
      [b64_char (a / 4); b64_char (a mod 4 * 16 + b / 16);
       b64_char (b mod 16 * 4); "="%char]
  | a :: b :: c :: rest =>
      let a := byte_val a in
      let b := byte_val b in
      let c := byte_val c in
      b64_char (a / 4) :: b64_char (a mod 4 * 16 + b / 16) ::
      b64_char (b mod 16 * 4 + c / 64) :: b64_char (c mod 64) ::
      encode_groups rest
  end.

Definition encodeBase64 (arr : bytes) : string :=
  string_of_list_ascii (encode_groups arr).

(** Groups of four alphabet characters, the last one possibly padded with
    one or two [=]; anything else is rejected. *)
Fixpoint decode_groups (s : list ascii) : option bytes :=
  match s with
  | [] => Some []
  | c1 :: c2 :: c3 :: c4 :: rest =>
      let i1 := b64_index c1 in
      let i2 := b64_index c2 in
      let i3 := b64_index c3 in
      let i4 := b64_index c4 in
      let b1 := byte_of_Z (i1 * 4 + i2 / 16) in
      let b2 := byte_of_Z (i2 mod 16 * 16 + i3 / 4) in
      let b3 := byte_of_Z (i3 mod 4 * 64 + i4) in
      if is_b64 c1 && is_b64 c2 then
        if is_b64 c3 && is_b64 c4 then
          match decode_groups rest with
          | Some tail => Some (b1 :: b2 :: b3 :: tail)
          | None => None
          end
        else
          match rest with
          | [] =>
              if is_pad c3 && is_pad c4 then Some [b1]
              else if is_b64 c3 && is_pad c4 then Some [b1; b2]
              else None
          | _ :: _ => None
          end
      else None
  | _ => None
  end.

Definition decodeBase64 (s : string) : result bytes :=
  match decode_groups (list_ascii_of_string s) with
  | Some b => Ok b
  | None => Throw (TypeError "invalid encoding")
  end.

(** [new TextEncoder().encode(s)]: UTF-8, one byte for a code unit below
    128 and two bytes for one in [128..255]. *)
Definition utf8_char (c : ascii) : bytes :=
  let n := Z.of_N (N_of_ascii c) in
  if n <? 128 then [byte_of_Z n]
  else [byte_of_Z (192 + n / 64); byte_of_Z (128 + n mod 64)].

Definition TextEncoder_encode (s : string) : bytes :=
  concat (map utf8_char (list_ascii_of_string s)).

(** [String.fromCharCode(...arr)] *)
Definition String_fromCharCode (arr : bytes) : string := string_of_list_byte arr.

(** [btoa(s)] on a string of code units below 256 *)
Definition btoa (s : string) : string := encodeBase64 (list_byte_of_string s).

End NaclUtil.

(** ** tweetnacl

    The cryptographic cores of tweetnacl and the SHA-256 of the Web Crypto
    API are not part of the repository; the code is modelled over any
    implementation of them.  What the repository's functions call is the
    JavaScript API around the cores, which checks the sizes of keys and
    nonces before it runs them; that API is modelled in full below. *)

Class Primitives : Type := {
  (** XSalsa20-Poly1305: message, nonce, key *)
  crypto_secretbox : bytes -> bytes -> bytes -> bytes;
  (** box, nonce, key; [None] when authentication fails *)
  crypto_secretbox_open : bytes -> bytes -> bytes -> option bytes;
  (** the Ed25519 public key of a 32-byte seed *)
  crypto_sign_public : bytes -> bytes;
  (** message, secret key; the result is signature followed by message *)
  crypto_sign : bytes -> bytes -> bytes;
  (** signed message, public key; [None] when verification fails *)
  crypto_sign_open : bytes -> bytes -> option bytes;
  (** [crypto.subtle.digest('SHA-256', _)] *)
  subtle_digest_sha256 : bytes -> bytes
}.

(** The functional contract of the cores that the proofs rely on. *)
Class PrimitivesLaws (P : Primitives) : Prop := {
  secretbox_length : forall m n k,
    length (crypto_secretbox m n k) = (16 + length m)%nat;
  secretbox_open_secretbox : forall m n k,
    length k = 32%nat -> length n = 24%nat ->
    crypto_secretbox_open (crypto_secretbox m n k) n k = Some m;
  sign_public_length : forall seed,
    length seed = 32%nat -> length (crypto_sign_public seed) = 32%nat;
  sign_length : forall m sk,
    length (crypto_sign m sk) = (64 + length m)%nat;
  sign_message : forall m sk,
    drop 64 (crypto_sign m sk) = m;
  sign_open_sign : forall m seed,
    length seed = 32%nat ->
    crypto_sign_open (crypto_sign m (seed ++ crypto_sign_public seed))
      (crypto_sign_public seed) = Some m;
  sha256_length : forall m,
    length (subtle_digest_sha256 m) = 32%nat
}.

(** The X25519 cores behind [nacl.box]. *)
Class BoxPrimitives : Type := {
  (** the public key of a 32-byte secret key *)
  crypto_scalarmult_base : bytes -> bytes;
  (** the shared key of [nacl.box.before]: their public key, my secret key *)
  crypto_box_beforenm : bytes -> bytes -> bytes
}.

(** Both sides of a key exchange compute the same 32-byte shared key. *)
Class BoxLaws (B : BoxPrimitives) : Prop := {
  scalarmult_base_length : forall sk,
    length sk = 32%nat -> length (crypto_scalarmult_base sk) = 32%nat;
  beforenm_length : forall pk sk,
    length (crypto_box_beforenm pk sk) = 32%nat;
  beforenm_shared : forall a b,
    length a = 32%nat -> length b = 32%nat ->
    crypto_box_beforenm (crypto_scalarmult_base a) b
    = crypto_box_beforenm (crypto_scalarmult_base b) a
}.

(** What an awaited call into the platform does: it returns, it throws an
    [Error] object, or it throws some other value. *)
Inductive outcome (A : Type) : Type :=
  | Returned (a : A)
  | ThrewError (e : exn)
  | ThrewValue.
Arguments Returned {A} a.
Arguments ThrewError {A} e.
Arguments ThrewValue {A}.

Global Instance outcome_ret : MRet outcome := fun _ a => Returned a.
Global Instance outcome_bind : MBind outcome := fun _ _ f m =>
  match m with
  | Returned a => f a
  | ThrewError e => ThrewError e
  | ThrewValue => ThrewValue
  end.

(** PBKDF2 of the Web Crypto API, as [keys.ts] calls it. *)
Class WebCrypto : Type := {
  CryptoKey : Type;
  (** [typeof crypto !== 'undefined' && crypto.subtle] *)
  subtle_present : bool;
  (** [crypto.subtle.importKey('raw', keyData, 'PBKDF2', false, ['deriveBits'])] *)
  subtle_importKey : bytes -> outcome CryptoKey;
  (** [crypto.subtle.deriveBits({ name: 'PBKDF2', salt, iterations, hash: 'SHA-256' },
      key, length)]: salt, iterations, key, length in bits *)
  subtle_deriveBits : bytes -> Z -> CryptoKey -> nat -> outcome bytes
}.

(** Where the API is present, a raw key is imported, and a positive number of
    iterations (an unsigned 32-bit integer) and a positive length that is a
    multiple of 8 give that many bits. *)
Class WebCryptoLaws (W : WebCrypto) : Prop := {
  importKey_returns : forall keyData,
    subtle_present = true -> exists key, subtle_importKey keyData = Returned key;
  deriveBits_length : forall keyData key salt iterations n,
    subtle_importKey keyData = Returned key ->
    (0 < iterations < 2 ^ 32)%Z -> (0 < n)%nat ->
    exists derivedBits,
      subtle_deriveBits salt iterations key (n * 8)%nat = Returned derivedBits /\
      length derivedBits = n
}.

(** The source of randomness behind [nacl.randomBytes]: an unbounded tape of
    bytes, consumed from the front. *)
Definition rng : Type := nat -> byte.

Module nacl.
Section Api.
Context {P : Primitives}.

Definition secretbox_keyLength : nat := 32.
Definition secretbox_nonceLength : nat := 24.
Definition secretbox_overheadLength : nat := 16.
Definition sign_publicKeyLength : nat := 32.
Definition sign_secretKeyLength : nat := 64.
Definition sign_seedLength : nat := 32.
Definition sign_signatureLength : nat := 64.

(** [nacl.randomBytes(n)] *)
Definition randomBytes (n : nat) (g : rng) : bytes * rng :=
  (map g (seq 0 n), fun i => g (n + i)%nat).

(** [checkLengths(k, n)] *)
Definition checkLengths (k n : bytes) : result unit :=
  if negb (length k =? secretbox_keyLength)%nat then Throw (Error "bad key size")
  else if negb (length n =? secretbox_nonceLength)%nat then Throw (Error "bad nonce size")
  else Ok tt.

(** [nacl.secretbox(msg, nonce, key)] *)
Definition secretbox (msg nonce key : bytes) : result bytes :=
  _ ← checkLengths key nonce;
  Ok (crypto_secretbox msg nonce key).

(** [nacl.secretbox.open(box, nonce, key)]; [Ok None] is [null]. *)
Definition secretbox_open (box nonce key : bytes) : result (option bytes) :=
  _ ← checkLengths key nonce;
  if (length box <? secretbox_overheadLength)%nat then Ok None
  else Ok (crypto_secretbox_open box nonce key).

(** [nacl.sign.keyPair()]: the secret key is the seed followed by the
    public key. *)
Definition sign_keyPair (g : rng) : (bytes * bytes) * rng :=
  let '(seed, g) := randomBytes sign_seedLength g in
  let publicKey := crypto_sign_public seed in
  ((publicKey, seed ++ publicKey), g).

(** [nacl.sign(msg, secretKey)] *)
Definition sign (msg secretKey : bytes) : result bytes :=
  if negb (length secretKey =? sign_secretKeyLength)%nat
  then Throw (Error "bad secret key size")
  else Ok (crypto_sign msg secretKey).

(** [nacl.sign.open(signedMsg, publicKey)]; [Ok None] is [null]. *)
Definition sign_open (signedMsg publicKey : bytes) : result (option bytes) :=
  if negb (length publicKey =? sign_publicKeyLength)%nat
  then Throw (Error "bad public key size")
  else if (length signedMsg <? sign_signatureLength)%nat then Ok None
  else Ok (crypto_sign_open signedMsg publicKey).

End Api.

Section BoxApi.
Context {P : Primitives} {B : BoxPrimitives}.

Definition box_publicKeyLength : nat := 32.
Definition box_secretKeyLength : nat := 32.

(** [checkBoxLengths(pk, sk)] *)
Definition checkBoxLengths (pk sk : bytes) : result unit :=
  if negb (length pk =? box_publicKeyLength)%nat then Throw (Error "bad public key size")
  else if negb (length sk =? box_secretKeyLength)%nat then Throw (Error "bad secret key size")
  else Ok tt.

(** [nacl.box.before(publicKey, secretKey)] *)
Definition box_before (publicKey secretKey : bytes) : result bytes :=
  _ ← checkBoxLengths publicKey secretKey;
  Ok (crypto_box_beforenm publicKey secretKey).

(** [nacl.box(msg, nonce, publicKey, secretKey)] *)
Definition box (msg nonce publicKey secretKey : bytes) : result bytes :=
  k ← box_before publicKey secretKey;
  secretbox msg nonce k.

(** [nacl.box.open(msg, nonce, publicKey, secretKey)]; [Ok None] is [null]. *)
Definition box_open (msg nonce publicKey secretKey : bytes) : result (option bytes) :=
  k ← box_before publicKey secretKey;
  secretbox_open msg nonce k.

(** [nacl.box.keyPair()]: public key, secret key. *)
Definition box_keyPair (g : rng) : (bytes * bytes) * rng :=
  let '(sk, g) := randomBytes box_secretKeyLength g in
  ((crypto_scalarmult_base sk, sk), g).

(** [nacl.box.keyPair.fromSecretKey(secretKey)]: public key, secret key. *)
Definition box_keyPair_fromSecretKey (secretKey : bytes) : result (bytes * bytes) :=
  if negb (length secretKey =? box_secretKeyLength)%nat
  then Throw (Error "bad secret key size")
  else Ok (crypto_scalarmult_base secretKey, secretKey).

End BoxApi.
End nacl.

(** [dst.set(src, offset)] on typed arrays, for a source that fits. *)
Definition Uint8Array_set (dst src : bytes) (offset : nat) : bytes :=
  take offset dst ++ src ++ drop (offset + length src) dst.

(** [new Uint8Array(n)] *)
Definition Uint8Array_new (n : nat) : bytes := replicate n x00.

Global Instance byte_eq_decision : EqDecision byte := Byte.byte_eq_dec.

(** ** did.ts: DIDs and signatures *)

Module Did.
Import Base58 NaclUtil.
Section WithPrimitives.
Context {P : Primitives}.

Definition ED25519_MULTICODEC_PREFIX : bytes := [xed; x01].

Record KeyPair : Type := {
  signingKey : bytes;
  verifyKey : bytes
}.

Definition generateKeyPair (g : rng) : KeyPair * rng :=
  let '((publicKey, secretKey), g) := nacl.sign_keyPair g in
  ({| signingKey := secretKey; verifyKey := publicKey |}, g).

Definition publicKeyToDid (publicKey : bytes) : result string :=
  if negb (length publicKey =? 32)%nat
  then Throw (Error "Ed25519 public key must be 32 bytes")
  else
    let multicodecKey :=
      Uint8Array_new (length ED25519_MULTICODEC_PREFIX + length publicKey) in
    let multicodecKey := Uint8Array_set multicodecKey ED25519_MULTICODEC_PREFIX 0 in
    let multicodecKey :=
      Uint8Array_set multicodecKey publicKey (length ED25519_MULTICODEC_PREFIX) in
    let encoded := base58Encode multicodecKey in
    Ok ("did:key:z" +:+ encoded).

Definition didToPublicKey (did : string) : result bytes :=
  if negb (startsWith did "did:key:z")
  then Throw (Error "Invalid did:key format - must start with 'did:key:z'")
  else
    let encoded := string_slice 9 did in
    decoded ← base58Decode encoded;
    if negb (bool_decide (decoded !! 0%nat = ED25519_MULTICODEC_PREFIX !! 0%nat))
       || negb (bool_decide (decoded !! 1%nat = ED25519_MULTICODEC_PREFIX !! 1%nat))
    then Throw (Error "Invalid multicodec prefix - expected Ed25519")
    else
      let publicKey := drop 2 decoded in
      if negb (length publicKey =? 32)%nat
      then Throw (Error "Invalid public key length")
      else Ok publicKey.

Record GeneratedDid : Type := {
  gd_did : string;
  gd_signingKey : bytes;
  gd_verifyKey : bytes
}.

Definition generateDid (g : rng) : result GeneratedDid * rng :=
  let '(kp, g) := generateKeyPair g in
  (did ← publicKeyToDid (verifyKey kp);
   Ok {| gd_did := did; gd_signingKey := signingKey kp; gd_verifyKey := verifyKey kp |},
   g).

(** [${did}#${did.split(':').pop()}] *)
Definition createVerificationMethod (did : string) : string :=
  let methodId := Array_pop (string_split ":" did) in
  did +:+ "#" +:+ methodId.

Definition signMessage (message signingKey : bytes) : result bytes :=
  signedMessage ← nacl.sign message signingKey;
  Ok (take nacl.sign_signatureLength signedMessage).

Definition verifySignature (message signature publicKey : bytes) : result bool :=
  let signedMessage := Uint8Array_new (length signature + length message) in
  let signedMessage := Uint8Array_set signedMessage signature 0 in
  let signedMessage := Uint8Array_set signedMessage message (length signature) in
  result ← nacl.sign_open signedMessage publicKey;
  Ok (bool_decide (result <> None)).

(** A [string | Uint8Array] argument. *)
Definition message_bytes (message : string + bytes) : bytes :=
  match message with
  | inl s => TextEncoder_encode s
  | inr b => b
  end.

Definition signMessageBase64 (message : string + bytes) (signingKey : bytes)
  : result string :=
  let messageBytes := message_bytes message in
  signature ← signMessage messageBytes signingKey;
  Ok (encodeBase64 signature).

Definition verifySignatureBase64 (message : string + bytes) (signatureB64 : string)
    (publicKey : bytes) : result bool :=
  try_catch
    (let messageBytes := message_bytes message in
     signature ← decodeBase64 signatureB64;
     verifySignature messageBytes signature publicKey)
    (fun _ => Ok false).

End WithPrimitives.
End Did.

(** ** encrypt.ts: symmetric and envelope encryption *)

Module Encrypt.
Import NaclUtil.
Section WithPrimitives.
Context {P : Primitives}.

Definition SCHEME_SECRETBOX : string := "XSalsa20-Poly1305".
Definition SCHEME_BOX : string := "X25519-XSalsa20-Poly1305".

Record KeyWrapInfo : Type := {
  kw_algorithm : string;
  kw_ephemeral : option bool;
  kw_senderPubkey : option string
}.

Record EncryptedPayload : Type := {
  ciphertext : string;
  nonce : string;
  scheme : string;
  keyWrap : option KeyWrapInfo
}.

Record VaultKeyWrap : Type := {
  algorithm : string;
  wrapped_key : string;
  wrap_nonce : string
}.

Record VaultEncryptionMeta : Type := {
  vm_scheme : string;
  vm_nonce : string;
  key_wrap : VaultKeyWrap
}.

Definition generateKey (g : rng) : bytes * rng :=
  nacl.randomBytes nacl.secretbox_keyLength g.

Definition generateNonce (g : rng) : bytes * rng :=
  nacl.randomBytes nacl.secretbox_nonceLength g.

(** [nonce || generateNonce()]: a nonce that was passed is used as it is. *)
Definition encryptSymmetric (plaintext key : bytes) (nonce : option bytes) (g : rng)
  : result EncryptedPayload * rng :=
  let '(nonceBytes, g) :=
    match nonce with
    | Some n => (n, g)
    | None => generateNonce g
    end in
  (ciphertext ← nacl.secretbox plaintext nonceBytes key;
   Ok {| ciphertext := encodeBase64 ciphertext;
         nonce := encodeBase64 nonceBytes;
         scheme := SCHEME_SECRETBOX;
         keyWrap := None |},
   g).

Definition decryptSymmetric (payload : EncryptedPayload) (key : bytes) : result bytes :=
  try_catch
    (ciphertext ← decodeBase64 (ciphertext payload);
     nonce ← decodeBase64 (nonce payload);
     decrypted ← nacl.secretbox_open ciphertext nonce key;
     match decrypted with
     | None =>
         Throw (DecryptionError "Decryption failed: incorrect key or corrupted data")
     | Some decrypted => Ok decrypted
     end)
    (fun error =>
       match error with
       | DecryptionError _ => Throw error
       | _ => Throw (DecryptionError ("Decryption error: " +:+ exn_message error))
       end).

Definition encryptForVault (plaintext documentKey : bytes) (g : rng)
  : result (bytes * VaultEncryptionMeta) * rng :=
  let '(dek, g) := generateKey g in
  let '(documentNonce, g) := generateNonce g in
  match nacl.secretbox plaintext documentNonce dek with
  | Throw e => (Throw e, g)
  | Ok ciphertext =>
      let '(dekNonce, g) := generateNonce g in
      match nacl.secretbox dek dekNonce documentKey with
      | Throw e => (Throw e, g)
      | Ok wrappedDek =>
          let encryptionMeta :=
            {| vm_scheme := SCHEME_SECRETBOX;
               vm_nonce := encodeBase64 documentNonce;
               key_wrap :=
                 {| algorithm := "XSalsa20-Poly1305";
                    wrapped_key := encodeBase64 wrappedDek;
                    wrap_nonce := encodeBase64 dekNonce |} |} in
          (Ok (ciphertext, encryptionMeta), g)
      end
  end.

Definition decryptFromVault (encryptedBlob : bytes) (encryptionMeta : VaultEncryptionMeta)
    (documentKey : bytes) : result bytes :=
  wrappedDek ← decodeBase64 (wrapped_key (key_wrap encryptionMeta));
  wrapNonce ← decodeBase64 (wrap_nonce (key_wrap encryptionMeta));
  dek ← nacl.secretbox_open wrappedDek wrapNonce documentKey;
  match dek with
  | None => Throw (Error "Failed to unwrap document encryption key")
  | Some dek =>
      documentNonce ← decodeBase64 (vm_nonce encryptionMeta);
      decrypted ← nacl.secretbox_open encryptedBlob documentNonce dek;
      match decrypted with
      | None => Throw (Error "Failed to decrypt document")
      | Some decrypted => Ok decrypted
      end
  end.

(** *** Asymmetric encryption *)

Context {B : BoxPrimitives}.

(** [if (senderSecretKey)]: a key that was passed is used with the public key
    derived from it; otherwise an ephemeral key pair is generated.  The nonce
    is generated after the key pair. *)
Definition encryptAsymmetric (plaintext recipientPublicKey : bytes)
    (senderSecretKey : option bytes) (g : rng) : result EncryptedPayload * rng :=
  let '(senderKeyPair, g) :=
    match senderSecretKey with
    | Some sk =>
        (kp ← nacl.box_keyPair_fromSecretKey sk; Ok (kp.1, sk, false), g)
    | None =>
        let '((pk, sk), g) := nacl.box_keyPair g in (Ok (pk, sk, true), g)
    end in
  match senderKeyPair with
  | Throw e => (Throw e, g)
  | Ok (senderPublicKey, senderSecret, ephemeral) =>
      let '(nonce, g) := generateNonce g in
      (ciphertext ← nacl.box plaintext nonce recipientPublicKey senderSecret;
       Ok {| ciphertext := encodeBase64 ciphertext;
             nonce := encodeBase64 nonce;
             scheme := SCHEME_BOX;
             keyWrap :=
               Some {| kw_algorithm := "X25519-HKDF";
                       kw_ephemeral := Some ephemeral;
                       kw_senderPubkey := Some (encodeBase64 senderPublicKey) |} |},
       g)
  end.

(** [payload.keyWrap?.senderPubkey], which the code tests for truthiness: an
    absent key wrap, an absent field and the empty string all count as
    missing. *)
Definition payload_senderPubkey (payload : EncryptedPayload) : option string :=
  match keyWrap payload with
  | Some kw =>
      match kw_senderPubkey kw with
      | Some s => if String.eqb s "" then None else Some s
      | None => None
      end
  | None => None
  end.

Definition decryptAsymmetric (payload : EncryptedPayload) (recipientSecretKey : bytes)
    (senderPublicKey : option bytes) : result bytes :=
  senderPubKey ←
    match senderPublicKey with
    | Some pk => Ok pk
    | None =>
        match payload_senderPubkey payload with
        | Some s => decodeBase64 s
        | None => Throw (Error "Sender public key required for decryption")
        end
    end;
  ciphertext ← decodeBase64 (ciphertext payload);
  nonce ← decodeBase64 (nonce payload);
  decrypted ← nacl.box_open ciphertext nonce senderPubKey recipientSecretKey;
  match decrypted with
  | None => Throw (Error "Decryption failed")
  | Some decrypted => Ok decrypted
  end.

(** *** Content hash *)

(** [n.toString(16)] for a Number that is a non-negative integer: the same
    digits as for a BigInt. *)
Definition Number_toString16 (n : Z) : string := Base58.bigint_toString16 n.

(** [s.padStart(targetLength, pad)] for a one-character [pad] *)
Definition padStart (targetLength : nat) (pad : ascii) (s : string) : string :=
  string_of_list_ascii (replicate (targetLength - String.length s) pad) +:+ s.

(** [arr.join('')] *)
Definition join_empty (arr : list string) : string := String.concat "" arr.

Definition generateContentHash (content : bytes) : string :=
  let buffer := Uint8Array_set (Uint8Array_new (length content)) content 0 in
  let hashArray := subtle_digest_sha256 buffer in
  join_empty (map (fun b => padStart 2 "0" (Number_toString16 (byte_val b))) hashArray).

End WithPrimitives.
End Encrypt.

(** ** dashboard/recovery/page.tsx: the owner signature of [handleAddRole] *)

Module Recovery.
Import NaclUtil.
Section WithPrimitives.
Context {P : Primitives}.

Inductive RoleType : Type := primary_owner | beneficiary | verifier | guardian.

Definition RoleType_string (r : RoleType) : string :=
  match r with
  | primary_owner => "primary_owner"
  | beneficiary => "beneficiary"
  | verifier => "verifier"
  | guardian => "guardian"
  end.

Record RecoveryRoleCreate : Type := {
  target_id : string;
  role_type : RoleType;
  owner_signature : string
}.

(** The string template [role:${roleType}:target:${target}:time:${timestamp}]. *)
Definition role_payload (roleType : RoleType) (target timestamp : string) : string :=
  "role:" +:+ RoleType_string roleType +:+ ":target:" +:+ target +:+ ":time:" +:+ timestamp.

(** Lines 100-116 of [handleAddRole]: the request sent to
    [api.recovery.createRole], from the chosen role type, the account id
    returned by [api.accounts.getByDid] and [new Date().toISOString()]. *)
Definition handleAddRole_request (newRoleType : RoleType) (account_id timestamp : string)
  : RecoveryRoleCreate :=
  let signatureData := role_payload newRoleType account_id timestamp in
  let data := TextEncoder_encode signatureData in
  let hashArray := subtle_digest_sha256 data in
  let ownerSignature := btoa (String_fromCharCode hashArray) in
  {| target_id := account_id;
     role_type := newRoleType;
     owner_signature := ownerSignature |}.

End WithPrimitives.
End Recovery.

(** ** keys.ts: key derivation and key pairs *)

Module Keys.
Import NaclUtil.
Section WithPrimitives.
Context {P : Primitives} {B : BoxPrimitives} {W : WebCrypto}.

Definition DEFAULT_ITERATIONS : Z := 100000.
Definition DEFAULT_HASH_LEN : nat := 32.
Definition DEFAULT_SALT_LEN : nat := 16.

(** The optional fields of [KeyDerivationParams]; lengths are natural
    numbers. *)
Record KeyDerivationParams : Type := {
  iterations : option Z;
  hashLen : option nat;
  saltLen : option nat
}.

(** [{}] *)
Definition no_params : KeyDerivationParams :=
  {| iterations := None; hashLen := None; saltLen := None |}.

(** [generateSalt(length = DEFAULT_SALT_LEN)] *)
Definition generateSalt (length : option nat) (g : rng) : bytes * rng :=
  nacl.randomBytes (default DEFAULT_SALT_LEN length) g.

Definition LF : string := String "010" EmptyString.

Definition checkWebCryptoAvailable : result unit :=
  if negb subtle_present then
    Throw (Error ("Web Crypto API is not available. This requires:" +:+ LF +:+
                  "1. A secure context (HTTPS or localhost)" +:+ LF +:+
                  "2. A modern browser with Web Crypto API support" +:+ LF +:+
                  "3. If on mobile, ensure you are using HTTPS or localhost"))
  else Ok tt.

Definition deriveKey (secret : string) (salt : bytes) (params : KeyDerivationParams)
  : result bytes :=
  _ ← checkWebCryptoAvailable;
  let iterations := default DEFAULT_ITERATIONS (iterations params) in
  let hashLen := default DEFAULT_HASH_LEN (hashLen params) in
  let secretBytes := TextEncoder_encode secret in
  match
    passwordKey ← subtle_importKey secretBytes;
    let saltBuffer := Uint8Array_set (Uint8Array_new (length salt)) salt 0 in
    subtle_deriveBits saltBuffer iterations passwordKey (hashLen * 8)
  with
  | Returned derivedBits => Ok derivedBits
  | ThrewError error =>
      if includes (exn_message error) "importKey" || includes (exn_message error) "deriveBits"
      then Throw (Error ("Web Crypto API error: " +:+ exn_message error +:+ ". " +:+
                         "Please ensure you are using HTTPS or localhost."))
      else Throw error
  | ThrewValue => Throw (Error "Unknown error during key derivation")
  end.

(** [params.saltLen || DEFAULT_SALT_LEN]: an absent length and the length 0
    both give the default. *)
Definition deriveKeyWithNewSalt (secret : string) (params : KeyDerivationParams) (g : rng)
  : result (bytes * bytes) * rng :=
  let saltLength :=
    match saltLen params with
    | Some n => if (n =? 0)%nat then DEFAULT_SALT_LEN else n
    | None => DEFAULT_SALT_LEN
    end in
  let '(salt, g) := generateSalt (Some saltLength) g in
  (key ← deriveKey secret salt params; Ok (key, salt), g).

(** [deriveEncryptionKey(masterSecret, salt, context = 'encryption')] *)
Definition deriveEncryptionKey (masterSecret : string) (salt : bytes)
    (context : option string) : result bytes :=
  let combined := masterSecret +:+ default "encryption" context in
  deriveKey combined salt {| iterations := None; hashLen := Some 32; saltLen := None |}.

(** A pair [{ publicKey, secretKey }]. *)
Record KeyPair : Type := {
  publicKey : bytes;
  secretKey : bytes
}.

Definition generateKeyPair (g : rng) : KeyPair * rng :=
  let '((pk, sk), g) := nacl.sign_keyPair g in
  ({| publicKey := pk; secretKey := sk |}, g).

Definition generateBoxKeyPair (g : rng) : KeyPair * rng :=
  let '((pk, sk), g) := nacl.box_keyPair g in
  ({| publicKey := pk; secretKey := sk |}, g).

(** [{ secretKeyB64, publicKeyB64 }], in this order. *)
Definition keypairToBase64 (secretKey publicKey : bytes) : string * string :=
  (encodeBase64 secretKey, encodeBase64 publicKey).

(** [{ secretKey, publicKey }], in this order; the secret key is decoded
    first. *)
Definition keypairFromBase64 (secretKeyB64 publicKeyB64 : string)
  : result (bytes * bytes) :=
  secretKey ← decodeBase64 secretKeyB64;
  publicKey ← decodeBase64 publicKeyB64;
  Ok (secretKey, publicKey).

End WithPrimitives.
End Keys.

(** ** api/types.ts: the response types the stores hold *)

Module ApiTypes.

(** A value of type [unknown] that came out of JSON; the numbers that occur
    are integers. *)
#[warnings="-register-all"]
Inductive json : Type :=
  | JNull
  | JBool (b : bool)
  | JNumber (n : Z)
  | JString (s : string)
  | JArray (items : list json)
  | JObject (fields : list (string * json)).

Inductive AccountStatus : Type := active | watch | suspended | in_succession.

Inductive DocumentType : Type :=
  | passport | nib | voter | insurance | will | property | contract | medical
  | education | other.

Record RecoveryGraph : Type := {
  beneficiaries : list string;
  verifiers : list string;
  guardians : list string
}.

Record CitizenResponse : Type := {
  account_id : string;
  did : string;
  status : AccountStatus;
  recovery_graph : option RecoveryGraph;
  vault_index : option (list (string * json));
  created_at : string;
  last_heartbeat : string
}.

Record DocumentResponse : Type := {
  doc_id : string;
  owner_id : string;
  doc_type : DocumentType;
  display_name_encrypted : option string;
  ciphertext_ref : string;
  encryption_meta : Encrypt.VaultEncryptionMeta;
  content_hash : option string;
  file_meta : option (list (string * json));
  doc_created_at : string;
  updated_at : string;
  expires_at : option string;
  attestation_count : Z
}.

End ApiTypes.

(** ** store.ts: the Zustand stores

    A store is its state record; an action is the function from the state
    before to the state after.  [set] merges the fields an action names into
    the state and leaves the others as they are. *)

Module Store.
Import ApiTypes.

Record AccountState : Type := {
  account : option CitizenResponse;
  accountId : option string;
  encryptedSecretKey : option string;
  publicKey : option string
}.

Definition account_initial : AccountState :=
  {| account := None; accountId := None; encryptedSecretKey := None; publicKey := None |}.

Definition setAccount (a : CitizenResponse) (state : AccountState) : AccountState :=
  {| account := Some a;
     accountId := Some (account_id a);
     encryptedSecretKey := encryptedSecretKey state;
     publicKey := publicKey state |}.

Definition setKeys (pk esk : string) (state : AccountState) : AccountState :=
  {| account := account state;
     accountId := accountId state;
     encryptedSecretKey := Some esk;
     publicKey := Some pk |}.

Definition logout (state : AccountState) : AccountState :=
  {| account := None;
     accountId := accountId state;
     encryptedSecretKey := encryptedSecretKey state;
     publicKey := publicKey state |}.

(** What [partialize] hands to the [persist] middleware for localStorage. *)
Record AccountPersisted : Type := {
  persisted_accountId : option string;
  persisted_encryptedSecretKey : option string;
  persisted_publicKey : option string
}.

Definition partialize (state : AccountState) : AccountPersisted :=
  {| persisted_accountId := accountId state;
     persisted_encryptedSecretKey := encryptedSecretKey state;
     persisted_publicKey := publicKey state |}.

(** The actions of the account store. *)
Inductive AccountAction : Type :=
  | SetAccount (a : CitizenResponse)
  | SetKeys (pk esk : string)
  | Logout.

Definition account_step (state : AccountState) (action : AccountAction) : AccountState :=
  match action with
  | SetAccount a => setAccount a state
  | SetKeys pk esk => setKeys pk esk state
  | Logout => logout state
  end.

Record VaultState : Type := {
  documents : list DocumentResponse;
  isLoading : bool
}.

Definition vault_initial : VaultState := {| documents := []; isLoading := false |}.

Definition setDocuments (docs : list DocumentResponse) (state : VaultState) : VaultState :=
  {| documents := docs; isLoading := isLoading state |}.

Definition addDocument (document : DocumentResponse) (state : VaultState) : VaultState :=
  {| documents := document :: documents state; isLoading := isLoading state |}.

(** [state.documents.filter((d) => d.doc_id !== docId)] *)
Definition removeDocument (docId : string) (state : VaultState) : VaultState :=
  {| documents := List.filter (fun d => negb (String.eqb (doc_id d) docId)) (documents state);
     isLoading := isLoading state |}.

Definition setLoading (loading : bool) (state : VaultState) : VaultState :=
  {| documents := documents state; isLoading := loading |}.

Definition clearVault (state : VaultState) : VaultState :=
  {| documents := []; isLoading := false |}.

End Store.

(** ** api/client.ts: the error [request] throws *)

Module ApiClient.
Local Open Scope Z_scope.

(** [String(n)] for a Number that is a non-negative integer: the decimal
    digits, most significant first ([Base58.encode_fuel] bounds the turns). *)
Definition DECIMAL_DIGITS : string := "0123456789".

Fixpoint decimal_loop (fuel : nat) (num : Z) (digits : list ascii) : list ascii :=
  match fuel with
  | O => digits
  | S fuel' =>
      if 0 <? num
      then decimal_loop fuel' (Z.quot num 10) (char_at DECIMAL_DIGITS (Z.rem num 10) :: digits)
      else digits
  end.

Definition Number_toString (num : Z) : string :=
  if num =? 0 then "0"
  else string_of_list_ascii (decimal_loop (Base58.encode_fuel num) num []).

(** A value that a [catch] clause of a page receives. *)
Inductive thrown : Type :=
  (** an [Error] that is not an [ApiClientError] *)
  | ThrownError (e : exn)
  (** [new ApiClientError(message, status, detail)] *)
  | ThrownApiClientError (message : string) (status : Z) (detail : option string)
  (** an object that is no [Error], with the text of its [detail] property
      when it has one *)
  | ThrownObject (detail : option string)
  (** any other value *)
  | ThrownOther.

(** [error instanceof Error]: [ApiClientError] extends [Error]. *)
Definition instanceof_Error (error : thrown) : bool :=
  match error with
  | ThrownError _ | ThrownApiClientError _ _ _ => true
  | _ => false
  end.

Definition instanceof_ApiClientError (error : thrown) : bool :=
  match error with
  | ThrownApiClientError _ _ _ => true
  | _ => false
  end.

(** [error.message] of an [Error]. *)
Definition thrown_message (error : thrown) : string :=
  match error with
  | ThrownError e => exn_message e
  | ThrownApiClientError message _ _ => message
  | _ => ""
  end.

(** The part of a [Response] that [request] reads when [response.ok] is
    false: the status, the status text, and what
    [(await response.json()).detail] evaluates to (the detail, [undefined],
    or an exception when the body is not JSON). *)
Record Response : Type := {
  response_status : Z;
  response_statusText : string;
  response_detail : outcome (option string)
}.

(** The exception of [request] for a response that is not ok. *)
Definition request_error (response : Response) : thrown :=
  let detail :=
    match response_detail response with
    | Returned detail => detail
    | _ => Some (response_statusText response)
    end in
  ThrownApiClientError
    ("API request failed: " +:+ Number_toString (response_status response))
    (response_status response) detail.

End ApiClient.

(** ** The account creation page and the login page: the key handling of
       the two passphrase flows *)

Module Pages.
Import NaclUtil ApiClient.
Section WithPrimitives.
Context {P : Primitives} {W : WebCrypto}.

(** What [handleCreateAccount] keeps of the encrypted signing key: the JSON
    text it stores, by its four string fields. *)
Record StoredKey : Type := {
  stored_ciphertext : string;
  stored_nonce : string;
  stored_scheme : string;
  stored_salt : string
}.

Record CreatedKeys : Type := {
  created_did : string;
  (** [owner_pubkey] of the request to [api.accounts.create], also the
      [publicKey] of the store *)
  created_publicKeyB64 : string;
  (** [encryptedSecretKey] of the store *)
  created_encryptedKeyWithSalt : StoredKey
}.

(** How far [handleCreateAccount] gets before the request: the toast of one
    of its two early returns, or what steps 1 to 4 made or threw. *)
Inductive Creation : Type :=
  | CreationToast (message : string)
  | CreationKeys (keys : result CreatedKeys).

(** [handleCreateAccount] up to the request: the two checks of the
    passphrase, each with its toast and [return], then steps 1 to 4 inside
    the [try].  [passphrase.length] is the number of code units. *)
Definition createAccount_keys (passphrase confirmPassphrase : string) (g : rng)
  : Creation * rng :=
  if negb (String.eqb passphrase confirmPassphrase) then
    (CreationToast "Passphrases do not match", g)
  else if (String.length passphrase <? 12)%nat then
    (CreationToast "Passphrase must be at least 12 characters", g)
  else
    let '(generated, g) := Did.generateDid g in
    match generated with
    | Throw e => (CreationKeys (Throw e), g)
    | Ok generated =>
        let '(derived, g) := Keys.deriveKeyWithNewSalt passphrase Keys.no_params g in
        match derived with
        | Throw e => (CreationKeys (Throw e), g)
        | Ok (encryptionKey, salt) =>
            let '(encryptedKey, g) :=
              Encrypt.encryptSymmetric (Did.gd_signingKey generated) encryptionKey None g in
            (CreationKeys
               (encryptedKey ← encryptedKey;
                Ok {| created_did := Did.gd_did generated;
                      created_publicKeyB64 := encodeBase64 (Did.gd_verifyKey generated);
                      created_encryptedKeyWithSalt :=
                        {| stored_ciphertext := Encrypt.ciphertext encryptedKey;
                           stored_nonce := Encrypt.nonce encryptedKey;
                           stored_scheme := Encrypt.scheme encryptedKey;
                           stored_salt := encodeBase64 salt |} |}),
             g)
        end
    end.

(** The message [handleCreateAccount] shows for what it caught. *)
Definition createAccount_errorMessage (error : thrown) : string :=
  if instanceof_Error error then
    let message := thrown_message error in
    if includes message "Invalid public key"
    then "Invalid public key format. Please try again."
    else if includes message "already exists"
    then "An account with this public key already exists."
    else if includes message "network" || includes message "fetch"
    then "Network error. Please check your connection and try again."
    else "Error: " +:+ message
  else if instanceof_ApiClientError error then
    match error with
    | ThrownApiClientError message _ (Some detail) =>
        if String.eqb detail "" then message else detail
    | _ => thrown_message error
    end
  else
    match error with
    | ThrownObject (Some detail) => "Error: " +:+ detail
    | _ => "Failed to create account. Please try again."
    end.

(** How far [handlePassphraseLogin] gets with the stored key: the toast of
    the failure, or the decrypted signing key. *)
Inductive Unlock : Type :=
  | UnlockToast (message : string)
  | Unlocked (signingKey : bytes).

Definition login_unlock (stored : StoredKey) (passphrase : string) : Unlock :=
  match decodeBase64 (stored_salt stored) with
  | Throw _ => UnlockToast "Login failed. Please try again."
  | Ok salt =>
      let encryptedPayload :=
        {| Encrypt.ciphertext := stored_ciphertext stored;
           Encrypt.nonce := stored_nonce stored;
           Encrypt.scheme := stored_scheme stored;
           Encrypt.keyWrap := None |} in
      match Keys.deriveKey passphrase salt Keys.no_params with
      | Throw error =>
          if includes (exn_message error) "Web Crypto API"
          then UnlockToast ("Your browser does not support required security features. " +:+
                            "Please use a modern browser or ensure you are on HTTPS.")
          else UnlockToast "Failed to derive encryption key. Please try again."
      | Ok encryptionKey =>
          match Encrypt.decryptSymmetric encryptedPayload encryptionKey with
          | Throw (DecryptionError _) => UnlockToast "Incorrect passphrase"
          | Throw _ => UnlockToast "Failed to decrypt account. Please try again."
          | Ok signingKey => Unlocked signingKey
          end
      end
  end.

End WithPrimitives.
End Pages.

(** ** A reference implementation of the primitives

    A small, insecure implementation with the same shapes as the real
    cores (16 bytes of overhead, 64-byte signatures, 32-byte digests); it
    satisfies [PrimitivesLaws] and makes the functions above executable on
    concrete inputs. *)

Module Reference.

Definition zeros (n : nat) : bytes := replicate n x00.

(** The box of a message is a 16-byte tag cut from key and nonce, then the
    message. *)
Definition ref_tag (n k : bytes) : bytes := take 16 (k ++ n ++ zeros 16).

Definition ref_secretbox (m n k : bytes) : bytes := ref_tag n k ++ m.

Definition ref_secretbox_open (c n k : bytes) : option bytes :=
  if bool_decide (take 16 c = ref_tag n k) then Some (drop 16 c) else None.

Definition ref_sign_public (seed : bytes) : bytes := take 32 (seed ++ zeros 32).

Definition ref_signature (sk : bytes) : bytes :=
  take 64 (drop 32 sk ++ zeros 64).

Definition ref_sign (m sk : bytes) : bytes := ref_signature sk ++ m.

Definition ref_sign_open (sm pk : bytes) : option bytes :=
  if bool_decide (take 64 sm = take 64 (pk ++ zeros 64)) then Some (drop 64 sm) else None.

Definition ref_sha256 (m : bytes) : bytes := take 32 (m ++ zeros 32).

Definition primitives : Primitives := {|
  crypto_secretbox := ref_secretbox;
  crypto_secretbox_open := ref_secretbox_open;
  crypto_sign_public := ref_sign_public;
  crypto_sign := ref_sign;
  crypto_sign_open := ref_sign_open;
  subtle_digest_sha256 := ref_sha256
|}.

(** The same primitives with an opening that checks nothing: whatever the
    key, a signed message opens to what follows its first 64 bytes.  They
    satisfy [PrimitivesLaws] as well. *)
Definition permissive_primitives : Primitives := {|
  crypto_secretbox := ref_secretbox;
  crypto_secretbox_open := ref_secretbox_open;
  crypto_sign_public := ref_sign_public;
  crypto_sign := ref_sign;
  crypto_sign_open := fun sm _ => Some (drop 64 sm);
  subtle_digest_sha256 := ref_sha256
|}.

(** A tape that counts 0, 1, 2, ... (modulo 256). *)
Definition counting_tape : rng := fun i => byte_of_Z (Z.of_nat i).

Definition key_a : bytes := replicate 32 x0a.
Definition key_b : bytes := replicate 32 x0b.

(** Metadata whose wrapped key is empty; the wrap nonce is 24 zero bytes. *)
Definition empty_wrap_meta : Encrypt.VaultEncryptionMeta :=
  {| Encrypt.vm_scheme := "XSalsa20-Poly1305";
     Encrypt.vm_nonce := "";
     Encrypt.key_wrap :=
       {| Encrypt.algorithm := "XSalsa20-Poly1305";
          Encrypt.wrapped_key := "";
          Encrypt.wrap_nonce := "AAAAAAAAAAAAAAAAAAAAAAAAAAAAAAAA" |} |}.

(** A key that differs from [key_a] in its last byte only. *)
Definition key_c : bytes := replicate 31 x0a ++ [x0b].

(** The envelope [encryptForVault] makes of two bytes under [key_a] on the
    counting tape. *)
Definition sample_blob : bytes :=
  Eval vm_compute in
    match (@Encrypt.encryptForVault primitives [x01; x02] key_a counting_tape).1 with
    | Ok (blob, _) => blob
    | Throw _ => []
    end.

Definition sample_meta : Encrypt.VaultEncryptionMeta :=
  Eval vm_compute in
    match (@Encrypt.encryptForVault primitives [x01; x02] key_a counting_tape).1 with
    | Ok (_, meta) => meta
    | Throw _ => empty_wrap_meta
    end.

(** [sample_blob] with its first byte overwritten. *)
Definition corrupted_blob : bytes := <[0 := xff]> sample_blob.

(** A payload whose ciphertext is not base64. *)
Definition malformed_payload : Encrypt.EncryptedPayload :=
  {| Encrypt.ciphertext := "not base64!";
     Encrypt.nonce := "";
     Encrypt.scheme := "XSalsa20-Poly1305";
     Encrypt.keyWrap := None |}.

(** The public key of a secret key is the key itself, cut or padded to 32
    bytes; the shared key is the byte-wise exclusive or of the two keys. *)
Definition ref_scalarmult_base (sk : bytes) : bytes := take 32 (sk ++ zeros 32).

Definition xor_byte (a b : byte) : byte := byte_of_Z (Z.lxor (byte_val a) (byte_val b)).

Definition ref_beforenm (pk sk : bytes) : bytes :=
  take 32 (zip_with xor_byte pk sk ++ zeros 32).

Definition box_primitives : BoxPrimitives := {|
  crypto_scalarmult_base := ref_scalarmult_base;
  crypto_box_beforenm := ref_beforenm
|}.

(** Derived bits are cut from key material, salt and zeros; the number of
    iterations is not used. *)
Definition ref_deriveBits (salt : bytes) (iterations : Z) (key : bytes) (n : nat)
  : outcome bytes :=
  Returned (take (n / 8) (key ++ salt ++ zeros (n / 8))).

Definition web_crypto : WebCrypto := {|
  CryptoKey := bytes;
  subtle_present := true;
  subtle_importKey := fun keyData => Returned keyData;
  subtle_deriveBits := ref_deriveBits
|}.

(** An account as the backend returns it. *)
Definition sample_account : ApiTypes.CitizenResponse :=
  {| ApiTypes.account_id := "acct-1";
     ApiTypes.did := "did:key:z6Mk";
     ApiTypes.status := ApiTypes.active;
     ApiTypes.recovery_graph := None;
     ApiTypes.vault_index := None;
     ApiTypes.created_at := "2024-01-01T00:00:00.000Z";
     ApiTypes.last_heartbeat := "2024-01-01T00:00:00.000Z" |}.

(** A platform without the Web Crypto API. *)
Definition no_web_crypto : WebCrypto := {|
  CryptoKey := bytes;
  subtle_present := false;
  subtle_importKey := fun _ => ThrewValue;
  subtle_deriveBits := fun _ _ _ _ => ThrewValue
|}.

End Reference.

(** ** Notions used in the statements *)

(** The number of zero bytes at the front of a byte sequence. *)
Fixpoint leading_zero_bytes (data : bytes) : nat :=
  match data with
  | b :: data' => if (byte_val b =? 0)%Z then S (leading_zero_bytes data') else O
  | [] => O
  end.

(** The error names of the specification, as the exceptions [didToPublicKey]
    throws for them. *)
Definition InvalidDidFormat : exn :=
  Error "Invalid did:key format - must start with 'did:key:z'".
Definition InvalidMulticodecPrefix : exn :=
  Error "Invalid multicodec prefix - expected Ed25519".
Definition InvalidKeyLength : exn := Error "Invalid public key length".
(** The exception [base58Decode] throws at a character outside the alphabet;
    the specification has no name for it. *)
Definition InvalidBase58Character (c : ascii) : exn :=
  Error ("Invalid base58 character: " +:+ String c EmptyString).

(** A character that is not in the base58 alphabet. *)
Definition not_base58 (c : ascii) : bool :=
  (indexOf Base58.BASE58_ALPHABET c =? -1)%Z.

(** Every byte, and every byte sequence of at most [n] bytes. *)
Definition all_bytes : list byte := (fun i => byte_of_Z (Z.of_nat i)) <$> seq 0 256.

Fixpoint words (n : nat) : list bytes :=
  match n with
  | O => [[]]
  | S n' => [] :: (all_bytes ≫= fun b => cons b <$> words n')
  end.

(** A byte sequence of at most 63 bytes written into 64 bytes: its length,
    the sequence, and zeros up to the end. *)
Definition framed (m : bytes) : bytes :=
  byte_of_Z (Z.of_nat (length m)) :: m ++ replicate (63 - length m) x00.

(** The first and third parts of the signature property for one key pair, on the
    messages of at most [n] bytes: the signature of every such message
    verifies with it, and with no other such message. *)
Definition tamper_evident (P : Primitives) (sk pk : bytes) (n : nat) : Prop :=
  forall m : bytes, length m <= n -> exists s,
    Did.signMessage m sk = Ok s /\
    Did.verifySignature m s pk = Ok true /\
    forall m', length m' <= n -> m' <> m -> Did.verifySignature m' s pk = Ok false.

(** Byte [i] of a number, counted from the least significant one. *)
Definition byte_at (num : Z) (i : nat) : byte :=
  byte_of_Z (Z.land (Z.shiftr num (Z.of_nat i * 8)) 255).

(** The value of a digit string, as the first loop of [base58Decode]
    accumulates it. *)
Definition digits_value (chars : list ascii) : Z :=
  fold_left (fun num c => num * 58 + indexOf Base58.BASE58_ALPHABET c)%Z chars 0%Z.

(** The two characters [generateContentHash] writes for a byte. *)
Definition hex_byte (b : byte) : string :=
  Encrypt.padStart 2 "0" (Encrypt.Number_toString16 (byte_val b)).

(** * Properties *)

(** Linear arithmetic with division and remainder by constants. *)
Ltac div_lia := Z.to_euclidean_division_equations; lia.

(** Membership in a list that is written out. *)
Ltac in_list := repeat first [apply list_elem_of_here | apply list_elem_of_further].

Lemma bind_Ok {A B} (a : A) (f : A -> result B) : Ok a ≫= f = f a.
Proof. reflexivity. Qed.

(** ** Bytes *)

Lemma byte_val_range (b : byte) : (0 <= byte_val b < 256)%Z.
Proof.
  unfold byte_val. pose proof (Byte.to_N_bounded b). lia.
Qed.

Lemma byte_of_Z_val (b : byte) : byte_of_Z (byte_val b) = b.
Proof.
  unfold byte_of_Z. pose proof (byte_val_range b) as Hb.
  rewrite Z.mod_small by lia. unfold byte_val.
  rewrite N2Z.id, Byte.of_to_N. reflexivity.
Qed.

Lemma byte_val_of_Z (z : Z) : (0 <= z < 256)%Z -> byte_val (byte_of_Z z) = z.
Proof.
  intros Hz. unfold byte_of_Z, byte_val. rewrite Z.mod_small by lia.
  destruct (Byte.of_N (Z.to_N z)) as [b|] eqn:Hb.
  - apply Byte.to_of_N in Hb. lia.
  - apply Byte.of_N_None_iff in Hb. lia.
Qed.

Lemma byte_val_zero (b : byte) : byte_val b = 0%Z -> b = x00.
Proof.
  intros Hb. rewrite <- (byte_of_Z_val b), Hb. reflexivity.
Qed.

(** Characters of an alphabet are found again at their own position. *)
Lemma indexOf_char_at_below (s : string) (n : nat) :
  (forall i : nat, (i < n)%nat -> indexOf s (char_at s (Z.of_nat i)) = Z.of_nat i) ->
  forall d : Z, (0 <= d < Z.of_nat n)%Z -> indexOf s (char_at s d) = d.
Proof.
  intros H d Hd. rewrite <- (Z2Nat.id d) by lia. apply H. lia.
Qed.

(** ** base58 *)

Module Base58Facts.
Import Base58.
Local Open Scope Z_scope.

Lemma alphabet_index (d : Z) :
  0 <= d < 58 -> indexOf BASE58_ALPHABET (char_at BASE58_ALPHABET d) = d.
Proof.
  apply (indexOf_char_at_below BASE58_ALPHABET 58).
  intros i Hi. do 58 (destruct i as [|i]; [reflexivity|]). lia.
Qed.

Lemma alphabet_zero_only (d : Z) :
  0 <= d < 58 -> char_at BASE58_ALPHABET d = char_at BASE58_ALPHABET 0 -> d = 0.
Proof.
  intros Hd Heq. rewrite <- (alphabet_index d Hd), Heq. reflexivity.
Qed.

Lemma encode_loop_acc (fuel : nat) (num : Z) (acc : list ascii) :
  encode_loop fuel num acc = acc ++ encode_loop fuel num [].
Proof.
  revert num acc. induction fuel as [|fuel IH]; intros num acc; simpl.
  - by rewrite app_nil_r.
  - destruct (0 <? num); [|by rewrite app_nil_r].
    rewrite IH, (IH _ [_]). by rewrite app_assoc.
Qed.

Lemma encode_loop_step (fuel : nat) (num : Z) :
  0 < num ->
  encode_loop (S fuel) num [] =
    char_at BASE58_ALPHABET (num mod 58) :: encode_loop fuel (num / 58) [].
Proof.
  intros Hnum. simpl. destruct (Z.ltb_spec 0 num) as [_|]; [|lia].
  rewrite Z.rem_mod_nonneg, Z.quot_div_nonneg by lia.
  by rewrite encode_loop_acc.
Qed.

Lemma encode_loop_zero (fuel : nat) : encode_loop fuel 0 [] = [].
Proof. by destruct fuel. Qed.

Lemma decode_loop_app (l1 l2 : list ascii) (num : Z) :
  decode_loop (l1 ++ l2) num = decode_loop l1 num ≫= decode_loop l2.
Proof.
  revert num. induction l1 as [|c l1 IH]; intros num; simpl; [done|].
  destruct (_ =? -1); [done|]. apply IH.
Qed.

Lemma decode_loop_digit (d num : Z) :
  0 <= d < 58 ->
  decode_loop [char_at BASE58_ALPHABET d] num = Ok (num * 58 + d).
Proof.
  intros Hd. simpl. rewrite alphabet_index by done.
  destruct (Z.eqb_spec d (-1)); [lia|done].
Qed.

(** Decoding the digits pushed by the encoding loop, most significant
    first, gives the number back. *)
Lemma decode_encode_loop (fuel : nat) (num : Z) :
  0 <= num < 2 ^ Z.of_nat fuel ->
  decode_loop (rev (encode_loop fuel num [])) 0 = Ok num.
Proof.
  revert num. induction fuel as [|fuel IH]; intros num Hnum.
  - simpl in *. f_equal. lia.
  - destruct (Z.eq_dec num 0) as [->|Hnz]; [by rewrite encode_loop_zero|].
    rewrite encode_loop_step by lia. simpl rev.
    rewrite decode_loop_app, IH.
    + rewrite bind_Ok.
      rewrite decode_loop_digit by (apply Z.mod_pos_bound; lia).
      f_equal. pose proof (Z.div_mod num 58). lia.
    + rewrite Nat2Z.inj_succ, Z.pow_succ_r in Hnum by lia.
      split; [apply Z.div_pos; lia|].
      apply Z.div_lt_upper_bound; lia.
Qed.

Lemma encode_fuel_enough (num : Z) :
  0 < num -> 0 <= num < 2 ^ Z.of_nat (encode_fuel num).
Proof.
  intros Hnum. unfold encode_fuel.
  pose proof (Z.log2_spec num Hnum) as [_ Hlt].
  pose proof (Z.log2_nonneg num).
  rewrite Nat2Z.inj_succ, Z2Nat.id by lia. lia.
Qed.

(** The encoding loop stops exactly when the number is used up: more fuel
    than [encode_fuel] changes nothing. *)
Lemma encode_loop_fuel (fuel : nat) (num : Z) :
  0 <= num < 2 ^ Z.of_nat fuel ->
  forall extra : nat, encode_loop (fuel + extra) num [] = encode_loop fuel num [].
Proof.
  revert num. induction fuel as [|fuel IH]; intros num Hnum extra.
  - simpl in Hnum. assert (num = 0) as -> by lia. by rewrite !encode_loop_zero.
  - destruct (Z.eq_dec num 0) as [->|Hnz]; [by rewrite !encode_loop_zero|].
    change (S fuel + extra)%nat with (S (fuel + extra)).
    rewrite !encode_loop_step by lia. f_equal. apply IH.
    rewrite Nat2Z.inj_succ, Z.pow_succ_r in Hnum by lia.
    split; [apply Z.div_pos; lia|]. apply Z.div_lt_upper_bound; lia.
Qed.

(** The most significant digit is not the alphabet's zero. *)
Lemma encode_loop_leading (fuel : nat) (num : Z) :
  0 < num < 2 ^ Z.of_nat fuel ->
  count_leading_ones (rev (encode_loop fuel num [])) = 0%nat /\
  encode_loop fuel num [] <> [].
Proof.
  revert num. induction fuel as [|fuel IH]; intros num Hnum.
  - simpl in Hnum. lia.
  - rewrite encode_loop_step by lia. split; [|done]. simpl rev.
    assert (0 <= num / 58 < 2 ^ Z.of_nat fuel) as Hq.
    { rewrite Nat2Z.inj_succ, Z.pow_succ_r in Hnum by lia.
      split; [apply Z.div_pos; lia|]. apply Z.div_lt_upper_bound; lia. }
    destruct (Z.eq_dec (num / 58) 0) as [Hz|Hnz].
    + rewrite Hz, encode_loop_zero. simpl.
      destruct (Ascii.eqb_spec (char_at BASE58_ALPHABET (num mod 58))
                  (char_at BASE58_ALPHABET 0)) as [Heq|]; [|done].
      apply alphabet_zero_only in Heq; [|apply Z.mod_pos_bound; lia].
      pose proof (Z.div_mod num 58). lia.
    + destruct (IH (num / 58)) as [Hc Hne]; [lia|].
      destruct (rev (encode_loop fuel (num / 58) [])) as [|c cs] eqn:Hrev.
      { apply (f_equal (@rev ascii)) in Hrev. rewrite rev_involutive in Hrev. done. }
      simpl in *. by destruct (Ascii.eqb c _).
Qed.


Lemma push_leading_zeros_spec (data : bytes) (acc : list ascii) :
  push_leading_zeros data acc =
    acc ++ replicate (leading_zero_bytes data) (char_at BASE58_ALPHABET 0).
Proof.
  revert acc. induction data as [|b data IH]; intros acc; simpl.
  - by rewrite app_nil_r.
  - destruct (byte_val b =? 0); [|by rewrite app_nil_r].
    rewrite IH. simpl. by rewrite <- app_assoc.
Qed.

Lemma leading_zero_bytes_split (data : bytes) :
  data = replicate (leading_zero_bytes data) x00 ++ drop (leading_zero_bytes data) data.
Proof.
  induction data as [|b data IH]; simpl; [done|].
  destruct (Z.eqb_spec (byte_val b) 0) as [Hb|]; [|done].
  simpl. rewrite <- IH. by rewrite (byte_val_zero b Hb).
Qed.

Lemma leading_zero_bytes_head (data : bytes) (b : byte) (rest : bytes) :
  drop (leading_zero_bytes data) data = b :: rest -> byte_val b <> 0.
Proof.
  induction data as [|a data IH]; simpl; [done|].
  destruct (Z.eqb_spec (byte_val a) 0) as [Ha|Ha]; simpl.
  - apply IH.
  - intros [= <- _]. done.
Qed.

Lemma bigint_from (data : bytes) (init : Z) :
  fold_left (fun num b => num * 256 + byte_val b) data init =
    init * 256 ^ Z.of_nat (length data) + bigint_of_bytes data.
Proof.
  unfold bigint_of_bytes. revert init.
  induction data as [|b data IH]; intros init.
  - simpl. lia.
  - cbn [fold_left length]. rewrite IH, (IH (0 * 256 + byte_val b)).
    rewrite Nat2Z.inj_succ, Z.pow_succ_r by lia. lia.
Qed.

Lemma bigint_cons (b : byte) (data : bytes) :
  bigint_of_bytes (b :: data) =
    byte_val b * 256 ^ Z.of_nat (length data) + bigint_of_bytes data.
Proof.
  unfold bigint_of_bytes at 1. cbn [fold_left]. rewrite bigint_from. lia.
Qed.

Lemma bigint_snoc (data : bytes) (b : byte) :
  bigint_of_bytes (data ++ [b]) = bigint_of_bytes data * 256 + byte_val b.
Proof.
  unfold bigint_of_bytes. by rewrite fold_left_app.
Qed.

Lemma bigint_bound (data : bytes) :
  0 <= bigint_of_bytes data < 256 ^ Z.of_nat (length data).
Proof.
  induction data as [|b data IH].
  - unfold bigint_of_bytes. simpl. lia.
  - rewrite bigint_cons. cbn [length].
    rewrite Nat2Z.inj_succ, Z.pow_succ_r by lia.
    pose proof (byte_val_range b). nia.
Qed.

Lemma bigint_leading_zeros (n : nat) (data : bytes) :
  bigint_of_bytes (replicate n x00 ++ data) = bigint_of_bytes data.
Proof.
  induction n as [|n IH]; simpl; [done|].
  rewrite bigint_cons, IH. change (byte_val x00) with 0. lia.
Qed.

Lemma bigint_stripped (data : bytes) :
  bigint_of_bytes (drop (leading_zero_bytes data) data) = bigint_of_bytes data.
Proof.
  rewrite (leading_zero_bytes_split data) at 3. by rewrite bigint_leading_zeros.
Qed.

Lemma bigint_head_bound (b : byte) (data : bytes) :
  byte_val b <> 0 -> 256 ^ Z.of_nat (length data) <= bigint_of_bytes (b :: data).
Proof.
  intros Hb. rewrite bigint_cons.
  pose proof (byte_val_range b). pose proof (bigint_bound data).
  assert (0 < 256 ^ Z.of_nat (length data)) by (apply Z.pow_pos_nonneg; lia).
  nia.
Qed.

Lemma string_of_list_ascii_length (l : list ascii) :
  String.length (string_of_list_ascii l) = length l.
Proof. induction l as [|c l IH]; simpl; [done|]. by rewrite IH. Qed.

Lemma log2_div16 (num : Z) : 16 <= num -> Z.log2 (num / 16) = Z.log2 num - 4.
Proof.
  intros Hnum. pose proof (Z.log2_spec num) as [Hlo Hhi]; [lia|].
  assert (4 <= Z.log2 num) as HL by (apply (Z.log2_le_pow2 num 4); lia).
  apply Z.log2_unique; [lia|].
  replace (Z.log2 num) with (4 + (Z.log2 num - 4)) in Hlo by lia.
  replace (Z.succ (Z.log2 num)) with (4 + (Z.log2 num - 4 + 1)) in Hhi by lia.
  rewrite Z.pow_add_r in Hlo, Hhi by lia. change (2 ^ 4) with 16 in Hlo, Hhi.
  split; [apply Z.div_le_lower_bound; lia|apply Z.div_lt_upper_bound; lia].
Qed.

(** The hexadecimal loop pushes one digit per four bits of the number. *)
Lemma hex_loop_length (fuel : nat) (num : Z) (digits : list ascii) :
  0 < num < 2 ^ Z.of_nat fuel ->
  Z.of_nat (length (hex_loop fuel num digits)) =
    Z.of_nat (length digits) + Z.log2 num / 4 + 1.
Proof.
  revert num digits. induction fuel as [|fuel IH]; intros num digits Hnum.
  - simpl in Hnum. lia.
  - cbn [hex_loop]. destruct (Z.ltb_spec 0 num) as [_|]; [|lia].
    rewrite Z.quot_div_nonneg by lia.
    destruct (Z.lt_ge_cases num 16) as [Hsmall|Hbig].
    + rewrite Z.div_small by lia.
      replace (hex_loop fuel 0 _) with (char_at HEX_DIGITS (Z.rem num 16) :: digits)
        by (by destruct fuel).
      assert (Z.log2 num < 4) by (apply Z.log2_lt_pow2; lia).
      pose proof (Z.log2_nonneg num).
      rewrite (Z.div_small (Z.log2 num)) by lia. cbn [length]. lia.
    + rewrite IH.
      * rewrite log2_div16 by done. cbn [length].
        replace (Z.log2 num) with ((Z.log2 num - 4) + 1 * 4) at 2 by lia.
        rewrite Z.div_add by lia. lia.
      * rewrite Nat2Z.inj_succ, Z.pow_succ_r in Hnum by lia.
        split; [apply Z.div_str_pos; lia|apply Z.div_lt_upper_bound; lia].
Qed.

(** The hexadecimal loop has stopped by itself when its fuel is used up. *)
Lemma hex_loop_fuel (fuel : nat) (num : Z) (digits : list ascii) :
  0 <= num < 2 ^ Z.of_nat fuel ->
  forall extra : nat, hex_loop (fuel + extra) num digits = hex_loop fuel num digits.
Proof.
  revert num digits. induction fuel as [|fuel IH]; intros num digits Hnum extra.
  - simpl in Hnum. assert (num = 0) as -> by lia. by destruct extra.
  - change (S fuel + extra)%nat with (S (fuel + extra)). cbn [hex_loop].
    destruct (Z.ltb_spec 0 num) as [Hpos|]; [|done].
    apply IH. rewrite Z.quot_div_nonneg by lia.
    rewrite Nat2Z.inj_succ, Z.pow_succ_r in Hnum by lia.
    split; [apply Z.div_pos; lia|]. apply Z.div_lt_upper_bound; lia.
Qed.

Lemma bigint_toString16_length (num : Z) :
  0 < num ->
  Z.of_nat (String.length (bigint_toString16 num)) = Z.log2 num / 4 + 1.
Proof.
  intros Hnum. unfold bigint_toString16.
  destruct (Z.eqb_spec num 0) as [|_]; [lia|].
  rewrite string_of_list_ascii_length, hex_loop_length.
  - simpl. lia.
  - pose proof (encode_fuel_enough num Hnum). lia.
Qed.

(** The byte length computed from the hexadecimal string is the number of
    bytes of the number. *)
Lemma byte_length_spec (num : Z) (n : nat) :
  256 ^ Z.of_nat n <= num < 256 ^ Z.of_nat (S n) ->
  ceil_half (String.length (bigint_toString16 num)) = S n.
Proof.
  intros [Hlo Hhi].
  assert (0 < num) as Hpos.
  { assert (0 < 256 ^ Z.of_nat n) by (apply Z.pow_pos_nonneg; lia). lia. }
  change 256 with (2 ^ 8) in Hlo, Hhi.
  rewrite <- Z.pow_mul_r in Hlo, Hhi by lia.
  apply Z.log2_le_pow2 in Hlo; [|done].
  apply Z.log2_lt_pow2 in Hhi; [|done].
  pose proof (bigint_toString16_length num Hpos) as Hhex.
  unfold ceil_half. apply Nat2Z.inj.
  rewrite Nat2Z.inj_div, Nat2Z.inj_add, Hhex.
  generalize dependent (Z.log2 num). intros L Hlo Hhi _.
  rewrite Nat2Z.inj_succ in *. change (Z.of_nat 1) with 1. change (Z.of_nat 2) with 2.
  assert (2 * Z.of_nat n <= L / 4 <= 2 * Z.of_nat n + 1) as Hq.
  { split; [apply Z.div_le_lower_bound; lia|].
    apply Z.lt_succ_r, Z.div_lt_upper_bound; lia. }
  apply Z.le_antisymm.
  - apply Z.lt_succ_r, Z.div_lt_upper_bound; lia.
  - apply Z.div_le_lower_bound; lia.
Qed.

Lemma byte_at_zero (num : Z) (b : byte) :
  byte_at (num * 256 + byte_val b) 0 = b.
Proof.
  unfold byte_at. change (Z.of_nat 0 * 8) with 0. rewrite Z.shiftr_0_r.
  change 255 with (Z.ones 8). rewrite Z.land_ones by lia.
  change (2 ^ 8) with 256.
  pose proof (byte_val_range b).
  replace ((num * 256 + byte_val b) mod 256) with (byte_val b).
  - apply byte_of_Z_val.
  - rewrite Z.add_comm, Z.mod_add by lia. by rewrite Z.mod_small.
Qed.

Lemma byte_at_succ (num : Z) (b : byte) (i : nat) :
  byte_at (num * 256 + byte_val b) (S i) = byte_at num i.
Proof.
  unfold byte_at. f_equal. f_equal.
  rewrite !Z.shiftr_div_pow2 by lia.
  replace (Z.of_nat (S i) * 8) with (8 + Z.of_nat i * 8) by lia.
  rewrite Z.pow_add_r by lia. rewrite <- Z.div_div by (try apply Z.pow_pos_nonneg; lia).
  f_equal. change (2 ^ 8) with 256. pose proof (byte_val_range b).
  rewrite Z.add_comm, Z.div_add by lia. rewrite Z.div_small by lia. lia.
Qed.

(** Reading a number byte by byte, least significant first, gives its
    bytes in reverse. *)
Lemma byte_at_bigint (data : bytes) :
  map (byte_at (bigint_of_bytes data)) (seq 0 (length data)) = rev data.
Proof.
  induction data as [|b data IH] using rev_ind; [done|].
  rewrite length_app, Nat.add_comm. cbn [length Nat.add seq map].
  rewrite rev_unit, bigint_snoc, byte_at_zero. f_equal.
  rewrite <- seq_shift, map_map, <- IH. apply map_ext.
  intros i. apply byte_at_succ.
Qed.

Lemma fill_bytes_prefix (num : Z) (lz n k : nat) :
  (k <= n)%nat ->
  fold_left
    (fun buf i => <[(lz + n - 1 - i)%nat := byte_at num i]> buf)
    (seq 0 k) (replicate (lz + n) x00) =
  replicate (lz + n - k) x00 ++ rev (map (byte_at num) (seq 0 k)).
Proof.
  induction k as [|k IH]; intros Hk.
  - simpl. by rewrite app_nil_r, Nat.sub_0_r.
  - rewrite seq_S, fold_left_app, IH by lia. cbn [fold_left Nat.add].
    rewrite map_app. cbn [map]. rewrite rev_unit.
    rewrite insert_app_l by (rewrite length_replicate; lia).
    rewrite insert_replicate_lt by lia.
    replace (lz + n - k - S (lz + n - 1 - k))%nat with 0%nat by lia.
    replace (lz + n - 1 - k)%nat with (lz + n - S k)%nat by lia.
    simpl. by rewrite <- app_assoc.
Qed.

Lemma fill_bytes_spec (num : Z) (lz n : nat) :
  fill_bytes num lz n (replicate (lz + n) x00) =
    replicate lz x00 ++ rev (map (byte_at num) (seq 0 n)).
Proof.
  pose proof (fill_bytes_prefix num lz n n (le_n n)) as H.
  replace (lz + n - n)%nat with lz in H by lia. exact H.
Qed.

Lemma rev_replicate {A} (n : nat) (x : A) : rev (replicate n x) = replicate n x.
Proof.
  induction n as [|n IH]; [done|].
  simpl. rewrite IH. symmetry. apply replicate_cons_app.
Qed.

Lemma count_leading_ones_replicate (n : nat) (l : list ascii) :
  count_leading_ones (replicate n (char_at BASE58_ALPHABET 0) ++ l) =
    (n + count_leading_ones l)%nat.
Proof.
  induction n as [|n IH]; [done|].
  cbn [replicate app count_leading_ones].
  destruct (Ascii.eqb_spec (char_at BASE58_ALPHABET 0) (char_at BASE58_ALPHABET 0));
    [|done].
  by rewrite IH.
Qed.

Lemma decode_loop_ones (n : nat) :
  decode_loop (replicate n (char_at BASE58_ALPHABET 0)) 0 = Ok 0.
Proof.
  induction n as [|n IH]; [done|].
  change (replicate (S n) (char_at BASE58_ALPHABET 0))
    with ([char_at BASE58_ALPHABET 0] ++ replicate n (char_at BASE58_ALPHABET 0)).
  rewrite decode_loop_app, decode_loop_digit by lia.
  rewrite bind_Ok. exact IH.
Qed.

Lemma string_of_list_ascii_nonempty (l : list ascii) :
  l <> [] -> String.eqb (string_of_list_ascii l) "" = false.
Proof. by destruct l. Qed.

(** What [base58Encode] returns for a sequence that is not all zeros: one
    alphabet-zero character per leading zero byte, then the base-58 digits
    of the number, most significant first. *)
Lemma base58Encode_nonzero (data : bytes) :
  bigint_of_bytes data <> 0 ->
  base58Encode data =
    string_of_list_ascii
      (replicate (leading_zero_bytes data) (char_at BASE58_ALPHABET 0) ++
       rev (encode_loop (encode_fuel (bigint_of_bytes data)) (bigint_of_bytes data) [])).
Proof.
  intros Hnz. unfold base58Encode.
  destruct (Z.eqb_spec (bigint_of_bytes data) 0) as [|_]; [done|].
  by rewrite push_leading_zeros_spec, rev_app_distr, rev_replicate.
Qed.

(** [base58Decode] inverts [base58Encode] on every byte sequence with a
    non-zero byte, leading zero bytes included. *)
Lemma base58_roundtrip_nonzero (data : bytes) :
  bigint_of_bytes data <> 0 ->
  base58Decode (base58Encode data) = Ok data.
Proof.
  intros Hnz. rewrite base58Encode_nonzero by done.
  pose proof (bigint_bound data) as Hb.
  set (num := bigint_of_bytes data) in *.
  assert (0 < num) as Hpos by lia.
  pose proof (encode_fuel_enough num Hpos) as Hfuel.
  destruct (encode_loop_leading (encode_fuel num) num) as [Hlead Hne]; [lia|].
  set (lz := leading_zero_bytes data).
  set (ds := encode_loop (encode_fuel num) num []) in *.
  unfold base58Decode.
  rewrite string_of_list_ascii_nonempty, list_ascii_of_string_of_list_ascii.
  2:{ intros Happ. apply app_eq_nil in Happ as [_ Hrev].
      apply (f_equal (@rev ascii)) in Hrev. rewrite rev_involutive in Hrev. done. }
  rewrite decode_loop_app, decode_loop_ones, bind_Ok.
  assert (decode_loop (rev ds) 0 = Ok num) as -> by (by apply decode_encode_loop).
  rewrite bind_Ok.
  destruct (Z.eqb_spec num 0) as [|_]; [lia|].
  rewrite count_leading_ones_replicate, Hlead, Nat.add_0_r.
  f_equal.
  (* the stripped sequence starts with a non-zero byte *)
  pose proof (leading_zero_bytes_split data) as Hsplit. fold lz in Hsplit.
  pose proof (bigint_stripped data) as Hstrip. fold lz num in Hstrip.
  destruct (drop lz data) as [|b rest] eqn:Hdrop.
  { unfold bigint_of_bytes in Hstrip. simpl in Hstrip. lia. }
  assert (byte_val b <> 0) as Hb0 by (by eapply leading_zero_bytes_head).
  assert (ceil_half (String.length (bigint_toString16 num)) = S (length rest)) as ->.
  { apply byte_length_spec. rewrite <- Hstrip. split.
    - by apply bigint_head_bound.
    - apply (bigint_bound (b :: rest)). }
  rewrite fill_bytes_spec.
  change (S (length rest)) with (length (b :: rest)).
  rewrite <- Hstrip, byte_at_bigint, rev_involutive. by rewrite <- Hsplit.
Qed.

Lemma bigint_zero_all_zero (data : bytes) :
  bigint_of_bytes data = 0 -> data = replicate (length data) x00.
Proof.
  induction data as [|b data IH]; [done|].
  rewrite bigint_cons. intros H.
  pose proof (byte_val_range b). pose proof (bigint_bound data).
  assert (0 < 256 ^ Z.of_nat (length data)) by (apply Z.pow_pos_nonneg; lia).
  assert (byte_val b = 0) as Hb by nia.
  simpl. rewrite <- IH by nia. by rewrite (byte_val_zero b Hb).
Qed.

(** On an all-zero sequence, the empty one included, [base58Encode] returns
    the single character [1], which decodes to one zero byte. *)
Lemma base58_roundtrip_zero (data : bytes) :
  bigint_of_bytes data = 0 ->
  base58Decode (base58Encode data) = Ok [x00].
Proof.
  intros Hz. unfold base58Encode. rewrite Hz. reflexivity.
Qed.

End Base58Facts.

(** ** DIDs *)

Module DidFacts.
Import Base58 Base58Facts Did.

Lemma Uint8Array_set_concat (a b : bytes) :
  Uint8Array_set (Uint8Array_set (Uint8Array_new (length a + length b)) a 0) b (length a)
  = a ++ b.
Proof.
  unfold Uint8Array_set, Uint8Array_new. simpl.
  rewrite drop_replicate, take_app_length.
  replace (length a + length b - length a) with (length b) by lia.
  rewrite drop_app_add', drop_replicate by done.
  replace (length b - length b) with 0 by lia. simpl.
  by rewrite app_nil_r.
Qed.

Lemma substring_all (s : string) : String.substring 0 (String.length s) s = s.
Proof. induction s as [|c s IH]; simpl; [done|]. by rewrite IH. Qed.

Lemma decode_loop_find (chars : list ascii) (num : Z) :
  match List.find not_base58 chars with
  | Some c => decode_loop chars num = Throw (InvalidBase58Character c)
  | None => exists n, decode_loop chars num = Ok n
  end.
Proof.
  revert num. induction chars as [|c chars IH]; intros num; simpl.
  - by exists num.
  - unfold not_base58 at 1. destruct (_ =? _)%Z; [done|]. apply IH.
Qed.

Lemma base58Decode_find (s : string) :
  match List.find not_base58 (list_ascii_of_string s) with
  | Some c => base58Decode s = Throw (InvalidBase58Character c)
  | None => exists decoded, base58Decode s = Ok decoded
  end.
Proof.
  unfold base58Decode. destruct s as [|c0 s]; [simpl; by exists []|].
  change (String.eqb (String c0 s) "") with false. cbv iota.
  pose proof (decode_loop_find (list_ascii_of_string (String c0 s)) 0) as H.
  destruct (List.find _ _) as [c|].
  - by rewrite H.
  - destruct H as [n ->]. rewrite bind_Ok. destruct (n =? 0)%Z; eauto.
Qed.

Lemma multicodec_nonzero (publicKey : bytes) :
  bigint_of_bytes (ED25519_MULTICODEC_PREFIX ++ publicKey) <> 0%Z.
Proof.
  pose proof (bigint_head_bound xed (x01 :: publicKey)) as H.
  assert (0 < 256 ^ Z.of_nat (length (x01 :: publicKey)))%Z
    by (apply Z.pow_pos_nonneg; lia).
  change (ED25519_MULTICODEC_PREFIX ++ publicKey) with (xed :: x01 :: publicKey).
  assert (byte_val xed <> 0%Z) by done. lia.
Qed.

Lemma startsWith_did_prefix (encoded : string) :
  startsWith ("did:key:z" +:+ encoded) "did:key:z" = true.
Proof. unfold startsWith. simpl. by destruct encoded. Qed.

Lemma string_slice_did_prefix (encoded : string) :
  string_slice 9 ("did:key:z" +:+ encoded) = encoded.
Proof.
  unfold string_slice. simpl. rewrite Nat.sub_0_r. apply substring_all.
Qed.

(** What [publicKeyToDid] returns for a 32-byte key. *)
Lemma publicKeyToDid_32 (k : bytes) :
  length k = 32 ->
  publicKeyToDid k = Ok ("did:key:z" +:+ base58Encode (ED25519_MULTICODEC_PREFIX ++ k)).
Proof.
  intros Hk. unfold publicKeyToDid. rewrite Uint8Array_set_concat, Hk. reflexivity.
Qed.

(** Decoding the DID built from a 32-byte key gives the key back. *)
Lemma didToPublicKey_encoded (k : bytes) :
  length k = 32 ->
  didToPublicKey ("did:key:z" +:+ base58Encode (ED25519_MULTICODEC_PREFIX ++ k)) = Ok k.
Proof.
  intros Hk. unfold didToPublicKey.
  rewrite startsWith_did_prefix, string_slice_did_prefix.
  rewrite base58_roundtrip_nonzero by apply multicodec_nonzero.
  rewrite bind_Ok. cbn [negb]. cbv iota.
  change (ED25519_MULTICODEC_PREFIX ++ k) with (xed :: x01 :: k).
  cbn [lookup list_lookup ED25519_MULTICODEC_PREFIX drop].
  rewrite !bool_decide_eq_true_2 by done.
  rewrite drop_0, Hk. reflexivity.
Qed.

(** C2: for every 32-byte Ed25519 public key [k],
    [didToPublicKey(publicKeyToDid(k))] returns exactly [k]. *)
Theorem didToPublicKey_publicKeyToDid (k : bytes) :
  length k = 32 ->
  exists did, publicKeyToDid k = Ok did /\ didToPublicKey did = Ok k.
Proof.
  intros Hk. eexists. split.
  - by apply publicKeyToDid_32.
  - by apply didToPublicKey_encoded.
Qed.

Lemma didToPublicKey_publicKeyToDid_witness :
  length Reference.key_a = 32 /\
  exists did, publicKeyToDid Reference.key_a = Ok did /\
              didToPublicKey did = Ok Reference.key_a.
Proof.
  split; [reflexivity|].
  apply (didToPublicKey_publicKeyToDid Reference.key_a). reflexivity.
Defined.

(** C9, as amended: [didToPublicKey] checks, in this order, the literal
    prefix, the base58 alphabet of the body, the two multicodec bytes and the
    length of the decoded body, and fails with [InvalidDidFormat], the
    invalid-character error of [base58Decode], [InvalidMulticodecPrefix] or
    [InvalidKeyLength] at the first check that fails; when all pass it returns
    the 32 bytes that follow the multicodec bytes. *)
Theorem didToPublicKey_outcome (did : string) :
  let body := string_slice 9 did in
  (startsWith did "did:key:z" = false ->
     didToPublicKey did = Throw InvalidDidFormat) /\
  (startsWith did "did:key:z" = true ->
     (forall c, List.find not_base58 (list_ascii_of_string body) = Some c ->
        didToPublicKey did = Throw (InvalidBase58Character c)) /\
     (List.find not_base58 (list_ascii_of_string body) = None ->
        exists decoded, base58Decode body = Ok decoded /\
          (take 2 decoded <> [xed; x01] ->
             didToPublicKey did = Throw InvalidMulticodecPrefix) /\
          (take 2 decoded = [xed; x01] -> length decoded <> 34 ->
             didToPublicKey did = Throw InvalidKeyLength) /\
          (take 2 decoded = [xed; x01] -> length decoded = 34 ->
             didToPublicKey did = Ok (drop 2 decoded) /\
             length (drop 2 decoded) = 32))).
Proof.
  intros body. unfold didToPublicKey. fold body. split.
  - intros ->. reflexivity.
  - intros ->. cbn [negb]. cbv iota.
    pose proof (base58Decode_find body) as Hfind. split.
    + intros c Hc. rewrite Hc in Hfind. by rewrite Hfind.
    + intros Hnone. rewrite Hnone in Hfind. destruct Hfind as [decoded Hdec].
      exists decoded. split; [done|]. rewrite Hdec, bind_Ok.
      destruct decoded as [|b0 [|b1 rest]].
      * repeat split; intros; done.
      * cbn [lookup list_lookup ED25519_MULTICODEC_PREFIX take].
        rewrite (bool_decide_eq_false_2 (None = Some x01)) by done.
        rewrite orb_true_r. repeat split; intros; done.
      * cbn [lookup list_lookup ED25519_MULTICODEC_PREFIX take drop length].
        rewrite !drop_0.
        destruct (decide (b0 = xed)) as [->|Hb0];
          [destruct (decide (b1 = x01)) as [->|Hb1]|].
        -- rewrite !bool_decide_eq_true_2 by done. cbn [negb orb]. cbv iota.
           split; [done|]. split.
           ++ intros _ Hlen.
              destruct (Nat.eqb_spec (length rest) 32) as [|_]; [lia|done].
           ++ intros _ Hlen.
              destruct (Nat.eqb_spec (length rest) 32) as [|]; [|lia].
              split; [done|lia].
        -- rewrite (bool_decide_eq_false_2 (Some b1 = Some x01)) by congruence.
           rewrite orb_true_r. repeat split; intros; congruence.
        -- rewrite (bool_decide_eq_false_2 (Some b0 = Some xed)) by congruence.
           cbn [negb orb]. repeat split; intros; congruence.
Qed.

(** C9, counterexample: a body with a character outside the alphabet makes
    [didToPublicKey] fail with an error that is none of the three named ones. *)
Lemma didToPublicKey_invalid_character :
  startsWith "did:key:z0" "did:key:z" = true /\
  didToPublicKey "did:key:z0" = Throw (Error "Invalid base58 character: 0") /\
  didToPublicKey "did:key:z0" <> Throw InvalidDidFormat /\
  didToPublicKey "did:key:z0" <> Throw InvalidMulticodecPrefix /\
  didToPublicKey "did:key:z0" <> Throw InvalidKeyLength /\
  (forall k, didToPublicKey "did:key:z0" <> Ok k).
Proof. repeat split; try done; intros k; done. Qed.

End DidFacts.

(** ** base64 *)

Module Base64Facts.
Import NaclUtil.
Local Open Scope Z_scope.

Lemma b64_index_char (d : Z) : 0 <= d < 64 -> b64_index (b64_char d) = d.
Proof.
  apply (indexOf_char_at_below BASE64_ALPHABET 64).
  intros i Hi. do 64 (destruct i as [|i]; [reflexivity|]). lia.
Qed.

Lemma is_b64_char (d : Z) : 0 <= d < 64 -> is_b64 (b64_char d) = true.
Proof.
  intros Hd. unfold is_b64. rewrite b64_index_char by done.
  destruct (Z.eqb_spec d (-1)); [lia|done].
Qed.

Lemma is_pad_char (d : Z) : 0 <= d < 64 -> is_pad (b64_char d) = false.
Proof.
  intros Hd. unfold is_pad.
  destruct (Ascii.eqb_spec (b64_char d) "="%char) as [Heq|]; [|done].
  pose proof (b64_index_char d Hd) as Hi. rewrite Heq in Hi.
  change (b64_index "="%char) with (-1) in Hi. lia.
Qed.

(** Induction over a byte sequence three bytes at a time. *)
Lemma bytes_ind3 (Q : bytes -> Prop) :
  Q [] -> (forall a, Q [a]) -> (forall a b, Q [a; b]) ->
  (forall a b c rest, Q rest -> Q (a :: b :: c :: rest)) ->
  forall data, Q data.
Proof.
  intros H0 H1 H2 H3 data.
  assert (Q data /\ (forall a, Q (a :: data)) /\ (forall a b, Q (a :: b :: data)))
    as [H _].
  { induction data as [|c data (IH0 & IH1 & IH2)]; [by auto|].
    split; [apply IH1|]. split; [intros a; apply IH2|].
    intros a b. by apply H3. }
  exact H.
Qed.

Lemma byte_of_Z_eq (z : Z) (b : byte) : z = byte_val b -> byte_of_Z z = b.
Proof. intros ->. apply byte_of_Z_val. Qed.

Local Ltac same_bytes :=
  repeat first [ apply byte_of_Z_eq; div_lia | progress f_equal ].

Lemma decode_encode_groups (data : bytes) :
  decode_groups (encode_groups data) = Some data.
Proof.
  induction data as [|a|a b|a b c rest IH] using bytes_ind3.
  - reflexivity.
  - pose proof (byte_val_range a).
    cbn [encode_groups decode_groups].
    rewrite !is_b64_char, !b64_index_char by div_lia.
    change (is_b64 "="%char) with false. change (is_pad "="%char) with true.
    cbn [andb]. same_bytes.
  - pose proof (byte_val_range a). pose proof (byte_val_range b).
    cbn [encode_groups decode_groups].
    rewrite !is_b64_char, !is_pad_char, !b64_index_char by div_lia.
    change (is_b64 "="%char) with false. change (is_pad "="%char) with true.
    cbn [andb]. same_bytes.
  - pose proof (byte_val_range a). pose proof (byte_val_range b).
    pose proof (byte_val_range c).
    cbn [encode_groups decode_groups].
    rewrite !is_b64_char, !b64_index_char by div_lia.
    cbn [andb]. rewrite IH. same_bytes.
Qed.

(** [decodeBase64] inverts [encodeBase64]. *)
Lemma decodeBase64_encodeBase64 (arr : bytes) :
  decodeBase64 (encodeBase64 arr) = Ok arr.
Proof.
  unfold decodeBase64, encodeBase64.
  by rewrite list_ascii_of_string_of_list_ascii, decode_encode_groups.
Qed.

End Base64Facts.

(** ** The reference primitives satisfy the contract *)

Module ReferenceFacts.
Import Reference.

Lemma take_padded (n : nat) (l : bytes) : length (take n (l ++ zeros n)) = n.
Proof.
  rewrite length_take, length_app. unfold zeros. rewrite length_replicate. lia.
Qed.

Lemma ref_tag_length (n k : bytes) : length (ref_tag n k) = 16.
Proof.
  unfold ref_tag. rewrite app_assoc. apply take_padded.
Qed.

Lemma ref_signature_length (sk : bytes) : length (ref_signature sk) = 64.
Proof. apply take_padded. Qed.

Lemma reference_laws : PrimitivesLaws primitives.
Proof.
  split; cbn [crypto_secretbox crypto_secretbox_open crypto_sign_public crypto_sign
                crypto_sign_open subtle_digest_sha256 primitives].
  - intros m n k. unfold ref_secretbox. by rewrite length_app, ref_tag_length.
  - intros m n k _ _. unfold ref_secretbox, ref_secretbox_open.
    rewrite take_app_length', drop_app_length' by (symmetry; apply ref_tag_length).
    by rewrite bool_decide_eq_true_2.
  - intros seed _. apply take_padded.
  - intros m sk. unfold ref_sign. by rewrite length_app, ref_signature_length.
  - intros m sk. unfold ref_sign. by rewrite drop_app_length' by (symmetry; apply ref_signature_length).
  - intros m seed Hseed. unfold ref_sign, ref_sign_open.
    rewrite take_app_length', drop_app_length' by (symmetry; apply ref_signature_length).
    rewrite bool_decide_eq_true_2; [done|].
    unfold ref_signature. by rewrite drop_app_length' by done.
  - intros m. apply take_padded.
Qed.

End ReferenceFacts.

(** ** Envelope encryption *)

Module EncryptFacts.
Import NaclUtil Base64Facts Encrypt.

Section WithLaws.
Context {P : Primitives} {L : PrimitivesLaws P}.

Lemma randomBytes_length (n : nat) (g : rng) : length (nacl.randomBytes n g).1 = n.
Proof. simpl. by rewrite length_map, length_seq. Qed.

Lemma secretbox_sized (m n k : bytes) :
  length k = 32 -> length n = 24 ->
  nacl.secretbox m n k = Ok (crypto_secretbox m n k).
Proof.
  intros Hk Hn. unfold nacl.secretbox, nacl.checkLengths.
  by rewrite Hk, Hn.
Qed.

Lemma secretbox_open_secretbox_sized (m n k : bytes) :
  length k = 32 -> length n = 24 ->
  nacl.secretbox_open (crypto_secretbox m n k) n k = Ok (Some m).
Proof.
  intros Hk Hn. unfold nacl.secretbox_open, nacl.checkLengths.
  rewrite Hk, Hn, secretbox_length. cbn [Nat.eqb negb mbind result_bind].
  destruct (Nat.ltb_spec (16 + length m) nacl.secretbox_overheadLength) as [Hlt|_].
  - unfold nacl.secretbox_overheadLength in Hlt. lia.
  - by rewrite secretbox_open_secretbox.
Qed.

(** C1: for every plaintext (the empty one included), every 32-byte key and
    every run of the random generator, [decryptFromVault] applied with the
    same key to the blob and the metadata returned by [encryptForVault]
    gives the plaintext back. *)
Theorem decryptFromVault_encryptForVault (plaintext documentKey : bytes) (g : rng) :
  length documentKey = 32 ->
  exists encryptedBlob encryptionMeta,
    (encryptForVault plaintext documentKey g).1 = Ok (encryptedBlob, encryptionMeta) /\
    decryptFromVault encryptedBlob encryptionMeta documentKey = Ok plaintext.
Proof.
  intros Hkey. unfold encryptForVault, generateKey, generateNonce.
  destruct (nacl.randomBytes nacl.secretbox_keyLength g) as [dek g1] eqn:Hdek.
  destruct (nacl.randomBytes nacl.secretbox_nonceLength g1) as [documentNonce g2] eqn:Hn1.
  destruct (nacl.randomBytes nacl.secretbox_nonceLength g2) as [dekNonce g3] eqn:Hn2.
  assert (length dek = 32) as Hdek_len
    by (change dek with (dek, g1).1; rewrite <- Hdek; apply randomBytes_length).
  assert (length documentNonce = 24) as Hn1_len
    by (change documentNonce with (documentNonce, g2).1; rewrite <- Hn1;
        apply randomBytes_length).
  assert (length dekNonce = 24) as Hn2_len
    by (change dekNonce with (dekNonce, g3).1; rewrite <- Hn2;
        apply randomBytes_length).
  rewrite (secretbox_sized plaintext) by done.
  rewrite (secretbox_sized dek) by done.
  eexists _, _. split; [reflexivity|].
  unfold decryptFromVault. cbn [key_wrap wrapped_key wrap_nonce vm_nonce].
  rewrite !decodeBase64_encodeBase64, !bind_Ok.
  rewrite secretbox_open_secretbox_sized, bind_Ok by done.
  rewrite bind_Ok.
  by rewrite secretbox_open_secretbox_sized, bind_Ok by done.
Qed.

End WithLaws.

Lemma decryptFromVault_encryptForVault_witness :
  length Reference.key_a = 32 /\
  exists encryptedBlob encryptionMeta,
    (@encryptForVault Reference.primitives [] Reference.key_a
       Reference.counting_tape).1 = Ok (encryptedBlob, encryptionMeta) /\
    @decryptFromVault Reference.primitives encryptedBlob encryptionMeta
       Reference.key_a = Ok [].
Proof.
  split; [reflexivity|].
  apply (@decryptFromVault_encryptForVault Reference.primitives
           ReferenceFacts.reference_laws [] Reference.key_a Reference.counting_tape).
  reflexivity.
Defined.

Section WithPrimitives.
Context {P : Primitives}.

(** C3, as amended: a failure of [decryptFromVault] caused by the DEK-unwrap
    authentication is reported as [Error('Failed to unwrap document
    encryption key')], and one caused by the payload decryption under the
    recovered DEK as [Error('Failed to decrypt document')]: two exceptions of
    the same class with different messages. *)
Theorem decryptFromVault_failure_causes
    (encryptedBlob : bytes) (encryptionMeta : VaultEncryptionMeta)
    (documentKey wrappedDek wrapNonce : bytes) :
  decodeBase64 (wrapped_key (key_wrap encryptionMeta)) = Ok wrappedDek ->
  decodeBase64 (wrap_nonce (key_wrap encryptionMeta)) = Ok wrapNonce ->
  (nacl.secretbox_open wrappedDek wrapNonce documentKey = Ok None ->
     decryptFromVault encryptedBlob encryptionMeta documentKey
     = Throw (Error "Failed to unwrap document encryption key")) /\
  (forall dek documentNonce,
     nacl.secretbox_open wrappedDek wrapNonce documentKey = Ok (Some dek) ->
     decodeBase64 (vm_nonce encryptionMeta) = Ok documentNonce ->
     nacl.secretbox_open encryptedBlob documentNonce dek = Ok None ->
     decryptFromVault encryptedBlob encryptionMeta documentKey
     = Throw (Error "Failed to decrypt document")) /\
  Error "Failed to unwrap document encryption key"
    <> Error "Failed to decrypt document".
Proof.
  intros Hwrapped Hnonce. unfold decryptFromVault.
  rewrite Hwrapped, Hnonce, !bind_Ok. repeat split.
  - intros ->. by rewrite bind_Ok.
  - intros dek documentNonce -> -> Hopen. by rewrite !bind_Ok, Hopen, bind_Ok.
  - discriminate.
Qed.

(** Whatever is thrown inside the [try] block of [decryptSymmetric] leaves it
    as a [DecryptionError]. *)
Lemma decryptSymmetric_escaping (payload : EncryptedPayload) (key : bytes) (e : exn) :
  decryptSymmetric payload key = Throw e ->
  exists message, e = DecryptionError message.
Proof.
  unfold decryptSymmetric, try_catch.
  destruct (_ ≫= _) as [decrypted|error]; [discriminate|].
  destruct error as [m|m|m]; intros [= <-]; eauto.
Qed.

Lemma decryptSymmetric_bad_ciphertext
    (payload : EncryptedPayload) (key : bytes) (e : exn) :
  decodeBase64 (ciphertext payload) = Throw e ->
  decryptSymmetric payload key = Throw (DecryptionError "Decryption error: invalid encoding").
Proof.
  unfold decryptSymmetric, decodeBase64.
  destruct (decode_groups _); [discriminate|]. reflexivity.
Qed.

Lemma decryptSymmetric_bad_nonce
    (payload : EncryptedPayload) (key ciphertextBytes : bytes) (e : exn) :
  decodeBase64 (ciphertext payload) = Ok ciphertextBytes ->
  decodeBase64 (nonce payload) = Throw e ->
  decryptSymmetric payload key = Throw (DecryptionError "Decryption error: invalid encoding").
Proof.
  intros Hc. unfold decryptSymmetric. rewrite Hc, bind_Ok. unfold decodeBase64.
  destruct (decode_groups _); [discriminate|]. reflexivity.
Qed.

Lemma decryptSymmetric_rejected
    (payload : EncryptedPayload) (key ciphertextBytes nonceBytes : bytes) :
  decodeBase64 (ciphertext payload) = Ok ciphertextBytes ->
  decodeBase64 (nonce payload) = Ok nonceBytes ->
  nacl.secretbox_open ciphertextBytes nonceBytes key = Ok None ->
  decryptSymmetric payload key
  = Throw (DecryptionError "Decryption failed: incorrect key or corrupted data").
Proof.
  intros Hc Hn Hopen. unfold decryptSymmetric.
  by rewrite Hc, Hn, !bind_Ok, Hopen, bind_Ok.
Qed.

(** C10: every exception that escapes [decryptSymmetric] is a
    [DecryptionError]; in particular a ciphertext or a nonce that is not valid
    base64 and an authentication that fails (wrong key, corrupted ciphertext)
    each make it throw a [DecryptionError]. *)
Theorem decryptSymmetric_throws_DecryptionError
    (payload : EncryptedPayload) (key : bytes) :
  (forall e, decryptSymmetric payload key = Throw e ->
     exists message, e = DecryptionError message) /\
  ((exists e, decodeBase64 (ciphertext payload) = Throw e) \/
   (exists e, decodeBase64 (nonce payload) = Throw e) ->
     decryptSymmetric payload key
     = Throw (DecryptionError "Decryption error: invalid encoding")) /\
  (forall ciphertextBytes nonceBytes,
     decodeBase64 (ciphertext payload) = Ok ciphertextBytes ->
     decodeBase64 (nonce payload) = Ok nonceBytes ->
     nacl.secretbox_open ciphertextBytes nonceBytes key = Ok None ->
     decryptSymmetric payload key
     = Throw (DecryptionError "Decryption failed: incorrect key or corrupted data")).
Proof.
  split; [apply decryptSymmetric_escaping|]. split.
  - intros [[e He]|[e He]]; [by eapply decryptSymmetric_bad_ciphertext|].
    destruct (decodeBase64 (ciphertext payload)) as [c|e'] eqn:Hc.
    + by eapply decryptSymmetric_bad_nonce.
    + by eapply decryptSymmetric_bad_ciphertext.
  - apply decryptSymmetric_rejected.
Qed.

End WithPrimitives.

(** C3, counterexample: the envelope of a two-byte document under [key_a]
    fails with one exception when it is opened with the wrong key [key_b], and
    with a different one when its blob is corrupted and the key is right. *)
Lemma decryptFromVault_failures_differ :
  let P := Reference.primitives in
  (@encryptForVault P [x01; x02] Reference.key_a Reference.counting_tape).1
  = Ok (Reference.sample_blob, Reference.sample_meta) /\
  @decryptFromVault P Reference.sample_blob Reference.sample_meta Reference.key_b
  = Throw (Error "Failed to unwrap document encryption key") /\
  @decryptFromVault P Reference.corrupted_blob Reference.sample_meta Reference.key_a
  = Throw (Error "Failed to decrypt document") /\
  @decryptFromVault P Reference.sample_blob Reference.sample_meta Reference.key_b
  <> @decryptFromVault P Reference.corrupted_blob Reference.sample_meta Reference.key_a.
Proof. cbv zeta. repeat split; try (vm_compute; reflexivity). vm_compute. discriminate. Qed.

Lemma decryptFromVault_failure_causes_witness :
  decodeBase64 (wrapped_key (key_wrap Reference.empty_wrap_meta)) = Ok [] /\
  decodeBase64 (wrap_nonce (key_wrap Reference.empty_wrap_meta))
  = Ok (replicate 24 x00) /\
  @nacl.secretbox_open Reference.primitives [] (replicate 24 x00) Reference.key_a
  = Ok None /\
  @decryptFromVault Reference.primitives [] Reference.empty_wrap_meta Reference.key_a
  = Throw (Error "Failed to unwrap document encryption key").
Proof.
  split; [reflexivity|]. split; [reflexivity|]. split; [reflexivity|].
  apply (@decryptFromVault_failure_causes Reference.primitives []
           Reference.empty_wrap_meta Reference.key_a [] (replicate 24 x00));
    reflexivity.
Defined.

Lemma decryptSymmetric_throws_DecryptionError_witness :
  @decryptSymmetric Reference.primitives Reference.malformed_payload Reference.key_a
  = Throw (DecryptionError "Decryption error: invalid encoding") /\
  exists message,
    DecryptionError "Decryption error: invalid encoding" = DecryptionError message.
Proof.
  split; [reflexivity|].
  apply (proj1 (@decryptSymmetric_throws_DecryptionError Reference.primitives
                  Reference.malformed_payload Reference.key_a)).
  reflexivity.
Defined.

End EncryptFacts.

(** ** Signatures *)

Module SignFacts.
Import NaclUtil Base64Facts Did DidFacts.

Section WithPrimitives.
Context {P : Primitives}.

(** [verifySignature] hands [nacl.sign.open] the signature followed by the
    message. *)
Lemma verifySignature_signed_message (message signature publicKey : bytes) :
  verifySignature message signature publicKey =
    result ← nacl.sign_open (signature ++ message) publicKey;
    Ok (bool_decide (result <> None)).
Proof.
  unfold verifySignature. by rewrite Uint8Array_set_concat.
Qed.

Lemma sign_open_sized (signedMsg publicKey : bytes) :
  length publicKey = 32 ->
  nacl.sign_open signedMsg publicKey =
    Ok (if length signedMsg <? 64 then None else crypto_sign_open signedMsg publicKey).
Proof.
  intros Hpk. unfold nacl.sign_open. rewrite Hpk.
  change (negb (32 =? nacl.sign_publicKeyLength)) with false.
  change nacl.sign_signatureLength with 64.
  by destruct (_ <? _).
Qed.

Lemma sign_open_key_size (signedMsg publicKey : bytes) :
  length publicKey <> 32 ->
  nacl.sign_open signedMsg publicKey = Throw (Error "bad public key size").
Proof.
  intros Hlen. unfold nacl.sign_open.
  destruct (Nat.eqb_spec (length publicKey) nacl.sign_publicKeyLength) as [Heq|_];
    [done|reflexivity].
Qed.

(** C8, the failing case: with a public key that is not 32 bytes long,
    [verifySignature] lets the exception of [nacl.sign.open] escape instead of
    returning false. *)
Theorem verifySignature_bad_public_key (message signature publicKey : bytes) :
  length publicKey <> 32 ->
  verifySignature message signature publicKey = Throw (Error "bad public key size").
Proof.
  intros Hlen. rewrite verifySignature_signed_message.
  by rewrite sign_open_key_size.
Qed.

(** [verifySignatureBase64] never lets an exception escape. *)
Lemma verifySignatureBase64_total
    (message : string + bytes) (signatureB64 : string) (publicKey : bytes) :
  exists b, verifySignatureBase64 message signatureB64 publicKey = Ok b.
Proof.
  unfold verifySignatureBase64, try_catch.
  destruct (_ ≫= _) as [b|e]; eauto.
Qed.

(** It answers false to a signature that is not base64 and to a public key
    that is not 32 bytes long. *)
Lemma verifySignatureBase64_malformed
    (message : string + bytes) (signatureB64 : string) (publicKey : bytes) :
  (exists e, decodeBase64 signatureB64 = Throw e) \/ length publicKey <> 32 ->
  verifySignatureBase64 message signatureB64 publicKey = Ok false.
Proof.
  intros Hbad. unfold verifySignatureBase64.
  destruct (decodeBase64 signatureB64) as [signature|e]; [|reflexivity].
  destruct Hbad as [[e He]|Hlen]; [discriminate|].
  by rewrite bind_Ok, verifySignature_signed_message, sign_open_key_size.
Qed.

Lemma elem_of_all_bytes (b : byte) : b ∈ all_bytes.
Proof.
  unfold all_bytes. apply list_elem_of_fmap.
  pose proof (byte_val_range b) as Hb.
  exists (Z.to_nat (byte_val b)). split.
  - rewrite Z2Nat.id by lia. symmetry. apply byte_of_Z_val.
  - apply elem_of_seq. lia.
Qed.

Lemma elem_of_words (n : nat) (w : bytes) : length w <= n -> w ∈ words n.
Proof.
  revert w. induction n as [|n IH]; intros w Hw.
  - destruct w; [|simpl in Hw; lia]. apply list_elem_of_here.
  - destruct w as [|b w]; [apply list_elem_of_here|].
    cbn [words]. apply list_elem_of_further, list_elem_of_bind.
    exists b. split; [|apply elem_of_all_bytes].
    apply list_elem_of_fmap. exists w. split; [done|].
    apply IH. simpl in Hw. lia.
Qed.

Lemma words_bounded (n : nat) (w : bytes) : w ∈ words n -> length w <= n.
Proof.
  revert w. induction n as [|n IH]; intros w; cbn [words].
  - intros ->%list_elem_of_singleton. done.
  - intros [->|Hw]%elem_of_cons; [simpl; lia|].
    apply list_elem_of_bind in Hw as (b & Hw & _).
    apply list_elem_of_fmap in Hw as (w' & -> & Hw'). apply IH in Hw'. simpl. lia.
Qed.

Lemma NoDup_all_bytes : NoDup all_bytes.
Proof.
  unfold all_bytes. apply NoDup_fmap_2_strong; [|apply NoDup_seq].
  intros i j Hi%elem_of_seq Hj%elem_of_seq Heq.
  apply (f_equal byte_val) in Heq. rewrite !byte_val_of_Z in Heq by lia. lia.
Qed.

Lemma NoDup_words (n : nat) : NoDup (words n).
Proof.
  induction n as [|n IH]; cbn [words]; [apply NoDup_singleton|].
  apply NoDup_cons_2.
  - intros (b & (w & Hw & _)%list_elem_of_fmap & _)%list_elem_of_bind. done.
  - apply NoDup_bind; [| |apply NoDup_all_bytes].
    + intros b1 b2 w _ _ (w1 & -> & _)%list_elem_of_fmap (w2 & Heq & _)%list_elem_of_fmap.
      congruence.
    + intros b _. apply NoDup_fmap_2; [|done]. intros w1 w2. congruence.
Qed.

Lemma words_length_lt (n : nat) : length (words n) < length (words (S n)).
Proof.
  cbn [words length].
  change all_bytes
    with (byte_of_Z 0 :: ((fun i => byte_of_Z (Z.of_nat i)) <$> seq 1 255)).
  rewrite bind_cons, length_app, length_fmap. lia.
Qed.

(** A function that maps the byte sequences of at most [n + 1] bytes to
    sequences of at most [n] bytes takes the same value on two of them. *)
Lemma short_images_collide (n : nat) (f : bytes -> bytes) :
  (forall m, length m <= S n -> length (f m) <= n) ->
  exists m1 m2,
    length m1 <= S n /\ length m2 <= S n /\ m1 <> m2 /\ f m1 = f m2.
Proof.
  intros Hf.
  destruct (list_pigeonhole (f <$> words (S n)) (words n))
    as (i & j & x & Hij & Hi & Hj).
  - intros x (m & -> & Hm)%list_elem_of_fmap.
    apply elem_of_words, Hf, words_bounded, Hm.
  - rewrite length_fmap. apply words_length_lt.
  - rewrite list_lookup_fmap in Hi, Hj.
    destruct (words (S n) !! i) as [m1|] eqn:Ei; [|done].
    destruct (words (S n) !! j) as [m2|] eqn:Ej; [|done].
    injection Hi as Hi. injection Hj as Hj.
    exists m1, m2. split; [|split; [|split]].
    + eapply words_bounded, list_elem_of_lookup_2, Ei.
    + eapply words_bounded, list_elem_of_lookup_2, Ej.
    + intros ->. pose proof (NoDup_lookup _ _ _ _ (NoDup_words (S n)) Ei Ej). lia.
    + congruence.
Qed.

Lemma signMessage_short (m sk s : bytes) :
  signMessage m sk = Ok s -> length s <= 64.
Proof.
  unfold signMessage. destruct (nacl.sign m sk) as [signed|]; [|discriminate].
  rewrite bind_Ok. intros [= <-]. rewrite length_take. unfold nacl.sign_signatureLength. lia.
Qed.

End WithPrimitives.

(** Whatever the primitives and the key pair, already among the messages of
    at most 65 bytes the signature of a message cannot verify with that
    message only.  [signMessage] returns at most 64 bytes, so two of these
    messages share a signature, and each of them verifies with it: that a
    changed message is rejected is no property of every input, for any
    implementation of the primitives. *)
Lemma no_key_pair_is_tamper_evident :
  ~ exists (P : Primitives) (sk pk : bytes), tamper_evident P sk pk 65.
Proof.
  intros (P & sk & pk & Hev).
  pose (sig := fun m : bytes =>
          match signMessage m sk with Ok s => s | Throw _ => [] end).
  assert (forall m, length m <= 65 -> signMessage m sk = Ok (sig m)) as Hsig.
  { intros m Hm. unfold sig. destruct (Hev m Hm) as (s & -> & _). done. }
  destruct (short_images_collide 64 sig) as (m1 & m2 & Hm1 & Hm2 & Hne & Heq).
  { intros m Hm. eapply signMessage_short, Hsig, Hm. }
  destruct (Hev m1 Hm1) as (s1 & Hs1 & _ & Hother).
  destruct (Hev m2 Hm2) as (s2 & Hs2 & Hself & _).
  rewrite Hsig in Hs1, Hs2 by done. injection Hs1 as <-. injection Hs2 as <-.
  rewrite <- Heq in Hself. rewrite Hother in Hself by done. discriminate.
Qed.

Section WithLaws.
Context {P : Primitives} {L : PrimitivesLaws P}.

Lemma generateKeyPair_sizes (g : rng) :
  let kp := (generateKeyPair g).1 in
  length (signingKey kp) = 64 /\ length (verifyKey kp) = 32 /\
  exists seed, length seed = 32 /\
    verifyKey kp = crypto_sign_public seed /\
    signingKey kp = seed ++ crypto_sign_public seed.
Proof.
  unfold generateKeyPair, nacl.sign_keyPair. cbn [nacl.randomBytes fst signingKey verifyKey].
  set (seed := map g (seq 0 nacl.sign_seedLength)).
  assert (length seed = 32) as Hseed by (unfold seed; by rewrite length_map, length_seq).
  pose proof (sign_public_length seed Hseed) as Hpk.
  split; [rewrite length_app; lia|]. split; [done|]. by exists seed.
Qed.

Lemma signMessage_sized (m sk : bytes) :
  length sk = 64 ->
  signMessage m sk = Ok (take 64 (crypto_sign m sk)) /\
  take 64 (crypto_sign m sk) ++ m = crypto_sign m sk.
Proof.
  intros Hsk. unfold signMessage, nacl.sign. rewrite Hsk. split; [reflexivity|].
  rewrite <- (sign_message m sk) at 2. apply take_drop.
Qed.

(** The first part of the signature property: the signature [signMessage]
    makes of a message with the secret key of a generated key pair verifies
    with that message and the public key of the pair. *)
Lemma verifySignature_signMessage (m : bytes) (g : rng) :
  let kp := (generateKeyPair g).1 in
  exists s,
    signMessage m (signingKey kp) = Ok s /\
    verifySignature m s (verifyKey kp) = Ok true.
Proof.
  intros kp. destruct (generateKeyPair_sizes g) as (Hsk & Hpk & seed & Hseed & Hvk & Hsig).
  fold kp in Hsk, Hpk, Hvk, Hsig.
  destruct (signMessage_sized m (signingKey kp) Hsk) as [Hs Hcat].
  eexists. split; [exact Hs|].
  rewrite verifySignature_signed_message, Hcat.
  rewrite sign_open_sized, sign_length, bind_Ok by done.
  destruct (Nat.ltb_spec (64 + length m) 64) as [Hlt|_]; [lia|].
  rewrite Hsig, Hvk, sign_open_sign by done. reflexivity.
Qed.

End WithLaws.

Lemma permissive_laws : PrimitivesLaws Reference.permissive_primitives.
Proof.
  destruct ReferenceFacts.reference_laws as [H1 H2 H3 H4 H5 H6 H7].
  split; try assumption.
  cbn [crypto_sign crypto_sign_open crypto_sign_public Reference.permissive_primitives].
  intros m seed _. f_equal. apply (H5 m (seed ++ Reference.ref_sign_public seed)).
Qed.

(** The rejection of another key and of a changed message rests on the
    signature scheme, not on the contract of [PrimitivesLaws]: with primitives
    that satisfy it and check nothing, the signature of a message made with
    a generated key verifies with a second message and with a second 32-byte
    key. *)
Lemma contract_accepts_other_key_and_message :
  let P := Reference.permissive_primitives in
  let kp := (@generateKeyPair P Reference.counting_tape).1 in
  exists s,
    @signMessage P [x01; x02] (signingKey kp) = Ok s /\
    @verifySignature P [x01; x02] s (verifyKey kp) = Ok true /\
    Reference.key_a <> verifyKey kp /\ length Reference.key_a = 32 /\
    @verifySignature P [x01; x02] s Reference.key_a = Ok true /\
    @verifySignature P [x01; x03] s (verifyKey kp) = Ok true.
Proof.
  eexists. split; [vm_compute; reflexivity|].
  split; [vm_compute; reflexivity|].
  split; [vm_compute; discriminate|].
  split; [reflexivity|]. split; vm_compute; reflexivity.
Qed.

Lemma verifySignature_bad_public_key_witness :
  length (@nil byte) <> 32 /\
  @verifySignature Reference.primitives [] (replicate 64 x00) []
  = Throw (Error "bad public key size").
Proof.
  split; [discriminate|].
  apply (@verifySignature_bad_public_key Reference.primitives [] (replicate 64 x00) []).
  discriminate.
Defined.

End SignFacts.

(** ** The owner signature of a new recovery role *)

Module RecoveryFacts.
Import NaclUtil Base64Facts Did Recovery.

Section WithLaws.
Context {P : Primitives} {L : PrimitivesLaws P}.

Lemma signMessage_length (m sk s : bytes) :
  signMessage m sk = Ok s -> length s = 64.
Proof.
  unfold signMessage, nacl.sign.
  destruct (negb _); [discriminate|]. rewrite bind_Ok. intros [= <-].
  rewrite length_take, sign_length. unfold nacl.sign_signatureLength. lia.
Qed.

(** C4, what the code submits: the owner signature of [handleAddRole] is the
    base64 of the SHA-256 digest of a payload that names the target's account
    id; it is 32 bytes long, is made without any key, and is never a signature
    that [signMessage] produces. *)
Theorem handleAddRole_signature_is_digest
    (newRoleType : RoleType) (account_id timestamp : string) :
  let request := handleAddRole_request newRoleType account_id timestamp in
  let digest :=
    subtle_digest_sha256
      (TextEncoder_encode (role_payload newRoleType account_id timestamp)) in
  target_id request = account_id /\
  decodeBase64 (owner_signature request) = Ok digest /\
  length digest = 32 /\
  forall m sk s, signMessage m sk = Ok s -> decodeBase64 (owner_signature request) <> Ok s.
Proof.
  intros request digest.
  assert (decodeBase64 (owner_signature request) = Ok digest) as Hdec.
  { unfold request, handleAddRole_request, btoa, String_fromCharCode.
    cbn [owner_signature].
    by rewrite list_byte_of_string_of_list_byte, decodeBase64_encodeBase64. }
  pose proof (sha256_length
                (TextEncoder_encode (role_payload newRoleType account_id timestamp)))
    as Hlen. fold digest in Hlen.
  repeat split; try done.
  intros m sk s Hs. rewrite Hdec. intros [= <-].
  apply signMessage_length in Hs. lia.
Qed.

End WithLaws.

Lemma handleAddRole_signature_is_digest_witness :
  let P := Reference.primitives in
  let request :=
    @handleAddRole_request P beneficiary "acct-1" "2024-01-01T00:00:00.000Z" in
  let digest :=
    @subtle_digest_sha256 P
      (TextEncoder_encode
         (role_payload beneficiary "acct-1" "2024-01-01T00:00:00.000Z")) in
  target_id request = "acct-1" /\
  decodeBase64 (owner_signature request) = Ok digest /\
  length digest = 32 /\
  forall m sk s,
    @signMessage P m sk = Ok s -> decodeBase64 (owner_signature request) <> Ok s.
Proof.
  exact (@handleAddRole_signature_is_digest Reference.primitives
           ReferenceFacts.reference_laws beneficiary "acct-1"
           "2024-01-01T00:00:00.000Z").
Defined.

(** The payload that is hashed names the account id, whatever the DID of the
    target is. *)
Example handleAddRole_payload_example :
  role_payload beneficiary "acct-1" "2024-01-01T00:00:00.000Z"
  = "role:beneficiary:target:acct-1:time:2024-01-01T00:00:00.000Z".
Proof. reflexivity. Qed.

End RecoveryFacts.

(** ** base58 on all-zero input *)

Module Base58Zero.
Import Base58 Base58Facts.


(** The empty sequence is not restored either. *)
Lemma base58_empty :
  base58Encode [] = "1" /\ base58Decode (base58Encode []) = Ok [x00].
Proof. by split. Qed.

Lemma bigint_nonzero_iff (data : bytes) :
  bigint_of_bytes data <> 0%Z <-> exists b, b ∈ data /\ b <> x00.
Proof.
  split.
  - induction data as [|b data IH]; [done|].
    destruct (decide (b = x00)) as [->|Hb].
    + rewrite bigint_cons. change (byte_val x00) with 0%Z. rewrite Z.mul_0_l, Z.add_0_l.
      intros (b' & Hin & Hb')%IH. exists b'. split; [by apply list_elem_of_further|done].
    + intros _. exists b. split; [apply list_elem_of_here|done].
  - intros (b & Hin & Hb) Hz. apply bigint_zero_all_zero in Hz.
    rewrite Hz in Hin. by apply elem_of_replicate in Hin as [-> _].
Qed.

(** The sequences [publicKeyToDid] encodes, the multicodec prefix followed
    by a key, have a non-zero byte. *)
Lemma multicodec_has_nonzero_byte (publicKey : bytes) :
  exists b, b ∈ Did.ED25519_MULTICODEC_PREFIX ++ publicKey /\ b <> x00.
Proof. exists xed. split; [apply list_elem_of_here|done]. Qed.



(** [base58Decode] inverts [base58Encode] exactly on the sequences that have
    a non-zero byte and on the single zero byte. *)
Theorem base58_roundtrip_iff (data : bytes) :
  base58Decode (base58Encode data) = Ok data <->
  (exists b, b ∈ data /\ b <> x00) \/ data = [x00].
Proof.
  rewrite <- bigint_nonzero_iff. split.
  - intros Hrt. destruct (Z.eq_dec (bigint_of_bytes data) 0%Z) as [Hz|]; [|by left].
    right. rewrite base58_roundtrip_zero in Hrt by done. by injection Hrt.
  - intros [Hnz| ->]; [by apply base58_roundtrip_nonzero|reflexivity].
Qed.

End Base58Zero.

(** ** Further properties of the same functions *)

Module FurtherFacts.
Import NaclUtil Base64Facts Did DidFacts Encrypt EncryptFacts SignFacts.

(** [publicKeyToDid] refuses a key that is not 32 bytes long. *)
Theorem publicKeyToDid_other_length (publicKey : bytes) :
  length publicKey <> 32 ->
  publicKeyToDid publicKey = Throw (Error "Ed25519 public key must be 32 bytes").
Proof.
  intros Hlen. unfold publicKeyToDid.
  by destruct (Nat.eqb_spec (length publicKey) 32).
Qed.

Lemma publicKeyToDid_other_length_witness :
  length [x01; x02] <> 32 /\
  publicKeyToDid [x01; x02] = Throw (Error "Ed25519 public key must be 32 bytes").
Proof.
  split; [discriminate|]. apply (publicKeyToDid_other_length [x01; x02]). discriminate.
Defined.

Section WithPrimitives.
Context {P : Primitives}.

(** [decryptFromVault] returns a plaintext only when [nacl.secretbox.open]
    has authenticated the wrapped DEK under the given key and the blob under
    the DEK so obtained. *)
Theorem decryptFromVault_authenticated
    (encryptedBlob : bytes) (encryptionMeta : VaultEncryptionMeta)
    (documentKey plaintext : bytes) :
  decryptFromVault encryptedBlob encryptionMeta documentKey = Ok plaintext ->
  exists wrappedDek wrapNonce dek documentNonce,
    decodeBase64 (wrapped_key (key_wrap encryptionMeta)) = Ok wrappedDek /\
    decodeBase64 (wrap_nonce (key_wrap encryptionMeta)) = Ok wrapNonce /\
    nacl.secretbox_open wrappedDek wrapNonce documentKey = Ok (Some dek) /\
    decodeBase64 (vm_nonce encryptionMeta) = Ok documentNonce /\
    nacl.secretbox_open encryptedBlob documentNonce dek = Ok (Some plaintext).
Proof.
  unfold decryptFromVault.
  destruct (decodeBase64 (wrapped_key _)) as [wrappedDek|] eqn:Hwrapped; [|discriminate].
  destruct (decodeBase64 (wrap_nonce _)) as [wrapNonce|] eqn:Hnonce; [|discriminate].
  rewrite !bind_Ok.
  destruct (nacl.secretbox_open wrappedDek wrapNonce documentKey) as [[dek|]|] eqn:Hdek;
    [|discriminate..].
  rewrite bind_Ok.
  destruct (decodeBase64 (vm_nonce _)) as [documentNonce|] eqn:Hdoc; [|discriminate].
  rewrite bind_Ok.
  destruct (nacl.secretbox_open encryptedBlob documentNonce dek) as [[p|]|] eqn:Hopen;
    [|discriminate..].
  rewrite bind_Ok. intros [= <-].
  exists wrappedDek, wrapNonce, dek, documentNonce. by rewrite Hdek, Hopen.
Qed.

End WithPrimitives.

Lemma decryptFromVault_authenticated_witness :
  let P := Reference.primitives in
  @decryptFromVault P Reference.sample_blob Reference.sample_meta Reference.key_a
  = Ok [x01; x02] /\
  exists wrappedDek wrapNonce dek documentNonce,
    decodeBase64 (wrapped_key (key_wrap Reference.sample_meta)) = Ok wrappedDek /\
    decodeBase64 (wrap_nonce (key_wrap Reference.sample_meta)) = Ok wrapNonce /\
    @nacl.secretbox_open P wrappedDek wrapNonce Reference.key_a = Ok (Some dek) /\
    decodeBase64 (vm_nonce Reference.sample_meta) = Ok documentNonce /\
    @nacl.secretbox_open P Reference.sample_blob documentNonce dek = Ok (Some [x01; x02]).
Proof.
  split; [vm_compute; reflexivity|].
  apply (@decryptFromVault_authenticated Reference.primitives Reference.sample_blob
           Reference.sample_meta Reference.key_a [x01; x02]).
  vm_compute; reflexivity.
Defined.

(** The functional contract of the primitives does not bind the key: under
    the reference primitives, whose tag covers the first half of the key,
    another 32-byte key opens the envelope.  That no other key does so under
    XSalsa20-Poly1305 is the security of that cipher and not a consequence of
    the contract. *)
Lemma contract_does_not_bind_key :
  let P := Reference.primitives in
  (@encryptForVault P [x01; x02] Reference.key_a Reference.counting_tape).1
  = Ok (Reference.sample_blob, Reference.sample_meta) /\
  length Reference.key_c = 32 /\ Reference.key_c <> Reference.key_a /\
  @decryptFromVault P Reference.sample_blob Reference.sample_meta Reference.key_c
  = Ok [x01; x02].
Proof.
  cbv zeta. split; [vm_compute; reflexivity|]. split; [reflexivity|].
  split; [|vm_compute; reflexivity].
  intros Heq. apply (f_equal (fun k => k !! 31)) in Heq. discriminate.
Qed.

Lemma framed_length (m : bytes) : length m <= 63 -> length (framed m) = 64.
Proof.
  intros Hm. unfold framed. cbn [length]. rewrite length_app, length_replicate. lia.
Qed.

Lemma framed_inj (m1 m2 : bytes) :
  length m1 <= 63 -> length m2 <= 63 -> framed m1 = framed m2 -> m1 = m2.
Proof.
  intros H1 H2 [= Hlen Hrest].
  apply (f_equal byte_val) in Hlen. rewrite !byte_val_of_Z in Hlen by lia.
  apply app_inj_1 in Hrest as [-> _]; [done|lia].
Qed.

Section WithLaws.
Context {P : Primitives} {L : PrimitivesLaws P}.

(** Authentication of one box cannot bind the key: whatever the cipher, with
    16 bytes of overhead there are a 32-byte message and two different
    32-byte keys such that the box made under the first key opens under the
    second.  (There are more pairs of message and key than boxes.) *)
Lemma some_wrong_key_unwraps (n : bytes) :
  length n = 24 ->
  exists dek k k' dek',
    length dek = 32 /\ length k = 32 /\ length k' = 32 /\ k' <> k /\
    crypto_secretbox_open (crypto_secretbox dek n k) n k' = Some dek'.
Proof.
  intros Hn.
  pose (box := fun m : bytes =>
          crypto_secretbox (take 32 (framed m)) n (drop 32 (framed m))).
  assert (forall m, length m <= 63 ->
            length (take 32 (framed m)) = 32 /\ length (drop 32 (framed m)) = 32)
    as Hhalves.
  { intros m Hm. pose proof (framed_length m Hm).
    rewrite length_take, length_drop. lia. }
  destruct (short_images_collide 48 box) as (m1 & m2 & Hm1 & Hm2 & Hne & Heq).
  { intros m Hm. unfold box. rewrite secretbox_length.
    destruct (Hhalves m) as [-> _]; lia. }
  destruct (Hhalves m1) as [Hd1 Hk1]; [lia|].
  destruct (Hhalves m2) as [Hd2 Hk2]; [lia|].
  exists (take 32 (framed m1)), (drop 32 (framed m1)), (drop 32 (framed m2)),
         (take 32 (framed m2)).
  repeat split; try done.
  - intros Hk. apply Hne. apply framed_inj; [lia|lia|].
    rewrite <- (take_drop 32 (framed m1)), <- (take_drop 32 (framed m2)).
    f_equal; [|by symmetry].
    pose proof (secretbox_open_secretbox (take 32 (framed m1)) n (drop 32 (framed m1))
                  Hk1 Hn) as Hopen1.
    pose proof (secretbox_open_secretbox (take 32 (framed m2)) n (drop 32 (framed m2))
                  Hk2 Hn) as Hopen2.
    fold (box m1) in Hopen1. fold (box m2) in Hopen2.
    rewrite Heq, <- Hk, Hopen2 in Hopen1. congruence.
  - fold (box m1). rewrite Heq. by apply secretbox_open_secretbox.
Qed.

(** [decryptSymmetric] inverts [encryptSymmetric] under the same 32-byte
    key, with a 24-byte nonce of the caller or a generated one. *)
Theorem decryptSymmetric_encryptSymmetric
    (plaintext key : bytes) (nonce : option bytes) (g : rng) :
  length key = 32 ->
  (forall n, nonce = Some n -> length n = 24) ->
  exists payload,
    (encryptSymmetric plaintext key nonce g).1 = Ok payload /\
    decryptSymmetric payload key = Ok plaintext.
Proof.
  intros Hkey Hnonce. unfold encryptSymmetric.
  set (drawn := match nonce with Some n => (n, g) | None => generateNonce g end).
  assert (length drawn.1 = 24) as Hlen.
  { unfold drawn. destruct nonce as [n|]; [by apply Hnonce|].
    apply randomBytes_length. }
  destruct drawn as [nonceBytes g']. cbn [fst] in *.
  rewrite secretbox_sized, bind_Ok by done.
  eexists. split; [reflexivity|].
  unfold decryptSymmetric. cbn [ciphertext Encrypt.nonce].
  rewrite !decodeBase64_encodeBase64, !bind_Ok.
  by rewrite secretbox_open_secretbox_sized, bind_Ok by done.
Qed.

(** The DID that [generateDid] returns decodes to the verify key it returns
    with it. *)
Theorem generateDid_round_trip (g : rng) :
  exists generated,
    (generateDid g).1 = Ok generated /\
    didToPublicKey (gd_did generated) = Ok (gd_verifyKey generated).
Proof.
  unfold generateDid, generateKeyPair, nacl.sign_keyPair.
  cbn [nacl.randomBytes fst verifyKey signingKey].
  set (seed := map g (seq 0 nacl.sign_seedLength)).
  assert (length seed = 32) as Hseed by (unfold seed; by rewrite length_map, length_seq).
  pose proof (sign_public_length seed Hseed) as Hpk.
  rewrite publicKeyToDid_32, bind_Ok by done.
  eexists. split; [reflexivity|]. by apply didToPublicKey_encoded.
Qed.

(** The envelope of [encryptForVault]: 16 bytes of overhead on the blob, the
    scheme name, two 24-byte nonces and a 48-byte wrapped key in base64. *)
Theorem encryptForVault_shape (plaintext documentKey : bytes) (g : rng) :
  length documentKey = 32 ->
  exists encryptedBlob encryptionMeta documentNonce wrappedDek dekNonce,
    (encryptForVault plaintext documentKey g).1 = Ok (encryptedBlob, encryptionMeta) /\
    length encryptedBlob = 16 + length plaintext /\
    vm_scheme encryptionMeta = "XSalsa20-Poly1305" /\
    decodeBase64 (vm_nonce encryptionMeta) = Ok documentNonce /\
    length documentNonce = 24 /\
    decodeBase64 (wrapped_key (key_wrap encryptionMeta)) = Ok wrappedDek /\
    length wrappedDek = 48 /\
    decodeBase64 (wrap_nonce (key_wrap encryptionMeta)) = Ok dekNonce /\
    length dekNonce = 24.
Proof.
  intros Hkey. unfold encryptForVault, generateKey, generateNonce.
  destruct (nacl.randomBytes nacl.secretbox_keyLength g) as [dek g1] eqn:Hdek.
  destruct (nacl.randomBytes nacl.secretbox_nonceLength g1) as [documentNonce g2] eqn:Hn1.
  destruct (nacl.randomBytes nacl.secretbox_nonceLength g2) as [dekNonce g3] eqn:Hn2.
  assert (length dek = 32) as Hdek_len
    by (change dek with (dek, g1).1; rewrite <- Hdek; apply randomBytes_length).
  assert (length documentNonce = 24) as Hn1_len
    by (change documentNonce with (documentNonce, g2).1; rewrite <- Hn1;
        apply randomBytes_length).
  assert (length dekNonce = 24) as Hn2_len
    by (change dekNonce with (dekNonce, g3).1; rewrite <- Hn2;
        apply randomBytes_length).
  rewrite (secretbox_sized plaintext), (secretbox_sized dek) by done.
  eexists _, _, documentNonce, (crypto_secretbox dek dekNonce documentKey), dekNonce.
  split; [reflexivity|]. cbn [vm_scheme vm_nonce key_wrap wrapped_key wrap_nonce].
  rewrite !decodeBase64_encodeBase64, !secretbox_length, Hdek_len.
  repeat split; done.
Qed.

End WithLaws.

Lemma decryptSymmetric_encryptSymmetric_witness :
  let P := Reference.primitives in
  length Reference.key_a = 32 /\
  (forall n, @None bytes = Some n -> length n = 24) /\
  exists payload,
    (@encryptSymmetric P [x01; x02] Reference.key_a None Reference.counting_tape).1
    = Ok payload /\
    @decryptSymmetric P payload Reference.key_a = Ok [x01; x02].
Proof.
  split; [reflexivity|]. split; [discriminate|].
  apply (@decryptSymmetric_encryptSymmetric Reference.primitives
           ReferenceFacts.reference_laws [x01; x02] Reference.key_a None
           Reference.counting_tape); [reflexivity|discriminate].
Defined.

Lemma generateDid_round_trip_witness :
  exists generated,
    (@generateDid Reference.primitives Reference.counting_tape).1 = Ok generated /\
    didToPublicKey (gd_did generated) = Ok (gd_verifyKey generated).
Proof.
  exact (@generateDid_round_trip Reference.primitives ReferenceFacts.reference_laws
           Reference.counting_tape).
Defined.

Lemma encryptForVault_shape_witness :
  let P := Reference.primitives in
  length Reference.key_a = 32 /\
  exists encryptedBlob encryptionMeta documentNonce wrappedDek dekNonce,
    (@encryptForVault P [] Reference.key_a Reference.counting_tape).1
    = Ok (encryptedBlob, encryptionMeta) /\
    length encryptedBlob = 16 + length (@nil byte) /\
    vm_scheme encryptionMeta = "XSalsa20-Poly1305" /\
    decodeBase64 (vm_nonce encryptionMeta) = Ok documentNonce /\
    length documentNonce = 24 /\
    decodeBase64 (wrapped_key (key_wrap encryptionMeta)) = Ok wrappedDek /\
    length wrappedDek = 48 /\
    decodeBase64 (wrap_nonce (key_wrap encryptionMeta)) = Ok dekNonce /\
    length dekNonce = 24.
Proof.
  split; [reflexivity|].
  apply (@encryptForVault_shape Reference.primitives ReferenceFacts.reference_laws
           [] Reference.key_a Reference.counting_tape).
  reflexivity.
Defined.

End FurtherFacts.

(** * The rest of the crypto library, the stores and the passphrase flows *)

(** ** Strings *)

Module StringFacts.

Lemma string_app_cons (c : ascii) (s t : string) : String c s +:+ t = String c (s +:+ t).
Proof. reflexivity. Qed.

Lemma string_app_nil (t : string) : EmptyString +:+ t = t.
Proof. reflexivity. Qed.

Lemma list_ascii_app (s t : string) :
  list_ascii_of_string (s +:+ t) = list_ascii_of_string s ++ list_ascii_of_string t.
Proof.
  induction s as [|c s IH]; [done|].
  rewrite string_app_cons. cbn [list_ascii_of_string app]. by rewrite IH.
Qed.

Lemma string_of_list_ascii_app (l1 l2 : list ascii) :
  string_of_list_ascii (l1 ++ l2) = string_of_list_ascii l1 +:+ string_of_list_ascii l2.
Proof.
  induction l1 as [|c l1 IH]; [done|].
  cbn [app string_of_list_ascii]. rewrite IH. done.
Qed.

End StringFacts.

(** ** base58 on strings: decoding, then encoding *)

Module Base58Strings.
Import Base58 Base58Facts.
Local Open Scope Z_scope.

Lemma indexOf_from_range (c : ascii) (s : string) (i : Z) :
  indexOf_from c s i = -1 \/
  i <= indexOf_from c s i < i + Z.of_nat (String.length s).
Proof.
  revert i. induction s as [|a s IH]; intros i; cbn [indexOf_from String.length].
  - by left.
  - destruct (Ascii.eqb a c); [right; lia|].
    destruct (IH (i + 1)) as [->|?]; [by left|right; lia].
Qed.

Lemma indexOf_from_char_at (c : ascii) (s : string) (i : Z) :
  indexOf_from c s i <> -1 -> 0 <= i ->
  char_at s (indexOf_from c s i - i) = c.
Proof.
  revert i. induction s as [|a s IH]; intros i Hfound Hi; cbn [indexOf_from] in *.
  - done.
  - destruct (Ascii.eqb_spec a c) as [->|Hne].
    + by rewrite Z.sub_diag.
    + specialize (IH (i + 1) Hfound ltac:(lia)).
      destruct (indexOf_from_range c s (i + 1)) as [?|Hr]; [done|].
      unfold char_at in *.
      replace (Z.to_nat (indexOf_from c s (i + 1) - i))
        with (S (Z.to_nat (indexOf_from c s (i + 1) - (i + 1)))) by lia.
      exact IH.
Qed.

Lemma alphabet_char_at_index (c : ascii) :
  not_base58 c = false ->
  0 <= indexOf BASE58_ALPHABET c < 58 /\
  char_at BASE58_ALPHABET (indexOf BASE58_ALPHABET c) = c.
Proof.
  unfold not_base58, indexOf. intros Hc%Z.eqb_neq. split.
  - destruct (indexOf_from_range c BASE58_ALPHABET 0) as [?|Hr]; [done|].
    change (Z.of_nat (String.length BASE58_ALPHABET)) with 58 in Hr. lia.
  - rewrite <- (Z.sub_0_r (indexOf_from c BASE58_ALPHABET 0)) at 1.
    by apply indexOf_from_char_at.
Qed.

Lemma digits_value_from (chars : list ascii) (init : Z) :
  fold_left (fun num c => num * 58 + indexOf BASE58_ALPHABET c) chars init =
    init * 58 ^ Z.of_nat (length chars) + digits_value chars.
Proof.
  unfold digits_value. revert init.
  induction chars as [|c chars IH]; intros init; cbn [fold_left length].
  - lia.
  - rewrite IH, (IH (0 * 58 + _)), Nat2Z.inj_succ, Z.pow_succ_r by lia. lia.
Qed.

Lemma digits_value_snoc (chars : list ascii) (c : ascii) :
  digits_value (chars ++ [c]) = digits_value chars * 58 + indexOf BASE58_ALPHABET c.
Proof. unfold digits_value. by rewrite fold_left_app. Qed.

Lemma digits_value_cons (c : ascii) (chars : list ascii) :
  digits_value (c :: chars) =
    indexOf BASE58_ALPHABET c * 58 ^ Z.of_nat (length chars) + digits_value chars.
Proof. unfold digits_value at 1. cbn [fold_left]. by rewrite digits_value_from. Qed.

Lemma digits_value_bound (chars : list ascii) :
  forallb (fun c => negb (not_base58 c)) chars = true ->
  0 <= digits_value chars < 58 ^ Z.of_nat (length chars).
Proof.
  induction chars as [|c chars IH]; cbn [forallb length];
    [by unfold digits_value|].
  intros [Hc%negb_true_iff Hv]%andb_true_iff. specialize (IH Hv).
  destruct (alphabet_char_at_index c Hc) as [Hi _].
  rewrite digits_value_cons, Nat2Z.inj_succ, Z.pow_succ_r by lia. nia.
Qed.

(** On a string of alphabet characters the first loop does not throw. *)
Lemma decode_loop_value (chars : list ascii) (num : Z) :
  forallb (fun c => negb (not_base58 c)) chars = true ->
  decode_loop chars num =
    Ok (fold_left (fun num c => num * 58 + indexOf BASE58_ALPHABET c) chars num).
Proof.
  revert num. induction chars as [|c chars IH]; intros num; cbn [forallb decode_loop fold_left];
    [done|].
  intros [Hc%negb_true_iff Hv]%andb_true_iff.
  unfold not_base58 in Hc. rewrite Hc. by apply IH.
Qed.

Lemma decode_loop_valid (chars : list ascii) (num n : Z) :
  decode_loop chars num = Ok n ->
  forallb (fun c => negb (not_base58 c)) chars = true.
Proof.
  revert num. induction chars as [|c chars IH]; intros num; cbn [forallb decode_loop];
    [done|].
  destruct (Z.eqb_spec (indexOf BASE58_ALPHABET c) (-1)) as [|Hc]; [discriminate|].
  intros H. apply andb_true_iff. split; [|by eapply IH].
  unfold not_base58. by apply negb_true_iff, Z.eqb_neq.
Qed.

(** A digit string whose first digit is not zero has a positive value. *)
Lemma digits_value_positive (c : ascii) (chars : list ascii) :
  forallb (fun c => negb (not_base58 c)) (c :: chars) = true ->
  c <> char_at BASE58_ALPHABET 0 ->
  58 ^ Z.of_nat (length chars) <= digits_value (c :: chars).
Proof.
  cbn [forallb]. intros [Hc%negb_true_iff Hv]%andb_true_iff Hne.
  destruct (alphabet_char_at_index c Hc) as [Hi Hchar].
  pose proof (digits_value_bound chars Hv).
  assert (indexOf BASE58_ALPHABET c <> 0) by (intros H0; by rewrite H0 in Hchar).
  rewrite digits_value_cons. nia.
Qed.

(** The division loop of [base58Encode] writes a digit string without
    leading zero back, last digit first. *)
Lemma encode_loop_digits (chars : list ascii) :
  forallb (fun c => negb (not_base58 c)) chars = true ->
  count_leading_ones chars = 0%nat ->
  forall fuel : nat, digits_value chars < 2 ^ Z.of_nat fuel ->
  encode_loop fuel (digits_value chars) [] = rev chars.
Proof.
  induction chars as [|c chars IH] using rev_ind; intros Hv Hlead fuel Hfuel.
  - apply encode_loop_zero.
  - rewrite forallb_app in Hv. apply andb_true_iff in Hv as [Hv Hc].
    cbn [forallb] in Hc. rewrite andb_true_r in Hc. apply negb_true_iff in Hc.
    destruct (alphabet_char_at_index c Hc) as [Hi Hchar].
    pose proof (digits_value_bound chars Hv) as Hb.
    assert (0 < digits_value (chars ++ [c])) as Hpos.
    { destruct chars as [|c0 chars].
      - cbn [app] in *. cbn [count_leading_ones] in Hlead.
        destruct (Ascii.eqb_spec c (char_at BASE58_ALPHABET 0)) as [|Hne]; [done|].
        pose proof (digits_value_positive c [] ltac:(cbn; by rewrite Hc) Hne).
        cbn [length] in *. lia.
      - cbn [app count_leading_ones] in Hlead.
        destruct (Ascii.eqb_spec c0 (char_at BASE58_ALPHABET 0)) as [|Hne]; [done|].
        assert (forallb (fun c => negb (not_base58 c)) (c0 :: chars ++ [c]) = true) as Hall.
        { change (c0 :: chars ++ [c]) with ((c0 :: chars) ++ [c]).
          rewrite forallb_app, Hv. cbn. by rewrite Hc. }
        pose proof (digits_value_positive c0 (chars ++ [c]) Hall Hne).
        assert (0 < 58 ^ Z.of_nat (length (chars ++ [c]))) by (apply Z.pow_pos_nonneg; lia).
        change ((c0 :: chars) ++ [c]) with (c0 :: chars ++ [c]). lia. }
    rewrite digits_value_snoc in *.
    destruct fuel as [|fuel]; [simpl in Hfuel; lia|].
    rewrite encode_loop_step by done.
    replace ((digits_value chars * 58 + indexOf BASE58_ALPHABET c) mod 58)
      with (indexOf BASE58_ALPHABET c) by div_lia.
    replace ((digits_value chars * 58 + indexOf BASE58_ALPHABET c) / 58)
      with (digits_value chars) by div_lia.
    rewrite Hchar, rev_unit. f_equal.
    rewrite Nat2Z.inj_succ, Z.pow_succ_r in Hfuel by lia.
    apply IH; [done| |lia].
    destruct chars as [|c0 chars]; [done|].
    cbn [app count_leading_ones] in *. by destruct (Ascii.eqb c0 _).
Qed.

(** The bytes the last loop of [base58Decode] writes are the number again. *)
Lemma bigint_of_byte_at (n : nat) (num : Z) :
  0 <= num < 256 ^ Z.of_nat n ->
  bigint_of_bytes (rev (map (byte_at num) (seq 0 n))) = num.
Proof.
  revert num. induction n as [|n IH]; intros num Hnum.
  - simpl in *. unfold bigint_of_bytes. simpl. lia.
  - rewrite Nat2Z.inj_succ, Z.pow_succ_r in Hnum by lia.
    cbn [seq map rev]. rewrite <- seq_shift, map_map.
    assert (num = num / 256 * 256 + byte_val (byte_of_Z (num mod 256))) as Hsplit.
    { rewrite byte_val_of_Z by div_lia. div_lia. }
    rewrite bigint_snoc.
    rewrite (map_ext (fun i => byte_at num (S i)) (byte_at (num / 256))).
    2:{ intros i. rewrite Hsplit at 1. apply byte_at_succ. }
    rewrite IH by div_lia.
    replace (byte_at num 0) with (byte_of_Z (num mod 256)); [lia|].
    rewrite Hsplit at 2. by rewrite byte_at_zero.
Qed.

Lemma byte_length_exists (num : Z) :
  0 < num -> exists n : nat, 256 ^ Z.of_nat n <= num < 256 ^ Z.of_nat (S n).
Proof.
  intros Hpos. destruct (Z.log2_spec num Hpos) as [Hlo Hhi].
  pose proof (Z.log2_nonneg num) as Hnn.
  exists (Z.to_nat (Z.log2 num / 8)).
  change 256 with (2 ^ 8). rewrite <- !Z.pow_mul_r by lia. split.
  - etransitivity; [|exact Hlo]. apply Z.pow_le_mono_r; [lia|]. div_lia.
  - eapply Z.lt_le_trans; [exact Hhi|]. apply Z.pow_le_mono_r; [lia|]. div_lia.
Qed.

Lemma leading_zero_bytes_replicate (k : nat) (b : byte) (rest : bytes) :
  byte_val b <> 0 -> leading_zero_bytes (replicate k x00 ++ b :: rest) = k.
Proof.
  intros Hb. induction k as [|k IH]; cbn [replicate app leading_zero_bytes].
  - by destruct (Z.eqb_spec (byte_val b) 0).
  - by rewrite IH.
Qed.

Lemma count_leading_ones_split (chars : list ascii) :
  chars = replicate (count_leading_ones chars) (char_at BASE58_ALPHABET 0) ++
          drop (count_leading_ones chars) chars /\
  count_leading_ones (drop (count_leading_ones chars) chars) = 0%nat.
Proof.
  induction chars as [|c chars [IH1 IH2]]; [done|]. cbn [count_leading_ones].
  destruct (Ascii.eqb_spec c (char_at BASE58_ALPHABET 0)) as [->|Hne].
  - cbn [replicate app drop]. split; [by rewrite <- IH1|done].
  - cbn [replicate app drop count_leading_ones].
    by destruct (Ascii.eqb_spec c (char_at BASE58_ALPHABET 0)).
Qed.

Lemma digits_value_ones (k : nat) (chars : list ascii) :
  digits_value (replicate k (char_at BASE58_ALPHABET 0) ++ chars) = digits_value chars.
Proof.
  unfold digits_value at 1. rewrite fold_left_app.
  fold (digits_value (replicate k (char_at BASE58_ALPHABET 0))).
  rewrite digits_value_from.
  assert (digits_value (replicate k (char_at BASE58_ALPHABET 0)) = 0) as ->; [|lia].
  induction k as [|k IH]; [done|]. cbn [replicate]. rewrite digits_value_cons, IH.
  rewrite alphabet_index; lia.
Qed.

Lemma valid_find (chars : list ascii) :
  List.find not_base58 chars = None <->
  forallb (fun c => negb (not_base58 c)) chars = true.
Proof.
  induction chars as [|c chars IH]; cbn [List.find forallb]; [done|].
  destruct (not_base58 c); cbn [negb andb]; [done|exact IH].
Qed.

(** What [base58Decode] returns on a string of alphabet characters whose
    value is not zero: one zero byte per leading [1], then the bytes of the
    value; and [base58Encode] writes that string back. *)
Lemma base58Decode_digits (k : nat) (chars : list ascii) :
  forallb (fun c => negb (not_base58 c)) chars = true ->
  count_leading_ones chars = 0%nat -> chars <> [] ->
  let s := string_of_list_ascii (replicate k (char_at BASE58_ALPHABET 0) ++ chars) in
  exists (n : nat) (b : byte) (rest : bytes),
    byte_val b <> 0 /\ length rest = n /\
    bigint_of_bytes (b :: rest) = digits_value chars /\
    base58Decode s = Ok (replicate k x00 ++ b :: rest) /\
    base58Encode (replicate k x00 ++ b :: rest) = s.
Proof.
  intros Hv Hlead Hne s.
  destruct chars as [|c0 chars']; [done|].
  assert (0 < digits_value (c0 :: chars')) as Hpos.
  { pose proof Hlead as Hlead'. cbn [count_leading_ones] in Hlead'.
    destruct (Ascii.eqb_spec c0 (char_at BASE58_ALPHABET 0)) as [|Hc0]; [done|].
    pose proof (digits_value_positive c0 chars' Hv Hc0).
    assert (0 < 58 ^ Z.of_nat (length chars')) by (apply Z.pow_pos_nonneg; lia).
    lia. }
  set (chars := c0 :: chars') in *.
  set (num := digits_value chars) in *.
  destruct (byte_length_exists num Hpos) as [n Hn].
  pose proof (bigint_of_byte_at (S n) num ltac:(lia)) as Hbig.
  destruct (rev (map (byte_at num) (seq 0 (S n)))) as [|b rest] eqn:Hbytes.
  { apply (f_equal (@length byte)) in Hbytes.
    by rewrite length_rev, length_map, length_seq in Hbytes. }
  assert (length rest = n) as Hrest.
  { apply (f_equal (@length byte)) in Hbytes.
    rewrite length_rev, length_map, length_seq in Hbytes. cbn [length] in Hbytes. lia. }
  assert (byte_val b <> 0) as Hb.
  { intros Hb0. rewrite bigint_cons, Hb0, Hrest in Hbig.
    pose proof (bigint_bound rest) as Hr. rewrite Hrest in Hr. lia. }
  exists n, b, rest. split; [done|]. split; [done|]. split; [done|].
  assert (base58Decode s = Ok (replicate k x00 ++ b :: rest)) as Hdec.
  { unfold base58Decode, s.
    rewrite string_of_list_ascii_nonempty, list_ascii_of_string_of_list_ascii.
    2:{ intros Happ. by apply app_eq_nil in Happ as [_ ?]. }
    rewrite decode_loop_value.
    2:{ rewrite forallb_app, Hv, andb_true_r. clear.
        induction k as [|k IH]; [done|]. cbn [replicate forallb]. by rewrite IH. }
    fold (digits_value (replicate k (char_at BASE58_ALPHABET 0) ++ chars)).
    rewrite digits_value_ones, bind_Ok. fold num.
    destruct (Z.eqb_spec num 0) as [|_]; [lia|].
    rewrite count_leading_ones_replicate, Hlead, Nat.add_0_r.
    rewrite (byte_length_spec num n Hn), fill_bytes_spec.
    by rewrite Hbytes. }
  split; [exact Hdec|].
  rewrite base58Encode_nonzero.
  2:{ rewrite bigint_leading_zeros, Hbig. lia. }
  rewrite bigint_leading_zeros, Hbig, leading_zero_bytes_replicate by done.
  unfold s. do 2 f_equal. unfold num.
  rewrite encode_loop_digits; [by rewrite rev_involutive|done|done|].
  by apply encode_fuel_enough.
Qed.

End Base58Strings.

Module Base58Inverse.
Import Base58 Base58Facts Base58Strings DidFacts.
Local Open Scope Z_scope.

Lemma replicate_ones_value (k : nat) :
  digits_value (replicate k (char_at BASE58_ALPHABET 0)) = 0.
Proof. rewrite <- (app_nil_r (replicate k _)). by rewrite digits_value_ones. Qed.

(** The two ways [base58Decode] succeeds: on a string of [1]s only (the
    empty one included) it returns as many zero bytes; on any other string
    of alphabet characters it returns bytes, one of them not zero, that
    [base58Encode] turns into the string again. *)
Lemma base58Decode_cases (s : string) (decoded : bytes) :
  base58Decode s = Ok decoded ->
  (list_ascii_of_string s =
     replicate (String.length s) (char_at BASE58_ALPHABET 0) /\
   decoded = replicate (String.length s) x00) \/
  ((exists c, c ∈ list_ascii_of_string s /\ c <> char_at BASE58_ALPHABET 0) /\
   (exists b, b ∈ decoded /\ b <> x00) /\
   base58Encode decoded = s).
Proof.
  intros Hdec. pose proof Hdec as Hdec'. unfold base58Decode in Hdec.
  destruct (String.eqb_spec s "") as [->|Hne]; [left; by injection Hdec as <-|].
  set (chars := list_ascii_of_string s) in *.
  destruct (decode_loop chars 0) as [num|] eqn:Hloop; [|discriminate].
  pose proof (decode_loop_valid _ _ _ Hloop) as Hv.
  destruct (count_leading_ones_split chars) as [Hsplit Hlead].
  set (k := count_leading_ones chars) in *.
  destruct (drop k chars) as [|c0 t] eqn:Ht.
  - left. rewrite app_nil_r in Hsplit.
    assert (String.length s = k) as ->.
    { rewrite <- (string_of_list_ascii_of_string s), string_of_list_ascii_length.
      fold chars. rewrite Hsplit at 1. apply length_replicate. }
    split; [done|].
    rewrite decode_loop_value in Hloop by done. injection Hloop as <-.
    fold (digits_value chars) in Hdec. rewrite bind_Ok in Hdec.
    rewrite Hsplit, replicate_ones_value in Hdec at 1. by injection Hdec as <-.
  - right.
    assert (forallb (fun c => negb (not_base58 c)) (c0 :: t) = true) as Hvt.
    { rewrite Hsplit, forallb_app in Hv. by apply andb_true_iff in Hv as [_ ?]. }
    destruct (base58Decode_digits k (c0 :: t) Hvt Hlead ltac:(done))
      as (n & b & rest & Hb & _ & _ & Hd & He).
    rewrite <- Hsplit in Hd, He. unfold chars in Hd, He.
    rewrite string_of_list_ascii_of_string in Hd, He.
    rewrite Hdec' in Hd. injection Hd as ->. split; [|split; [|done]].
    + exists c0. split.
      * rewrite Hsplit. apply elem_of_app. right. apply list_elem_of_here.
      * cbn [count_leading_ones] in Hlead.
        by destruct (Ascii.eqb_spec c0 (char_at BASE58_ALPHABET 0)).
    + exists b. split; [apply elem_of_app; right; apply list_elem_of_here|].
      by intros ->.
Qed.

(** [base58Encode] inverts [base58Decode] exactly on the strings of alphabet
    characters that are the single character [1] or contain another
    character than [1]. *)
Theorem base58Encode_base58Decode (s : string) :
  (exists decoded, base58Decode s = Ok decoded /\ base58Encode decoded = s) <->
  List.find not_base58 (list_ascii_of_string s) = None /\
  (s = "1" \/ exists c, c ∈ list_ascii_of_string s /\ c <> "1"%char).
Proof.
  split.
  - intros (decoded & Hdec & Henc). split.
    + pose proof (base58Decode_find s) as Hfind.
      destruct (List.find not_base58 _); [congruence|done].
    + destruct (base58Decode_cases s decoded Hdec) as [[_ ->]|[Hc _]]; [|by right].
      left. rewrite <- Henc. unfold base58Encode.
      replace (bigint_of_bytes (replicate (String.length s) x00)) with 0; [done|].
      symmetry. rewrite <- (app_nil_r (replicate _ _)). apply bigint_leading_zeros.
  - intros [Hv [->|(c & Hin & Hc)]]; [by exists [x00]|].
    apply valid_find in Hv.
    destruct (count_leading_ones_split (list_ascii_of_string s)) as [Hsplit Hlead].
    set (chars := list_ascii_of_string s) in *.
    set (k := count_leading_ones chars) in *.
    destruct (drop k chars) as [|c0 t] eqn:Ht.
    { rewrite app_nil_r in Hsplit. rewrite Hsplit in Hin.
      by apply elem_of_replicate in Hin as [-> _]. }
    assert (forallb (fun c => negb (not_base58 c)) (c0 :: t) = true) as Hvt.
    { rewrite Hsplit, forallb_app in Hv. by apply andb_true_iff in Hv as [_ ?]. }
    destruct (base58Decode_digits k (c0 :: t) Hvt Hlead ltac:(done))
      as (n & b & rest & _ & _ & _ & Hd & He).
    rewrite <- Hsplit in Hd, He. unfold chars in Hd, He.
    rewrite string_of_list_ascii_of_string in Hd, He. eauto.
Qed.

End Base58Inverse.

(** ** DIDs: the two conversions are inverse, and the shape of a DID *)

Module DidInverse.
Import Base58 Base58Facts Base58Strings Base58Inverse Did DidFacts.

Lemma startsWith_slice (p s : string) :
  startsWith s p = true -> s = p +:+ string_slice (String.length p) s.
Proof.
  unfold startsWith, string_slice. revert s.
  induction p as [|a p IH]; intros s.
  - intros _. cbn [String.length String.app]. by rewrite Nat.sub_0_r, substring_all.
  - destruct s as [|b s]; cbn [String.prefix String.length String.app]; [discriminate|].
    destruct (ascii_dec a b) as [->|]; [|discriminate].
    intros Hp. simpl.
    change (String b s =
            String b (p +:+ substring (String.length p) (String.length s - String.length p) s)).
    f_equal. by apply IH.
Qed.

(** [didToPublicKey] and [publicKeyToDid] are inverse to each other: a
    string decodes to a key exactly when it is the DID of that key. *)
Theorem didToPublicKey_iff_publicKeyToDid (did : string) (publicKey : bytes) :
  didToPublicKey did = Ok publicKey <-> publicKeyToDid publicKey = Ok did.
Proof.
  split.
  - unfold didToPublicKey.
    destruct (startsWith did "did:key:z") eqn:Hstart; [|discriminate]. cbn [negb].
    destruct (base58Decode (string_slice 9 did)) as [decoded|] eqn:Hdec; [|discriminate].
    rewrite bind_Ok.
    destruct (bool_decide_reflect (decoded !! 0%nat = ED25519_MULTICODEC_PREFIX !! 0%nat))
      as [H0|]; [|discriminate].
    destruct (bool_decide_reflect (decoded !! 1%nat = ED25519_MULTICODEC_PREFIX !! 1%nat))
      as [H1|]; [|discriminate].
    cbn [negb orb].
    destruct (Nat.eqb_spec (length (drop 2 decoded)) 32) as [Hlen|]; [|discriminate].
    intros [= <-].
    unfold ED25519_MULTICODEC_PREFIX in H0, H1.
    destruct decoded as [|b0 [|b1 key]]; simpl in H0, H1; [discriminate..|].
    injection H0 as ->. injection H1 as ->. cbn [drop] in *.
    rewrite publicKeyToDid_32 by done. f_equal.
    rewrite (startsWith_slice _ _ Hstart) at 1. f_equal.
    destruct (base58Decode_cases _ _ Hdec) as [[_ Hz]|(_ & _ & Henc)]; [|exact Henc].
    destruct (String.length (string_slice 9 did)); discriminate.
  - intros Hdid. destruct (Nat.eq_dec (length publicKey) 32) as [Hlen|Hlen].
    + rewrite publicKeyToDid_32 in Hdid by done. injection Hdid as <-.
      by apply didToPublicKey_encoded.
    + unfold publicKeyToDid in Hdid.
      by destruct (Nat.eqb_spec (length publicKey) 32).
Qed.

End DidInverse.

Module DidShape.
Import StringFacts Base58 Base58Facts Base58Strings Did DidFacts.
Local Open Scope Z_scope.

(** [k] turns of the division loop push the [k] last digits and leave the
    number divided by [58 ^ k]. *)
Lemma encode_loop_peel (k fuel : nat) (num : Z) :
  58 ^ Z.of_nat k <= num ->
  exists digits,
    length digits = k /\
    encode_loop (k + fuel) num [] = digits ++ encode_loop fuel (num / 58 ^ Z.of_nat k) [].
Proof.
  revert num. induction k as [|k IH]; intros num Hnum.
  - exists []. split; [done|]. cbn [app Nat.add]. by rewrite Z.div_1_r.
  - rewrite Nat2Z.inj_succ, Z.pow_succ_r in * by lia.
    assert (0 < 58 ^ Z.of_nat k) as Hpow by (apply Z.pow_pos_nonneg; lia).
    cbn [Nat.add]. rewrite encode_loop_step by lia.
    destruct (IH (num / 58)) as (digits & Hlen & Hloop).
    { apply Z.div_le_lower_bound; lia. }
    exists (char_at BASE58_ALPHABET (num mod 58) :: digits).
    split; [cbn [length]; by rewrite Hlen|].
    rewrite Hloop, Z.div_div by lia. done.
Qed.

(** Every DID of [publicKeyToDid] is [did:key:z6Mk] followed by 44 more
    characters. *)
Theorem publicKeyToDid_shape (publicKey : bytes) (did : string) :
  publicKeyToDid publicKey = Ok did ->
  exists tail, did = "did:key:z6Mk" +:+ tail /\ String.length tail = 44%nat.
Proof.
  intros Hdid. destruct (Nat.eq_dec (length publicKey) 32%nat) as [Hlen|Hlen].
  2:{ unfold publicKeyToDid in Hdid.
      by destruct (Nat.eqb_spec (length publicKey) 32%nat). }
  rewrite publicKeyToDid_32 in Hdid by done. injection Hdid as <-.
  pose proof (multicodec_nonzero publicKey) as Hnz.
  rewrite base58Encode_nonzero by done.
  change (ED25519_MULTICODEC_PREFIX ++ publicKey) with (xed :: x01 :: publicKey) in *.
  set (num := bigint_of_bytes (xed :: x01 :: publicKey)) in *.
  assert (60673 * 256 ^ 32 <= num < 60674 * 256 ^ 32) as Hnum.
  { unfold num.
    rewrite !bigint_cons. cbn [length]. rewrite Hlen.
    pose proof (bigint_bound publicKey) as Hb. rewrite Hlen in Hb.
    change (byte_val xed) with 237. change (byte_val x01) with 1.
    change (Z.of_nat 32) with 32 in *. change (Z.of_nat 33) with 33. lia. }
  assert (encode_fuel num = (44 + 228)%nat) as ->.
  { unfold encode_fuel. rewrite (Z.log2_unique num 271); [done|lia|lia]. }
  destruct (encode_loop_peel 44 228 num) as (digits & Hdigits & ->).
  { change (Z.of_nat 44) with 44. lia. }
  assert (num / 58 ^ Z.of_nat 44 = 18023) as ->.
  { change (Z.of_nat 44) with 44. symmetry.
    apply (Z.div_unique num (58 ^ 44) 18023 (num - 18023 * 58 ^ 44)); lia. }
  change (encode_loop 228 18023 []) with ["k"; "M"; "6"]%char.
  change (leading_zero_bytes (xed :: x01 :: publicKey)) with 0%nat.
  cbn [replicate app]. rewrite rev_app_distr. cbn [rev app].
  exists (string_of_list_ascii (rev digits)). split; [done|].
  by rewrite string_of_list_ascii_length, length_rev.
Qed.

Lemma publicKeyToDid_shape_witness :
  exists did,
    publicKeyToDid Reference.key_a = Ok did /\
    exists tail, did = "did:key:z6Mk" +:+ tail /\ String.length tail = 44%nat.
Proof.
  eexists. split; [vm_compute; reflexivity|].
  apply (publicKeyToDid_shape Reference.key_a). vm_compute. reflexivity.
Defined.

End DidShape.

(** ** [createVerificationMethod] *)

Module VerificationMethod.
Import Base58 Base58Facts Base58Strings Did DidFacts.

Lemma string_split_nonempty (sep : ascii) (s : string) : string_split sep s <> [].
Proof.
  destruct s as [|a s]; cbn [string_split]; [done|].
  destruct (Ascii.eqb a sep); [done|]. by destruct (string_split sep s).
Qed.

Lemma string_split_app (sep : ascii) (p m : string) :
  string_split sep (p +:+ String sep m) = string_split sep p ++ string_split sep m.
Proof.
  induction p as [|a p IH].
  - change (EmptyString +:+ String sep m) with (String sep m).
    cbn [string_split]. by rewrite Ascii.eqb_refl.
  - change (String a p +:+ String sep m) with (String a (p +:+ String sep m)).
    cbn [string_split]. rewrite IH.
    destruct (Ascii.eqb a sep); [done|].
    pose proof (string_split_nonempty sep p).
    by destruct (string_split sep p).
Qed.

Lemma string_split_none (sep : ascii) (m : string) :
  sep ∉ list_ascii_of_string m -> string_split sep m = [m].
Proof.
  induction m as [|a m IH]; [done|]. cbn [list_ascii_of_string string_split].
  intros Hnot. apply not_elem_of_cons in Hnot as [Hne Hnot].
  destruct (Ascii.eqb_spec a sep) as [->|_]; [done|]. by rewrite IH.
Qed.

Lemma last_app_nonempty {A} (l1 l2 : list A) (d : A) :
  l2 <> [] -> List.last (l1 ++ l2) d = List.last l2 d.
Proof.
  intros Hne. induction l1 as [|a l1 IH]; [done|].
  cbn [app List.last]. destruct (l1 ++ l2) eqn:Happ; [|done].
  by apply app_eq_nil in Happ as [_ ?].
Qed.

Lemma createVerificationMethod_split (prefix methodId : string) :
  ":"%char ∉ list_ascii_of_string methodId ->
  createVerificationMethod (prefix +:+ ":" +:+ methodId) =
    (prefix +:+ ":" +:+ methodId) +:+ "#" +:+ methodId.
Proof.
  intros Hnot. unfold createVerificationMethod, Array_pop.
  change (":" +:+ methodId) with (String ":" methodId).
  rewrite string_split_app, (string_split_none ":" methodId) by done.
  by rewrite last_app_nonempty.
Qed.

(** [base58Encode] writes alphabet characters only. *)
Lemma base58Encode_alphabet (data : bytes) (c : ascii) :
  c ∈ list_ascii_of_string (base58Encode data) -> not_base58 c = false.
Proof.
  intros Hin.
  assert (exists decoded, base58Decode (base58Encode data) = Ok decoded) as [decoded Hdec].
  { destruct (Z.eq_dec (bigint_of_bytes data) 0%Z) as [Hz|Hnz].
    - exists [x00]. by apply base58_roundtrip_zero.
    - exists data. by apply base58_roundtrip_nonzero. }
  pose proof (base58Decode_find (base58Encode data)) as Hfind.
  destruct (List.find not_base58 _) eqn:Hf; [congruence|].
  apply valid_find in Hf. rewrite forallb_forall in Hf.
  apply negb_true_iff, Hf. by apply list_elem_of_In.
Qed.

(** The method id of [createVerificationMethod] is the text after the last
    colon, and a string without a colon is its own method id; for a DID of
    [publicKeyToDid] it is the multibase key [z...] of the DID. *)
Theorem createVerificationMethod_method_id :
  (forall prefix methodId,
     ":"%char ∉ list_ascii_of_string methodId ->
     createVerificationMethod (prefix +:+ ":" +:+ methodId) =
       (prefix +:+ ":" +:+ methodId) +:+ "#" +:+ methodId /\
     createVerificationMethod methodId = methodId +:+ "#" +:+ methodId) /\
  (forall publicKey did,
     publicKeyToDid publicKey = Ok did ->
     createVerificationMethod did =
       did +:+ "#z" +:+ base58Encode (ED25519_MULTICODEC_PREFIX ++ publicKey)).
Proof.
  split.
  - intros prefix methodId Hnot. split; [by apply createVerificationMethod_split|].
    unfold createVerificationMethod, Array_pop. by rewrite string_split_none.
  - intros publicKey did Hdid.
    destruct (Nat.eq_dec (length publicKey) 32) as [Hlen|Hlen].
    2:{ unfold publicKeyToDid in Hdid. by destruct (Nat.eqb_spec (length publicKey) 32). }
    rewrite publicKeyToDid_32 in Hdid by done. injection Hdid as <-.
    set (encoded := base58Encode (ED25519_MULTICODEC_PREFIX ++ publicKey)).
    apply (createVerificationMethod_split "did:key" (String "z" encoded)).
    cbn [list_ascii_of_string]. intros [Hz|Hin]%elem_of_cons; [discriminate|].
    by apply base58Encode_alphabet in Hin.
Qed.

End VerificationMethod.

(** ** Signatures in base64 *)

Module SignBase64.
Import NaclUtil Base64Facts Did SignFacts.

Section WithLaws.
Context {P : Primitives} {L : PrimitivesLaws P}.

(** [signMessage] needs a 64-byte signing key and then returns the 64 bytes
    that [nacl.sign] puts in front of the message. *)
Theorem signMessage_outcome (message signingKey : bytes) :
  (length signingKey <> 64 ->
     signMessage message signingKey = Throw (Error "bad secret key size")) /\
  (length signingKey = 64 ->
     exists signature,
       signMessage message signingKey = Ok signature /\
       length signature = 64 /\
       signature ++ message = crypto_sign message signingKey).
Proof.
  split.
  - intros Hlen. unfold signMessage, nacl.sign.
    by destruct (Nat.eqb_spec (length signingKey) nacl.sign_secretKeyLength).
  - intros Hlen. destruct (signMessage_sized message signingKey Hlen) as [Hs Hcat].
    eexists. split; [exact Hs|]. split; [|exact Hcat].
    rewrite length_take, sign_length. lia.
Qed.

(** A signature made by [signMessageBase64] with a generated key pair is
    accepted by [verifySignatureBase64], for a string and for a byte
    message. *)
Theorem verifySignatureBase64_signMessageBase64 (message : string + bytes) (g : rng) :
  let kp := (generateKeyPair g).1 in
  exists signatureB64,
    signMessageBase64 message (signingKey kp) = Ok signatureB64 /\
    verifySignatureBase64 message signatureB64 (verifyKey kp) = Ok true.
Proof.
  intros kp. destruct (generateKeyPair_sizes g) as (Hsk & Hpk & seed & Hseed & Hvk & Hsig).
  fold kp in Hsk, Hpk, Hvk, Hsig.
  destruct (signMessage_sized (message_bytes message) (signingKey kp) Hsk) as [Hs Hcat].
  unfold signMessageBase64, verifySignatureBase64. rewrite Hs, bind_Ok.
  eexists. split; [reflexivity|].
  rewrite decodeBase64_encodeBase64, bind_Ok.
  rewrite verifySignature_signed_message, Hcat.
  rewrite sign_open_sized, sign_length, bind_Ok by done.
  destruct (Nat.ltb_spec (64 + length (message_bytes message)) 64) as [Hlt|_]; [lia|].
  rewrite Hsig, Hvk, sign_open_sign by done. reflexivity.
Qed.

End WithLaws.

Lemma signMessage_outcome_witness :
  let P := Reference.primitives in
  @signMessage P [x01] [] = Throw (Error "bad secret key size") /\
  exists signature,
    @signMessage P [x01] (replicate 64 x07) = Ok signature /\
    length signature = 64 /\
    signature ++ [x01] = @crypto_sign P [x01] (replicate 64 x07).
Proof.
  split.
  - apply (proj1 (@signMessage_outcome Reference.primitives ReferenceFacts.reference_laws
                    [x01] [])). discriminate.
  - apply (proj2 (@signMessage_outcome Reference.primitives ReferenceFacts.reference_laws
                    [x01] (replicate 64 x07))). reflexivity.
Defined.

Lemma verifySignatureBase64_signMessageBase64_witness :
  let P := Reference.primitives in
  let kp := (@generateKeyPair P Reference.counting_tape).1 in
  exists signatureB64,
    @signMessageBase64 P (inl "hello") (signingKey kp) = Ok signatureB64 /\
    @verifySignatureBase64 P (inl "hello") signatureB64 (verifyKey kp) = Ok true.
Proof.
  exact (@verifySignatureBase64_signMessageBase64 Reference.primitives
           ReferenceFacts.reference_laws (inl "hello") Reference.counting_tape).
Defined.

End SignBase64.

(** ** The reference primitives of [nacl.box] and of key derivation *)

Module ReferenceBoxFacts.
Import Reference ReferenceFacts.

Lemma xor_byte_comm (a b : byte) : xor_byte a b = xor_byte b a.
Proof. unfold xor_byte. by rewrite Z.lxor_comm. Qed.

Lemma zip_with_xor_comm (a b : bytes) : zip_with xor_byte a b = zip_with xor_byte b a.
Proof.
  revert b. induction a as [|x a IH]; intros [|y b]; cbn [zip_with]; [done..|].
  by rewrite xor_byte_comm, IH.
Qed.

Lemma ref_scalarmult_base_sized (sk : bytes) :
  length sk = 32 -> ref_scalarmult_base sk = sk.
Proof.
  intros Hlen. unfold ref_scalarmult_base.
  rewrite take_app_le by lia. apply take_ge. lia.
Qed.

Lemma reference_box_laws : BoxLaws box_primitives.
Proof.
  split; cbn [crypto_scalarmult_base crypto_box_beforenm box_primitives].
  - intros sk Hlen. by rewrite ref_scalarmult_base_sized.
  - intros pk sk. apply take_padded.
  - intros a b Ha Hb. rewrite !ref_scalarmult_base_sized by done.
    unfold ref_beforenm. by rewrite zip_with_xor_comm.
Qed.

Lemma reference_web_crypto_laws : WebCryptoLaws web_crypto.
Proof.
  split; cbn [subtle_present subtle_importKey subtle_deriveBits web_crypto].
  - intros keyData _. by exists keyData.
  - intros keyData key salt iterations n _ _ Hn. eexists. split; [reflexivity|].
    rewrite Nat.div_mul by lia. rewrite app_assoc. apply take_padded.
Qed.

End ReferenceBoxFacts.

(** ** encrypt.ts: which exceptions escape *)

Module EncryptErrors.
Import NaclUtil Base64Facts Encrypt EncryptFacts.

Section WithPrimitives.
Context {P : Primitives}.

Lemma checkLengths_outcome (k n : bytes) :
  nacl.checkLengths k n =
    if decide (length k = 32) then
      if decide (length n = 24) then Ok tt else Throw (Error "bad nonce size")
    else Throw (Error "bad key size").
Proof.
  unfold nacl.checkLengths, nacl.secretbox_keyLength, nacl.secretbox_nonceLength.
  destruct (Nat.eqb_spec (length k) 32), (Nat.eqb_spec (length n) 24);
    repeat case_decide; done.
Qed.

Lemma secretbox_outcome (m n k : bytes) :
  nacl.secretbox m n k =
    if decide (length k = 32) then
      if decide (length n = 24) then Ok (crypto_secretbox m n k)
      else Throw (Error "bad nonce size")
    else Throw (Error "bad key size").
Proof.
  unfold nacl.secretbox. rewrite checkLengths_outcome. by repeat case_decide.
Qed.

Lemma generateNonce_length (g : rng) : length (generateNonce g).1 = 24.
Proof. apply randomBytes_length. Qed.

Lemma generateKey_length (g : rng) : length (generateKey g).1 = 32.
Proof. apply randomBytes_length. Qed.

(** [encryptSymmetric] succeeds exactly with a 32-byte key and, when a nonce
    is passed, a 24-byte nonce; otherwise the [Error] of [nacl.secretbox]
    escapes, the key being checked first. *)
Theorem encryptSymmetric_outcome (plaintext key : bytes) (nonce : option bytes) (g : rng) :
  (length key <> 32 ->
     (encryptSymmetric plaintext key nonce g).1 = Throw (Error "bad key size")) /\
  (length key = 32 -> forall n, nonce = Some n -> length n <> 24 ->
     (encryptSymmetric plaintext key nonce g).1 = Throw (Error "bad nonce size")) /\
  ((exists payload, (encryptSymmetric plaintext key nonce g).1 = Ok payload) <->
   length key = 32 /\ forall n, nonce = Some n -> length n = 24).
Proof.
  unfold encryptSymmetric.
  set (drawn := match nonce with Some n => (n, g) | None => generateNonce g end).
  assert ((forall n, nonce = Some n -> length n = 24) <-> length drawn.1 = 24) as Hdrawn.
  { unfold drawn. destruct nonce as [n|]; cbn [fst].
    - split; [by intros H; apply H|by intros H n' [= <-]].
    - split; [intros _; apply generateNonce_length|by intros _ n'].  }
  assert (forall n, nonce = Some n -> drawn.1 = n) as Hsome.
  { intros n ->. done. }
  destruct drawn as [nonceBytes g']. cbn [fst] in *.
  rewrite secretbox_outcome.
  split; [|split].
  - intros Hkey. by case_decide.
  - intros Hkey n Hn Hlen. rewrite (Hsome n Hn). by repeat case_decide.
  - rewrite Hdrawn. repeat case_decide; cbn; split;
      try (by intros [? [=]]); try (by intros []); eauto.
Qed.

(** [encryptForVault] succeeds exactly with a 32-byte document key; with any
    other key the [Error] of [nacl.secretbox] escapes. *)
Theorem encryptForVault_key_size (plaintext documentKey : bytes) (g : rng) :
  (length documentKey <> 32 ->
     (encryptForVault plaintext documentKey g).1 = Throw (Error "bad key size")) /\
  ((exists envelope, (encryptForVault plaintext documentKey g).1 = Ok envelope) <->
   length documentKey = 32).
Proof.
  unfold encryptForVault.
  pose proof (generateKey_length g) as Hdek.
  destruct (generateKey g) as [dek g1]. cbn [fst] in Hdek.
  pose proof (generateNonce_length g1) as Hn1.
  destruct (generateNonce g1) as [documentNonce g2]. cbn [fst] in Hn1.
  pose proof (generateNonce_length g2) as Hn2.
  destruct (generateNonce g2) as [dekNonce g3]. cbn [fst] in Hn2.
  rewrite !secretbox_outcome.
  repeat case_decide; try done; cbn [fst]; split;
    try done; split; try (by intros [? [=]]); try done; eauto.
Qed.

(** The exceptions that escape [decryptFromVault]: the [TypeError] of
    [decodeBase64], the two size errors of [nacl.secretbox.open], and its
    own two errors; never a [DecryptionError]. *)
Theorem decryptFromVault_escaping
    (encryptedBlob : bytes) (encryptionMeta : VaultEncryptionMeta) (documentKey : bytes) :
  (forall e, decryptFromVault encryptedBlob encryptionMeta documentKey = Throw e ->
     e ∈ [TypeError "invalid encoding"; Error "bad key size"; Error "bad nonce size";
          Error "Failed to unwrap document encryption key";
          Error "Failed to decrypt document"]) /\
  ((exists e, decodeBase64 (wrapped_key (key_wrap encryptionMeta)) = Throw e) ->
     decryptFromVault encryptedBlob encryptionMeta documentKey
     = Throw (TypeError "invalid encoding")) /\
  (forall wrappedDek wrapNonce,
     decodeBase64 (wrapped_key (key_wrap encryptionMeta)) = Ok wrappedDek ->
     decodeBase64 (wrap_nonce (key_wrap encryptionMeta)) = Ok wrapNonce ->
     length documentKey <> 32 ->
     decryptFromVault encryptedBlob encryptionMeta documentKey
     = Throw (Error "bad key size")).
Proof.
  assert (forall s e, decodeBase64 s = Throw e -> e = TypeError "invalid encoding") as Hdecode.
  { intros s e. unfold decodeBase64. destruct (decode_groups _); [done|]. by intros [= <-]. }
  assert (forall box n k e, nacl.secretbox_open box n k = Throw e ->
            e = Error "bad key size" \/ e = Error "bad nonce size") as Hopen.
  { intros box n k e. unfold nacl.secretbox_open. rewrite checkLengths_outcome.
    repeat case_decide; [rewrite bind_Ok|cbn; intros [= <-]; eauto..].
    by destruct (length box <? nacl.secretbox_overheadLength)%nat. }
  unfold decryptFromVault. split; [|split].
  - intros e.
    destruct (decodeBase64 (wrapped_key _)) as [wrappedDek|e1] eqn:H1; cbn.
    2:{ intros [= <-]. rewrite (Hdecode _ _ H1). in_list. }
    destruct (decodeBase64 (wrap_nonce _)) as [wrapNonce|e2] eqn:H2; cbn.
    2:{ intros [= <-]. rewrite (Hdecode _ _ H2). in_list. }
    destruct (nacl.secretbox_open wrappedDek wrapNonce documentKey) as [[dek|]|e3] eqn:H3; cbn.
    3:{ intros [= <-]. destruct (Hopen _ _ _ _ H3) as [->| ->]; in_list. }
    2:{ intros [= <-]. in_list. }
    destruct (decodeBase64 (vm_nonce _)) as [documentNonce|e4] eqn:H4; cbn.
    2:{ intros [= <-]. rewrite (Hdecode _ _ H4). in_list. }
    destruct (nacl.secretbox_open encryptedBlob documentNonce dek) as [[p|]|e5] eqn:H5; cbn.
    + discriminate.
    + intros [= <-]. in_list.
    + intros [= <-]. destruct (Hopen _ _ _ _ H5) as [->| ->]; in_list.
  - intros [e He]. rewrite He. cbn. by rewrite (Hdecode _ _ He).
  - intros wrappedDek wrapNonce -> -> Hkey. rewrite !bind_Ok.
    unfold nacl.secretbox_open. rewrite checkLengths_outcome. by case_decide.
Qed.

End WithPrimitives.
End EncryptErrors.

(** ** encrypt.ts: asymmetric encryption *)

Module BoxFacts.
Import NaclUtil Base64Facts Encrypt EncryptFacts EncryptErrors.

Lemma encodeBase64_nonempty (arr : bytes) :
  arr <> [] -> String.eqb (encodeBase64 arr) "" = false.
Proof.
  intros Hne. unfold encodeBase64. by destruct arr as [|a [|b [|c rest]]].
Qed.

Section WithLaws.
Context {P : Primitives} {L : PrimitivesLaws P} {B : BoxPrimitives} {BL : BoxLaws B}.

Lemma box_before_sized (publicKey secretKey : bytes) :
  length publicKey = 32 -> length secretKey = 32 ->
  nacl.box_before publicKey secretKey = Ok (crypto_box_beforenm publicKey secretKey).
Proof.
  intros Hpk Hsk. unfold nacl.box_before, nacl.checkBoxLengths. by rewrite Hpk, Hsk.
Qed.

Lemma box_keyPair_sizes (g : rng) :
  exists sk, length sk = 32 /\ (nacl.box_keyPair g).1 = (crypto_scalarmult_base sk, sk).
Proof.
  unfold nacl.box_keyPair.
  pose proof (randomBytes_length nacl.box_secretKeyLength g) as Hlen.
  destruct (nacl.randomBytes _ g) as [sk g']. by exists sk.
Qed.

(** The sender's key pair of [encryptAsymmetric] and its payload. *)
Lemma encryptAsymmetric_sized
    (plaintext recipientPublicKey : bytes) (senderSecretKey : option bytes) (g : rng) :
  length recipientPublicKey = 32 ->
  (forall sk, senderSecretKey = Some sk -> length sk = 32) ->
  exists senderSecret nonceBytes,
    length senderSecret = 32 /\ length nonceBytes = 24 /\
    (forall sk, senderSecretKey = Some sk -> senderSecret = sk) /\
    (encryptAsymmetric plaintext recipientPublicKey senderSecretKey g).1 =
      Ok {| ciphertext :=
              encodeBase64
                (crypto_secretbox plaintext nonceBytes
                   (crypto_box_beforenm recipientPublicKey senderSecret));
            nonce := encodeBase64 nonceBytes;
            scheme := SCHEME_BOX;
            keyWrap :=
              Some {| kw_algorithm := "X25519-HKDF";
                      kw_ephemeral := Some (bool_decide (senderSecretKey = None));
                      kw_senderPubkey :=
                        Some (encodeBase64 (crypto_scalarmult_base senderSecret)) |} |}.
Proof.
  intros Hpk Hsender. unfold encryptAsymmetric.
  destruct senderSecretKey as [sk|].
  - specialize (Hsender sk eq_refl).
    unfold nacl.box_keyPair_fromSecretKey, nacl.box_secretKeyLength.
    rewrite Hsender. cbn [Nat.eqb negb]. rewrite bind_Ok. cbn [fst].
    pose proof (generateNonce_length g) as Hn.
    destruct (generateNonce g) as [nonceBytes g']. cbn [fst] in *.
    exists sk, nonceBytes. split; [done|]. split; [done|]. split; [by intros ? [= <-]|].
    unfold nacl.box. rewrite box_before_sized, bind_Ok by done.
    rewrite secretbox_sized, bind_Ok by (done || apply beforenm_length). done.
  - destruct (box_keyPair_sizes g) as (sk & Hsk & Hkp).
    destruct (nacl.box_keyPair g) as [[pk sk'] g1]. cbn [fst] in Hkp.
    injection Hkp as -> ->.
    pose proof (generateNonce_length g1) as Hn.
    destruct (generateNonce g1) as [nonceBytes g']. cbn [fst] in *.
    exists sk, nonceBytes. split; [done|]. split; [done|]. split; [done|].
    unfold nacl.box. rewrite box_before_sized, bind_Ok by done.
    rewrite secretbox_sized, bind_Ok by (done || apply beforenm_length). done.
Qed.

(** What [encryptAsymmetric] makes for the public key of a box key pair is
    opened by [decryptAsymmetric] with the secret key of that pair: with
    the sender's public key taken from the payload, or passed by the
    caller; with an ephemeral sender key or a 32-byte key of the caller. *)
Theorem decryptAsymmetric_encryptAsymmetric
    (plaintext : bytes) (senderSecretKey : option bytes) (g0 g : rng) :
  (forall sk, senderSecretKey = Some sk -> length sk = 32) ->
  let recipient := (Keys.generateBoxKeyPair g0).1 in
  exists payload,
    (encryptAsymmetric plaintext (Keys.publicKey recipient) senderSecretKey g).1
    = Ok payload /\
    decryptAsymmetric payload (Keys.secretKey recipient) None = Ok plaintext /\
    (forall sk, senderSecretKey = Some sk ->
       decryptAsymmetric payload (Keys.secretKey recipient)
         (Some (crypto_scalarmult_base sk)) = Ok plaintext).
Proof.
  intros Hsender recipient.
  destruct (box_keyPair_sizes g0) as (skR & HskR & Hkp).
  assert (Keys.publicKey recipient = crypto_scalarmult_base skR /\
          Keys.secretKey recipient = skR) as [-> ->].
  { unfold recipient, Keys.generateBoxKeyPair.
    destruct (nacl.box_keyPair g0) as [[pk sk] g1]. cbn [fst] in *. by injection Hkp as -> ->. }
  pose proof (scalarmult_base_length skR HskR) as HpkR.
  destruct (encryptAsymmetric_sized plaintext (crypto_scalarmult_base skR)
              senderSecretKey g HpkR Hsender)
    as (skS & nonceBytes & HskS & Hnonce & Hsame & ->).
  pose proof (scalarmult_base_length skS HskS) as HpkS.
  eexists. split; [reflexivity|].
  assert (forall pk, pk = crypto_scalarmult_base skS ->
            (ciphertext ← decodeBase64
               (encodeBase64
                  (crypto_secretbox plaintext nonceBytes
                     (crypto_box_beforenm (crypto_scalarmult_base skR) skS)));
             nonce ← decodeBase64 (encodeBase64 nonceBytes);
             decrypted ← nacl.box_open ciphertext nonce pk skR;
             match decrypted with
             | None => Throw (Error "Decryption failed")
             | Some decrypted => Ok decrypted
             end) = Ok plaintext) as Hopen.
  { intros pk ->. rewrite !decodeBase64_encodeBase64, !bind_Ok.
    unfold nacl.box_open. rewrite box_before_sized, bind_Ok by done.
    rewrite <- beforenm_shared by done.
    rewrite secretbox_open_secretbox_sized by (done || apply beforenm_length). done. }
  split.
  - unfold decryptAsymmetric, payload_senderPubkey.
    cbn [keyWrap kw_senderPubkey ciphertext Encrypt.nonce].
    rewrite encodeBase64_nonempty.
    2:{ intros Hnil. by rewrite Hnil in HpkS. }
    cbv beta iota.
    rewrite (decodeBase64_encodeBase64 (crypto_scalarmult_base skS)), bind_Ok.
    by apply Hopen.
  - intros sk Hsk. rewrite <- (Hsame sk Hsk).
    unfold decryptAsymmetric. cbn [ciphertext Encrypt.nonce]. rewrite ?bind_Ok.
    by apply Hopen.
Qed.

End WithLaws.

Lemma decryptAsymmetric_encryptAsymmetric_witness :
  let P := Reference.primitives in
  let B := Reference.box_primitives in
  let recipient := (@Keys.generateBoxKeyPair B Reference.counting_tape).1 in
  (forall sk, Some Reference.key_a = Some sk -> length sk = 32) /\
  exists payload,
    (@encryptAsymmetric P B [x01; x02] (Keys.publicKey recipient) (Some Reference.key_a)
       Reference.counting_tape).1 = Ok payload /\
    @decryptAsymmetric P B payload (Keys.secretKey recipient) None = Ok [x01; x02] /\
    (forall sk, Some Reference.key_a = Some sk ->
       @decryptAsymmetric P B payload (Keys.secretKey recipient)
         (Some (@crypto_scalarmult_base B sk)) = Ok [x01; x02]).
Proof.
  cbv zeta. split; [by intros sk [= <-]|].
  apply (@decryptAsymmetric_encryptAsymmetric Reference.primitives
           ReferenceFacts.reference_laws Reference.box_primitives
           ReferenceBoxFacts.reference_box_laws [x01; x02] (Some Reference.key_a)
           Reference.counting_tape Reference.counting_tape).
  by intros sk [= <-].
Defined.

End BoxFacts.

(** ** encrypt.ts: the content hash *)

Module ContentHashFacts.
Import StringFacts Base58 Encrypt.
Local Open Scope Z_scope.

Lemma hex_byte_digits (b : byte) :
  hex_byte b =
    String (char_at HEX_DIGITS (byte_val b / 16))
      (String (char_at HEX_DIGITS (byte_val b mod 16)) EmptyString).
Proof. destruct b; vm_compute; reflexivity. Qed.

Lemma hex_digit_index (d : Z) :
  0 <= d < 16 -> indexOf HEX_DIGITS (char_at HEX_DIGITS d) = d.
Proof.
  apply (indexOf_char_at_below HEX_DIGITS 16).
  intros i Hi. do 16 (destruct i as [|i]; [reflexivity|]). lia.
Qed.

Lemma hex_digit_elem (d : Z) :
  0 <= d < 16 -> char_at HEX_DIGITS d ∈ list_ascii_of_string HEX_DIGITS.
Proof.
  intros Hd. rewrite <- (Z2Nat.id d) by lia.
  assert (Z.to_nat d < 16)%nat as Hlt by lia.
  revert Hlt. generalize (Z.to_nat d). intros i Hi.
  do 16 (destruct i as [|i]; [cbn; in_list|]). lia.
Qed.

Lemma hex_byte_inj (b1 b2 : byte) : hex_byte b1 = hex_byte b2 -> b1 = b2.
Proof.
  rewrite !hex_byte_digits. intros [= Hhi Hlo].
  pose proof (byte_val_range b1). pose proof (byte_val_range b2).
  apply (f_equal (indexOf HEX_DIGITS)) in Hhi, Hlo.
  rewrite !hex_digit_index in Hhi, Hlo by div_lia.
  rewrite <- (byte_of_Z_val b1), <- (byte_of_Z_val b2). f_equal. div_lia.
Qed.

Lemma join_hex_cons (b : byte) (l : bytes) :
  join_empty (map hex_byte (b :: l)) = hex_byte b +:+ join_empty (map hex_byte l).
Proof.
  unfold join_empty. cbn [map String.concat].
  destruct (map hex_byte l) eqn:Hl; [|done].
  rewrite hex_byte_digits. done.
Qed.

Lemma join_hex_length (l : bytes) :
  String.length (join_empty (map hex_byte l)) = (2 * length l)%nat.
Proof.
  induction l as [|b l IH]; [done|].
  rewrite join_hex_cons, hex_byte_digits, !string_app_cons, string_app_nil.
  cbn [String.length length]. rewrite IH. lia.
Qed.

Lemma join_hex_inj (l1 l2 : bytes) :
  join_empty (map hex_byte l1) = join_empty (map hex_byte l2) -> l1 = l2.
Proof.
  revert l2. induction l1 as [|b1 l1 IH]; intros [|b2 l2].
  - done.
  - rewrite join_hex_cons, hex_byte_digits. discriminate.
  - rewrite join_hex_cons, hex_byte_digits. discriminate.
  - rewrite !join_hex_cons. intros Heq.
    assert (hex_byte b1 = hex_byte b2 /\
            join_empty (map hex_byte l1) = join_empty (map hex_byte l2)) as [Hb Hl].
    { rewrite !hex_byte_digits in *.
      rewrite !string_app_cons, !string_app_nil in Heq.
      injection Heq as -> -> ->. done. }
    f_equal; [by apply hex_byte_inj|by apply IH].
Qed.

Lemma join_hex_chars (l : bytes) (c : ascii) :
  c ∈ list_ascii_of_string (join_empty (map hex_byte l)) ->
  c ∈ list_ascii_of_string HEX_DIGITS.
Proof.
  induction l as [|b l IH]; [by intros ?%elem_of_nil|].
  rewrite join_hex_cons, hex_byte_digits, !string_app_cons, string_app_nil.
  cbn [list_ascii_of_string]. pose proof (byte_val_range b).
  intros [->|[->|Hin]%elem_of_cons]%elem_of_cons; [apply hex_digit_elem; div_lia..|].
  by apply IH.
Qed.

Lemma Uint8Array_copy (content : bytes) :
  Uint8Array_set (Uint8Array_new (length content)) content 0 = content.
Proof.
  unfold Uint8Array_set, Uint8Array_new. cbn [take app Nat.add].
  rewrite drop_ge by (by rewrite length_replicate). apply app_nil_r.
Qed.

Section WithLaws.
Context {P : Primitives} {L : PrimitivesLaws P}.

(** The content hash is 64 lower-case hexadecimal digits, and two contents
    have the same hash exactly when they have the same SHA-256 digest. *)
Theorem generateContentHash_hex (content : bytes) :
  String.length (generateContentHash content) = 64%nat /\
  (forall c, c ∈ list_ascii_of_string (generateContentHash content) ->
     c ∈ list_ascii_of_string "0123456789abcdef") /\
  (forall content',
     generateContentHash content = generateContentHash content' <->
     subtle_digest_sha256 content = subtle_digest_sha256 content').
Proof.
  unfold generateContentHash. rewrite Uint8Array_copy.
  fold hex_byte. split; [|split].
  - rewrite join_hex_length, sha256_length. done.
  - intros c. apply join_hex_chars.
  - intros content'. rewrite Uint8Array_copy. split; [apply join_hex_inj|by intros ->].
Qed.

End WithLaws.

Lemma generateContentHash_hex_witness :
  let P := Reference.primitives in
  String.length (@generateContentHash P [x01; xab]) = 64%nat /\
  (forall c, c ∈ list_ascii_of_string (@generateContentHash P [x01; xab]) ->
     c ∈ list_ascii_of_string "0123456789abcdef") /\
  (forall content',
     @generateContentHash P [x01; xab] = @generateContentHash P content' <->
     @subtle_digest_sha256 P [x01; xab] = @subtle_digest_sha256 P content').
Proof.
  exact (@generateContentHash_hex Reference.primitives ReferenceFacts.reference_laws
           [x01; xab]).
Defined.

End ContentHashFacts.

(** ** encrypt.ts: failures of the asymmetric functions *)

Module BoxErrors.
Import NaclUtil Encrypt EncryptErrors BoxFacts.

Section WithLaws.
Context {P : Primitives} {B : BoxPrimitives} {BL : BoxLaws B}.

(** [decryptAsymmetric] without a sender key, from the caller or in the
    payload (an empty string counts as none), throws its own error; every
    exception that escapes it is that error, the [TypeError] of
    [decodeBase64], a size error of [nacl.box.open] or
    [Error('Decryption failed')]. *)
Theorem decryptAsymmetric_escaping
    (payload : EncryptedPayload) (recipientSecretKey : bytes)
    (senderPublicKey : option bytes) :
  (forall e, decryptAsymmetric payload recipientSecretKey senderPublicKey = Throw e ->
     e ∈ [Error "Sender public key required for decryption";
          TypeError "invalid encoding"; Error "bad public key size";
          Error "bad secret key size"; Error "bad nonce size";
          Error "Decryption failed"]) /\
  (senderPublicKey = None ->
   (keyWrap payload = None \/
    exists kw, keyWrap payload = Some kw /\
      (kw_senderPubkey kw = None \/ kw_senderPubkey kw = Some "")) ->
   decryptAsymmetric payload recipientSecretKey senderPublicKey
   = Throw (Error "Sender public key required for decryption")).
Proof.
  assert (forall s e, decodeBase64 s = Throw e -> e = TypeError "invalid encoding") as Hdecode.
  { intros s e. unfold decodeBase64. destruct (decode_groups _); [done|]. by intros [= <-]. }
  split.
  - intros e. unfold decryptAsymmetric.
    set (sender := match senderPublicKey with Some pk => Ok pk | None => _ end).
    assert (forall e', sender = Throw e' ->
              e' = Error "Sender public key required for decryption" \/
              e' = TypeError "invalid encoding") as Hsender.
    { intros e'. unfold sender. destruct senderPublicKey; [done|].
      destruct (payload_senderPubkey payload) as [s|]; [|intros [= <-]; by left].
      intros He. right. by eapply Hdecode. }
    destruct sender as [pk|e0]; cbn.
    2:{ intros [= <-]. destruct (Hsender e0 eq_refl) as [->| ->]; in_list. }
    destruct (decodeBase64 (ciphertext payload)) as [c|e1] eqn:H1; cbn.
    2:{ intros [= <-]. rewrite (Hdecode _ _ H1). in_list. }
    destruct (decodeBase64 (nonce payload)) as [n|e2] eqn:H2; cbn.
    2:{ intros [= <-]. rewrite (Hdecode _ _ H2). in_list. }
    unfold nacl.box_open, nacl.box_before, nacl.checkBoxLengths.
    destruct (negb (length pk =? nacl.box_publicKeyLength)); cbn; [intros [= <-]; in_list|].
    destruct (negb (length recipientSecretKey =? nacl.box_secretKeyLength)); cbn;
      [intros [= <-]; in_list|].
    unfold nacl.secretbox_open. rewrite checkLengths_outcome, beforenm_length.
    destruct (decide (32 = 32)) as [_|]; [|done].
    destruct (decide (length n = 24)); cbn; [|intros [= <-]; in_list].
    destruct (length c <=? 15)%nat; cbn; [intros [= <-]; in_list|].
    destruct (crypto_secretbox_open c n _); cbn; [discriminate|intros [= <-]; in_list].
  - intros -> Hmissing. unfold decryptAsymmetric.
    assert (payload_senderPubkey payload = None) as ->; [|done].
    unfold payload_senderPubkey.
    destruct Hmissing as [->|(kw & -> & [->| ->])]; done.
Qed.

End WithLaws.

Lemma decryptAsymmetric_escaping_witness :
  let P := Reference.primitives in
  let B := Reference.box_primitives in
  @decryptAsymmetric P B Reference.malformed_payload Reference.key_a None
  = Throw (Error "Sender public key required for decryption").
Proof.
  apply (proj2 (@decryptAsymmetric_escaping Reference.primitives Reference.box_primitives
                  ReferenceBoxFacts.reference_box_laws Reference.malformed_payload
                  Reference.key_a None)); [reflexivity|by left].
Defined.

End BoxErrors.

Module BoxOutcome.
Import NaclUtil Encrypt EncryptFacts EncryptErrors BoxFacts.

Section WithLaws.
Context {P : Primitives} {B : BoxPrimitives} {BL : BoxLaws B}.

(** [encryptAsymmetric] checks the sender's secret key first, then the
    recipient's public key; it succeeds exactly when both have 32 bytes, and
    its payload is marked ephemeral exactly when no sender key was passed. *)
Theorem encryptAsymmetric_outcome
    (plaintext recipientPublicKey : bytes) (senderSecretKey : option bytes) (g : rng) :
  (forall sk, senderSecretKey = Some sk -> length sk <> 32 ->
     (encryptAsymmetric plaintext recipientPublicKey senderSecretKey g).1
     = Throw (Error "bad secret key size")) /\
  ((forall sk, senderSecretKey = Some sk -> length sk = 32) ->
   length recipientPublicKey <> 32 ->
     (encryptAsymmetric plaintext recipientPublicKey senderSecretKey g).1
     = Throw (Error "bad public key size")) /\
  ((exists payload,
      (encryptAsymmetric plaintext recipientPublicKey senderSecretKey g).1 = Ok payload) <->
   length recipientPublicKey = 32 /\
   forall sk, senderSecretKey = Some sk -> length sk = 32) /\
  (forall payload,
     (encryptAsymmetric plaintext recipientPublicKey senderSecretKey g).1 = Ok payload ->
     scheme payload = "X25519-XSalsa20-Poly1305" /\
     exists kw, keyWrap payload = Some kw /\
       kw_ephemeral kw = Some (bool_decide (senderSecretKey = None))).
Proof.
  assert (forall sk, senderSecretKey = Some sk -> length sk <> 32 ->
            (encryptAsymmetric plaintext recipientPublicKey senderSecretKey g).1
            = Throw (Error "bad secret key size")) as Hsk.
  { intros sk -> Hlen. unfold encryptAsymmetric, nacl.box_keyPair_fromSecretKey.
    by destruct (Nat.eqb_spec (length sk) nacl.box_secretKeyLength). }
  assert ((forall sk, senderSecretKey = Some sk -> length sk = 32) ->
          length recipientPublicKey <> 32 ->
          (encryptAsymmetric plaintext recipientPublicKey senderSecretKey g).1
          = Throw (Error "bad public key size")) as Hpk.
  { intros Hsender Hlen. unfold encryptAsymmetric.
    assert (forall sk n, nacl.box plaintext n recipientPublicKey sk
                         = Throw (Error "bad public key size")) as Hbox.
    { intros sk n. unfold nacl.box, nacl.box_before, nacl.checkBoxLengths.
      by destruct (Nat.eqb_spec (length recipientPublicKey) nacl.box_publicKeyLength). }
    destruct senderSecretKey as [sk|].
    - unfold nacl.box_keyPair_fromSecretKey, nacl.box_secretKeyLength.
      rewrite (Hsender sk eq_refl). cbn [Nat.eqb negb]. rewrite bind_Ok.
      destruct (generateNonce g) as [n g']. cbn [fst]. by rewrite Hbox.
    - destruct (nacl.box_keyPair g) as [[pk sk] g1].
      destruct (generateNonce g1) as [n g']. cbn [fst]. by rewrite Hbox. }
  assert (forall payload,
            (encryptAsymmetric plaintext recipientPublicKey senderSecretKey g).1 = Ok payload ->
            length recipientPublicKey = 32 /\
            forall sk, senderSecretKey = Some sk -> length sk = 32) as Hsizes.
  { intros payload Hok.
    assert (forall sk, senderSecretKey = Some sk -> length sk = 32) as Hsender.
    { intros sk Hsome. destruct (Nat.eq_dec (length sk) 32) as [|Hlen]; [done|].
      rewrite (Hsk sk Hsome Hlen) in Hok. done. }
    split; [|done]. destruct (Nat.eq_dec (length recipientPublicKey) 32); [done|].
    rewrite Hpk in Hok; done. }
  split; [exact Hsk|]. split; [exact Hpk|]. split.
  - split; [intros [payload Hok]; by eapply Hsizes|].
    intros [Hlen Hsender].
    destruct (encryptAsymmetric_sized plaintext recipientPublicKey
                senderSecretKey g Hlen Hsender) as (? & ? & _ & _ & _ & ->).
    eauto.
  - intros payload Hok. destruct (Hsizes payload Hok) as [Hlen Hsender].
    destruct (encryptAsymmetric_sized plaintext recipientPublicKey
                senderSecretKey g Hlen Hsender) as (? & ? & _ & _ & _ & Heq).
    rewrite Heq in Hok. injection Hok as <-. split; [done|]. eauto.
Qed.

End WithLaws.

Lemma encryptAsymmetric_outcome_witness :
  let P := Reference.primitives in
  let B := Reference.box_primitives in
  (@encryptAsymmetric P B [x01] Reference.key_a (Some [x02]) Reference.counting_tape).1
  = Throw (Error "bad secret key size") /\
  (@encryptAsymmetric P B [x01] [x02] None Reference.counting_tape).1
  = Throw (Error "bad public key size").
Proof.
  split.
  - apply (proj1 (@encryptAsymmetric_outcome Reference.primitives Reference.box_primitives
                    ReferenceBoxFacts.reference_box_laws [x01] Reference.key_a
                    (Some [x02]) Reference.counting_tape) [x02]); [reflexivity|discriminate].
  - apply (proj1 (proj2 (@encryptAsymmetric_outcome Reference.primitives
                           Reference.box_primitives ReferenceBoxFacts.reference_box_laws
                           [x01] [x02] None Reference.counting_tape)));
      [discriminate|discriminate].
Defined.

End BoxOutcome.

(** ** keys.ts *)

Module KeysFacts.
Import StringFacts NaclUtil Base64Facts Keys EncryptFacts.

(** [keypairFromBase64] inverts [keypairToBase64], and throws the
    [TypeError] of [decodeBase64] when one of its arguments is not base64. *)
Theorem keypairFromBase64_keypairToBase64 (secretKey publicKey : bytes) :
  keypairFromBase64 (keypairToBase64 secretKey publicKey).1
                    (keypairToBase64 secretKey publicKey).2
  = Ok (secretKey, publicKey) /\
  forall secretKeyB64 publicKeyB64,
    (exists e, decodeBase64 secretKeyB64 = Throw e) \/
    (exists e, decodeBase64 publicKeyB64 = Throw e) ->
    keypairFromBase64 secretKeyB64 publicKeyB64 = Throw (TypeError "invalid encoding").
Proof.
  split.
  - unfold keypairFromBase64, keypairToBase64. cbn [fst snd].
    by rewrite !decodeBase64_encodeBase64.
  - assert (forall s e, decodeBase64 s = Throw e -> e = TypeError "invalid encoding")
      as Hdecode.
    { intros s e. unfold decodeBase64. destruct (decode_groups _); [done|]. by intros [= <-]. }
    intros secretKeyB64 publicKeyB64 Hbad. unfold keypairFromBase64.
    destruct (decodeBase64 secretKeyB64) as [sk|e1] eqn:H1.
    + destruct Hbad as [[e He]|[e He]]; [done|].
      rewrite He, bind_Ok. cbn. by rewrite (Hdecode _ _ He).
    + cbn. by rewrite (Hdecode _ _ H1).
Qed.

Section WithLaws.
Context {P : Primitives} {W : WebCrypto} {WL : WebCryptoLaws W}.

Lemma deriveKey_available (secret : string) (salt : bytes) (params : KeyDerivationParams) :
  subtle_present = true ->
  (forall i, iterations params = Some i -> (0 < i < 2 ^ 32)%Z) ->
  (forall n, hashLen params = Some n -> 0 < n) ->
  exists key,
    deriveKey secret salt params = Ok key /\
    length key = default DEFAULT_HASH_LEN (hashLen params).
Proof.
  intros Hpresent Hiter Hlen. unfold deriveKey, checkWebCryptoAvailable.
  rewrite Hpresent. cbn [negb]. rewrite bind_Ok.
  destruct (importKey_returns (TextEncoder_encode secret) Hpresent) as [key Hkey].
  rewrite Hkey.
  destruct (deriveBits_length (TextEncoder_encode secret) key
              (Uint8Array_set (Uint8Array_new (length salt)) salt 0)
              (default DEFAULT_ITERATIONS (iterations params))
              (default DEFAULT_HASH_LEN (hashLen params)) Hkey)
    as (bits & Hbits & Hsize).
  - destruct (iterations params) as [i|]; [by apply Hiter|]. cbn. unfold DEFAULT_ITERATIONS. lia.
  - destruct (hashLen params) as [n|]; [by apply Hlen|]. cbn. unfold DEFAULT_HASH_LEN. lia.
  - exists bits. split; [|done]. cbn [mbind outcome_bind]. by rewrite Hbits.
Qed.


End WithLaws.


Section WithPrimitives.
Context {W : WebCrypto}.

(** The context of [deriveEncryptionKey] is appended to the secret: two
    pairs of secret and context with the same concatenation give the same
    key, and the default context is the suffix [encryption]. *)
Theorem deriveEncryptionKey_concatenation
    (masterSecret1 context1 masterSecret2 context2 : string) (salt : bytes) :
  masterSecret1 +:+ context1 = masterSecret2 +:+ context2 ->
  deriveEncryptionKey masterSecret1 salt (Some context1)
  = deriveEncryptionKey masterSecret2 salt (Some context2) /\
  deriveEncryptionKey masterSecret1 salt None
  = deriveEncryptionKey (masterSecret1 +:+ "encryp") salt (Some "tion").
Proof.
  intros Heq. unfold deriveEncryptionKey. cbn [from_option id]. rewrite Heq.
  split; [done|]. f_equal. clear Heq.
  induction masterSecret1 as [|c s IH]; [done|].
  rewrite !string_app_cons. by rewrite IH.
Qed.

End WithPrimitives.

Lemma deriveEncryptionKey_concatenation_witness :
  let W := Reference.web_crypto in
  @deriveEncryptionKey W "ab" [x01] (Some "c")
  = @deriveEncryptionKey W "a" [x01] (Some "bc") /\
  @deriveEncryptionKey W "ab" [x01] None
  = @deriveEncryptionKey W ("ab" +:+ "encryp") [x01] (Some "tion").
Proof.
  apply (@deriveEncryptionKey_concatenation Reference.web_crypto "ab" "c" "a" "bc" [x01]).
  reflexivity.
Defined.

End KeysFacts.

(** ** store.ts *)

Module StoreFacts.
Import ApiTypes Store.

(** In every state the account store reaches from its initial state, the
    account it holds has the stored account id. *)
Theorem account_store_consistent (actions : list AccountAction) :
  let final := fold_left account_step actions account_initial in
  forall a, account final = Some a -> accountId final = Some (account_id a).
Proof.
  cbv zeta.
  assert (forall state,
            (forall a, account state = Some a -> accountId state = Some (account_id a)) ->
            forall a, account (fold_left account_step actions state) = Some a ->
                      accountId (fold_left account_step actions state) = Some (account_id a))
    as Hinv.
  { induction actions as [|action actions IH]; intros state Hstate; [done|].
    cbn [fold_left]. apply IH. destruct action; cbn; [by intros a' [= <-]|done|done]. }
  apply Hinv. done.
Qed.

Lemma account_store_consistent_witness :
  let final :=
    fold_left account_step
      [SetKeys "cHVibGlj" "{}"; SetAccount Reference.sample_account; Logout;
       SetAccount Reference.sample_account]
      account_initial in
  account final = Some Reference.sample_account /\
  accountId final = Some "acct-1".
Proof.
  cbv zeta. split; [reflexivity|].
  apply (account_store_consistent
           [SetKeys "cHVibGlj" "{}"; SetAccount Reference.sample_account; Logout;
            SetAccount Reference.sample_account]
           Reference.sample_account).
  reflexivity.
Defined.

(** No action of the account store clears the account id, the encrypted
    secret key or the public key once they are set, and [logout] changes
    nothing of what is persisted. *)
Theorem account_store_keeps_keys (actions : list AccountAction) (state : AccountState) :
  let final := fold_left account_step actions state in
  (accountId state <> None -> accountId final <> None) /\
  (encryptedSecretKey state <> None -> encryptedSecretKey final <> None) /\
  (publicKey state <> None -> publicKey final <> None) /\
  account (logout state) = None /\
  partialize (logout state) = partialize state.
Proof.
  cbv zeta. split; [|split; [|split; [|done]]]; revert state;
    induction actions as [|action actions IH]; intros state Hset; try done;
    cbn [fold_left]; apply IH; by destruct action.
Qed.

Lemma filter_all {A} (f : A -> bool) (l : list A) :
  (forall x, x ∈ l -> f x = true) -> List.filter f l = l.
Proof.
  induction l as [|x l IH]; intros Hall; [done|]. cbn [List.filter].
  rewrite Hall by apply list_elem_of_here. f_equal. apply IH.
  intros y Hy. apply Hall. by apply list_elem_of_further.
Qed.

(** [removeDocument] drops every document with the given id and keeps the
    others in their order; it undoes [addDocument] of a document whose id
    is new, and for an id already present it drops the older documents
    too. *)
Theorem removeDocument_addDocument (document : DocumentResponse) (state : VaultState) :
  (forall d, d ∈ documents (removeDocument (doc_id document) (addDocument document state)) <->
             d ∈ documents state /\ doc_id d <> doc_id document) /\
  ((forall d, d ∈ documents state -> doc_id d <> doc_id document) ->
     removeDocument (doc_id document) (addDocument document state) = state) /\
  removeDocument (doc_id document) (addDocument document state)
  = removeDocument (doc_id document) state.
Proof.
  assert (removeDocument (doc_id document) (addDocument document state)
          = removeDocument (doc_id document) state) as Hsame.
  { unfold removeDocument, addDocument. cbn [documents isLoading List.filter].
    by rewrite String.eqb_refl. }
  split; [|split; [|done]].
  - intros d. rewrite Hsame. unfold removeDocument. cbn [documents].
    rewrite list_elem_of_In, filter_In, <- list_elem_of_In.
    rewrite negb_true_iff, String.eqb_neq. done.
  - intros Hfresh. rewrite Hsame. unfold removeDocument. destruct state as [docs loading].
    cbn [documents isLoading] in *. f_equal. apply filter_all.
    intros d Hd. apply negb_true_iff, String.eqb_neq. by apply Hfresh.
Qed.

End StoreFacts.

(** ** Account creation and passphrase login *)

Module PagesFacts.
Import StringFacts NaclUtil Base64Facts ApiClient Pages EncryptFacts.

Lemma prefix_elem (sub s : string) (c : ascii) :
  String.prefix sub s = true ->
  c ∈ list_ascii_of_string sub -> c ∈ list_ascii_of_string s.
Proof.
  revert s. induction sub as [|a sub IH]; intros s Hp Hin.
  - by apply elem_of_nil in Hin.
  - destruct s as [|b s]; cbn [String.prefix] in Hp; [done|].
    destruct (ascii_dec a b) as [->|]; [|done].
    cbn [list_ascii_of_string] in *.
    apply elem_of_cons in Hin as [->|Hin]; [apply list_elem_of_here|].
    apply list_elem_of_further. by apply IH.
Qed.

(** A string that includes another one has all its characters. *)
Lemma includes_elem (s sub : string) (c : ascii) :
  includes s sub = true ->
  c ∈ list_ascii_of_string sub -> c ∈ list_ascii_of_string s.
Proof.
  induction s as [|a s IH]; cbn [includes]; intros Hinc Hin.
  - apply orb_true_iff in Hinc as [Hp|]; [|done]. by eapply prefix_elem.
  - apply orb_true_iff in Hinc as [Hp|Hinc]; [by eapply prefix_elem|].
    cbn [list_ascii_of_string]. apply list_elem_of_further. by apply IH.
Qed.

Lemma includes_prefix (s t : string) : includes (s +:+ t) s = true.
Proof.
  assert (String.prefix s (s +:+ t) = true) as Hp.
  { induction s as [|c s IH]; [by destruct t|]. rewrite string_app_cons.
    cbn [String.prefix]. by destruct (ascii_dec c c). }
  revert Hp. generalize (s +:+ t). intros u Hp. destruct u; cbn [includes]; by rewrite Hp.
Qed.

Local Open Scope Z_scope.

Lemma decimal_loop_digits (fuel : nat) (num : Z) (digits : list ascii) (c : ascii) :
  c ∈ decimal_loop fuel num digits ->
  c ∈ list_ascii_of_string DECIMAL_DIGITS \/ c ∈ digits.
Proof.
  revert num digits. induction fuel as [|fuel IH]; intros num digits; cbn [decimal_loop];
    [by right|].
  destruct (Z.ltb_spec 0 num) as [Hpos|]; [|by right].
  intros [Hd|[->|Hin]%elem_of_cons]%IH; [by left| |by right].
  left. rewrite Z.rem_mod_nonneg by lia.
  assert (0 <= num mod 10 < 10) as Hr by div_lia.
  rewrite <- (Z2Nat.id (num mod 10)) by lia.
  assert (Z.to_nat (num mod 10) < 10)%nat as Hlt by lia.
  revert Hlt. generalize (Z.to_nat (num mod 10)). intros i Hi.
  do 10 (destruct i as [|i]; [cbn; in_list|]). lia.
Qed.

(** More fuel than the number has bits does not change the digits. *)
Lemma decimal_loop_fuel (fuel : nat) (num : Z) (digits : list ascii) :
  0 <= num < 2 ^ Z.of_nat fuel ->
  forall extra : nat, decimal_loop (fuel + extra) num digits = decimal_loop fuel num digits.
Proof.
  revert num digits. induction fuel as [|fuel IH]; intros num digits Hnum extra.
  - simpl in Hnum. assert (num = 0) as -> by lia. by destruct extra.
  - cbn [Nat.add decimal_loop]. destruct (Z.ltb_spec 0 num) as [Hpos|]; [|done].
    apply IH. rewrite Z.quot_div_nonneg by lia.
    rewrite Nat2Z.inj_succ, Z.pow_succ_r in Hnum by lia. div_lia.
Qed.

Example Number_toString_409 : Number_toString 409 = "409".
Proof. reflexivity. Qed.

Lemma Number_toString_digits (num : Z) (c : ascii) :
  c ∈ list_ascii_of_string (Number_toString num) ->
  c ∈ list_ascii_of_string DECIMAL_DIGITS.
Proof.
  unfold Number_toString. destruct (num =? 0).
  - cbn. intros ->%list_elem_of_singleton. in_list.
  - rewrite list_ascii_of_string_of_list_ascii.
    intros [?|Hin]%decimal_loop_digits; [done|]. by apply elem_of_nil in Hin.
Qed.

(** The message of [request]'s error includes no text that
    [handleCreateAccount] looks for. *)
Lemma request_message_plain (status : Z) (pattern : string) (c : ascii) :
  c ∈ list_ascii_of_string pattern ->
  c ∉ list_ascii_of_string "API request failed: 0123456789" ->
  includes ("API request failed: " +:+ Number_toString status) pattern = false.
Proof.
  intros Hc Hnot. apply not_true_is_false. intros Hinc.
  apply (includes_elem _ _ c Hinc) in Hc. rewrite list_ascii_app in Hc.
  apply Hnot. change "API request failed: 0123456789"
    with ("API request failed: " +:+ DECIMAL_DIGITS).
  rewrite list_ascii_app. apply elem_of_app.
  apply elem_of_app in Hc as [?|?%Number_toString_digits]; [by left|by right].
Qed.

Local Ltac not_in_list :=
  let H := fresh in
  intros H; cbn in H;
  repeat (apply elem_of_cons in H as [H|H]; [discriminate|]);
  by apply elem_of_nil in H.

(** [handleCreateAccount] never shows the detail of an [ApiClientError]: the
    message it shows does not depend on the detail, and for the error that
    [request] throws on a response that is not ok it is the text
    [Error: API request failed: ] followed by the status. *)
Theorem createAccount_errorMessage_api_error (response : Response) :
  0 <= response_status response ->
  createAccount_errorMessage (request_error response)
  = "Error: API request failed: " +:+ Number_toString (response_status response) /\
  forall message status detail detail',
    createAccount_errorMessage (ThrownApiClientError message status detail)
    = createAccount_errorMessage (ThrownApiClientError message status detail').
Proof.
  intros _. split; [|done].
  unfold request_error, createAccount_errorMessage.
  cbn [instanceof_Error thrown_message].
  rewrite (request_message_plain _ "Invalid public key" "v") by (cbn; in_list || not_in_list).
  rewrite (request_message_plain _ "already exists" "y") by (cbn; in_list || not_in_list).
  rewrite (request_message_plain _ "network" "w") by (cbn; in_list || not_in_list).
  rewrite (request_message_plain _ "fetch" "h") by (cbn; in_list || not_in_list).
  done.
Qed.

(** A response 409 whose body has the detail [Account already exists]. *)
Lemma createAccount_errorMessage_api_error_witness :
  let response :=
    {| response_status := 409;
       response_statusText := "Conflict";
       response_detail := Returned (Some "Account already exists") |} in
  request_error response
  = ThrownApiClientError "API request failed: 409" 409 (Some "Account already exists") /\
  createAccount_errorMessage (request_error response) = "Error: API request failed: 409".
Proof.
  cbv zeta. split; [reflexivity|].
  apply (createAccount_errorMessage_api_error
           {| response_status := 409;
              response_statusText := "Conflict";
              response_detail := Returned (Some "Account already exists") |}).
  cbn. lia.
Defined.

Local Close Scope Z_scope.

Section WithPrimitives.
Context {P : Primitives} {W : WebCrypto}.

(** [handlePassphraseLogin] never reports an unexpected decryption error:
    once the key is derived, every failure to decrypt the stored key, a
    stored ciphertext that is not base64 included, is reported as an
    incorrect passphrase. *)
Theorem login_unlock_failure_toast (stored : StoredKey) (passphrase : string) :
  login_unlock stored passphrase
  <> UnlockToast "Failed to decrypt account. Please try again." /\
  (forall salt encryptionKey,
     decodeBase64 (stored_salt stored) = Ok salt ->
     Keys.deriveKey passphrase salt Keys.no_params = Ok encryptionKey ->
     (exists signingKey, login_unlock stored passphrase = Unlocked signingKey) \/
     login_unlock stored passphrase = UnlockToast "Incorrect passphrase") /\
  (forall salt encryptionKey e,
     decodeBase64 (stored_salt stored) = Ok salt ->
     Keys.deriveKey passphrase salt Keys.no_params = Ok encryptionKey ->
     decodeBase64 (stored_ciphertext stored) = Throw e ->
     login_unlock stored passphrase = UnlockToast "Incorrect passphrase").
Proof.
  unfold login_unlock. split; [|split].
  - destruct (decodeBase64 (stored_salt stored)) as [salt|]; [|discriminate].
    destruct (Keys.deriveKey passphrase salt Keys.no_params) as [key|e].
    2:{ destruct (includes _ _); discriminate. }
    match goal with |- context [Encrypt.decryptSymmetric ?p key] =>
      destruct (Encrypt.decryptSymmetric p key) as [sk|e] eqn:Hdec end; [discriminate|].
    destruct (decryptSymmetric_escaping _ _ _ Hdec) as [m ->]. discriminate.
  - intros salt key -> ->.
    match goal with |- context [Encrypt.decryptSymmetric ?p key] =>
      destruct (Encrypt.decryptSymmetric p key) as [sk|e] eqn:Hdec end; [eauto|].
    destruct (decryptSymmetric_escaping _ _ _ Hdec) as [m ->]. by right.
  - intros salt key e -> -> Hbad.
    erewrite decryptSymmetric_bad_ciphertext; [done|]. exact Hbad.
Qed.

(** Without the Web Crypto API, and when [importKey] fails with an error
    that names it, [deriveKey] throws an [Error] whose message contains
    [Web Crypto API], and [handlePassphraseLogin] tells the user that the
    browser lacks the security features. *)
Theorem login_unlock_web_crypto_error (stored : StoredKey) (passphrase : string)
    (salt : bytes) :
  decodeBase64 (stored_salt stored) = Ok salt ->
  subtle_present = false \/
  (exists e, subtle_importKey (TextEncoder_encode passphrase) = ThrewError e /\
             includes (exn_message e) "importKey" = true) ->
  (exists message,
     Keys.deriveKey passphrase salt Keys.no_params = Throw (Error message) /\
     includes message "Web Crypto API" = true) /\
  login_unlock stored passphrase
  = UnlockToast ("Your browser does not support required security features. " +:+
                 "Please use a modern browser or ensure you are on HTTPS.").
Proof.
  intros Hsalt Hcause.
  assert (exists message,
            Keys.deriveKey passphrase salt Keys.no_params = Throw (Error message) /\
            includes message "Web Crypto API" = true) as (message & Hderive & Hinc).
  { unfold Keys.deriveKey, Keys.checkWebCryptoAvailable.
    destruct subtle_present eqn:Hpresent; cbn [negb]; [|by eexists].
    destruct Hcause as [|(e & -> & Hinc)]; [done|].
    rewrite bind_Ok. cbn [mbind outcome_bind]. rewrite Hinc. cbn [orb].
    eexists. split; [reflexivity|].
    change ("Web Crypto API error: " +:+ exn_message e +:+ ". " +:+
            "Please ensure you are using HTTPS or localhost.")
      with ("Web Crypto API" +:+ (" error: " +:+ exn_message e +:+ ". " +:+
            "Please ensure you are using HTTPS or localhost.")).
    apply includes_prefix. }
  split; [by eexists|].
  unfold login_unlock. rewrite Hsalt, Hderive. cbn [exn_message]. by rewrite Hinc.
Qed.

End WithPrimitives.

Lemma login_unlock_web_crypto_error_witness :
  let stored :=
    {| stored_ciphertext := ""; stored_nonce := ""; stored_scheme := "";
       stored_salt := "" |} in
  decodeBase64 (stored_salt stored) = Ok [] /\
  (exists message,
     @Keys.deriveKey Reference.no_web_crypto "passphrase" [] Keys.no_params
     = Throw (Error message) /\
     includes message "Web Crypto API" = true) /\
  @login_unlock Reference.primitives Reference.no_web_crypto stored "passphrase"
  = UnlockToast ("Your browser does not support required security features. " +:+
                 "Please use a modern browser or ensure you are on HTTPS.").
Proof.
  cbv zeta. split; [reflexivity|].
  apply (@login_unlock_web_crypto_error Reference.primitives Reference.no_web_crypto
           {| stored_ciphertext := ""; stored_nonce := ""; stored_scheme := "";
              stored_salt := "" |} "passphrase" []); [reflexivity|by left].
Defined.

Section WithLaws.
Context {P : Primitives} {L : PrimitivesLaws P} {W : WebCrypto} {WL : WebCryptoLaws W}.

Lemma generateDid_sized (g : rng) :
  exists generated,
    (Did.generateDid g).1 = Ok generated /\
    length (Did.gd_signingKey generated) = 64 /\
    Did.didToPublicKey (Did.gd_did generated) = Ok (Did.gd_verifyKey generated).
Proof.
  unfold Did.generateDid, Did.generateKeyPair, nacl.sign_keyPair.
  cbn [nacl.randomBytes fst Did.verifyKey Did.signingKey].
  set (seed := map g (seq 0 nacl.sign_seedLength)).
  assert (length seed = 32) as Hseed by (unfold seed; by rewrite length_map, length_seq).
  pose proof (sign_public_length seed Hseed) as Hpk.
  rewrite DidFacts.publicKeyToDid_32, bind_Ok by done.
  eexists. split; [reflexivity|]. cbn [Did.gd_signingKey Did.gd_did Did.gd_verifyKey].
  split; [rewrite length_app; lia|]. by apply DidFacts.didToPublicKey_encoded.
Qed.

Lemma encryptSymmetric_generated (plaintext key : bytes) (g : rng) :
  length key = 32 ->
  exists nonceBytes,
    length nonceBytes = 24 /\
    (Encrypt.encryptSymmetric plaintext key None g).1 =
      Ok {| Encrypt.ciphertext := encodeBase64 (crypto_secretbox plaintext nonceBytes key);
            Encrypt.nonce := encodeBase64 nonceBytes;
            Encrypt.scheme := Encrypt.SCHEME_SECRETBOX;
            Encrypt.keyWrap := None |}.
Proof.
  intros Hkey. unfold Encrypt.encryptSymmetric.
  pose proof (EncryptErrors.generateNonce_length g) as Hn.
  destruct (Encrypt.generateNonce g) as [nonceBytes g']. cbn [fst] in *.
  exists nonceBytes. split; [done|]. by rewrite secretbox_sized, bind_Ok.
Qed.

Lemma deriveKeyWithNewSalt_default (passphrase : string) (g : rng) :
  subtle_present = true ->
  exists key salt,
    (Keys.deriveKeyWithNewSalt passphrase Keys.no_params g).1 = Ok (key, salt) /\
    length key = 32 /\
    Keys.deriveKey passphrase salt Keys.no_params = Ok key.
Proof.
  intros Hpresent. unfold Keys.deriveKeyWithNewSalt.
  destruct (Keys.generateSalt _ g) as [salt g'].
  destruct (KeysFacts.deriveKey_available passphrase salt Keys.no_params Hpresent)
    as (key & Hkey & Hsize); [done..|].
  exists key, salt. by rewrite Hkey, bind_Ok.
Qed.

(** [handleCreateAccount] creates nothing and draws no random byte when
    the two passphrases differ or the passphrase has fewer than 12
    characters: it shows the toast of the check.  With equal passphrases of
    12 characters or more, and the Web Crypto API present, the key material
    it stores is unlocked by [handlePassphraseLogin] with the same
    passphrase, which recovers the signing key of the DID; and the public
    key sent to the backend is the key of the DID. *)
Theorem login_unlock_createAccount_keys (passphrase confirmPassphrase : string) (g : rng) :
  (passphrase <> confirmPassphrase ->
   createAccount_keys passphrase confirmPassphrase g
   = (CreationToast "Passphrases do not match", g)) /\
  (passphrase = confirmPassphrase -> String.length passphrase < 12 ->
   createAccount_keys passphrase confirmPassphrase g
   = (CreationToast "Passphrase must be at least 12 characters", g)) /\
  (passphrase = confirmPassphrase -> 12 <= String.length passphrase ->
   subtle_present = true ->
   exists generated created,
     (Did.generateDid g).1 = Ok generated /\
     (createAccount_keys passphrase confirmPassphrase g).1 = CreationKeys (Ok created) /\
     created_did created = Did.gd_did generated /\
     decodeBase64 (created_publicKeyB64 created) = Did.didToPublicKey (created_did created) /\
     login_unlock (created_encryptedKeyWithSalt created) passphrase
     = Unlocked (Did.gd_signingKey generated)).
Proof.
  unfold createAccount_keys.
  destruct (String.eqb_spec passphrase confirmPassphrase) as [Heq|Hne]; cbn [negb];
    [|by repeat split].
  destruct (Nat.ltb_spec (String.length passphrase) 12) as [Hshort|Hlong].
  { split; [done|]. split; [done|]. intros _ Hlen. lia. }
  split; [done|]. split; [intros _ Hlen; lia|]. intros _ _ Hpresent.
  destruct (generateDid_sized g) as (generated & Hgen & _ & Hdid).
  destruct (Did.generateDid g) as [generated' g1]. cbn [fst] in Hgen. subst generated'.
  destruct (deriveKeyWithNewSalt_default passphrase g1 Hpresent)
    as (key & salt & Hderive & Hkey & Hagain).
  destruct (Keys.deriveKeyWithNewSalt passphrase Keys.no_params g1) as [derived g2].
  cbn [fst] in Hderive. subst derived.
  destruct (encryptSymmetric_generated (Did.gd_signingKey generated) key g2 Hkey)
    as (nonceBytes & Hnonce & Hpayload).
  destruct (Encrypt.encryptSymmetric (Did.gd_signingKey generated) key None g2)
    as [encrypted g3]. cbn [fst] in Hpayload. subst encrypted.
  exists generated. eexists. split; [done|]. rewrite bind_Ok. split; [reflexivity|].
  cbn [created_did created_publicKeyB64 created_encryptedKeyWithSalt
       Encrypt.ciphertext Encrypt.nonce Encrypt.scheme].
  split; [done|]. split; [by rewrite decodeBase64_encodeBase64, Hdid|].
  unfold login_unlock.
  cbn [stored_salt stored_ciphertext stored_nonce stored_scheme].
  rewrite decodeBase64_encodeBase64, Hagain.
  unfold Encrypt.decryptSymmetric. cbn [Encrypt.ciphertext Encrypt.nonce].
  rewrite !decodeBase64_encodeBase64, !bind_Ok.
  by rewrite secretbox_open_secretbox_sized, bind_Ok by done.
Qed.

End WithLaws.

Lemma login_unlock_createAccount_keys_witness :
  let P := Reference.primitives in
  let W := Reference.web_crypto in
  let g := Reference.counting_tape in
  @createAccount_keys P W "correct horse" "correct house" g
  = (CreationToast "Passphrases do not match", g) /\
  @createAccount_keys P W "short words" "short words" g
  = (CreationToast "Passphrase must be at least 12 characters", g) /\
  exists generated created,
    (@Did.generateDid P g).1 = Ok generated /\
    (@createAccount_keys P W "correct horse" "correct horse" g).1
    = CreationKeys (Ok created) /\
    created_did created = Did.gd_did generated /\
    decodeBase64 (created_publicKeyB64 created) = Did.didToPublicKey (created_did created) /\
    @login_unlock P W (created_encryptedKeyWithSalt created) "correct horse"
    = Unlocked (Did.gd_signingKey generated).
Proof.
  pose proof (@login_unlock_createAccount_keys Reference.primitives
                ReferenceFacts.reference_laws Reference.web_crypto
                ReferenceBoxFacts.reference_web_crypto_laws) as H.
  split; [|split].
  - apply (H "correct horse" "correct house" Reference.counting_tape). discriminate.
  - apply (H "short words" "short words" Reference.counting_tape); [reflexivity|].
    cbn [String.length]. lia.
  - apply (H "correct horse" "correct horse" Reference.counting_tape);
      [reflexivity| |reflexivity].
    cbn [String.length]. lia.
Defined.

End PagesFacts.
